(** * 2l Filing Extractor: a shallow embedding of [2l_app.py]

    The script fetches the text behind each link of an uploaded table, asks a
    language model for a six-line summary, derives metadata by keyword and
    regular-expression heuristics and collects one output row per link.

    Python strings are modelled as lists of characters with code points below
    256 (Latin-1); [str.lower], [str.isspace] and the regular-expression
    classes [\s] and [\d] are given on that range as CPython defines them.
    The services the script talks to (HTTP, PDF text extraction, HTML text
    extraction, the chat completion endpoint, the clock and the user
    interface) are events of a free monad, so that every theorem about an
    effectful function quantifies over all behaviours of those services. *)

From Stdlib Require Import Ascii String DecimalString Lia PeanoNat Bool.
From stdpp Require Import base list.

Local Open Scope list_scope.

(** ** Python strings *)

Module Py.

Definition str := list ascii.

(** String literals of the source. *)
Definition py (s : string) : str := list_ascii_of_string s.

Definition ord (c : ascii) : nat := nat_of_ascii c.

Definition in_range (lo hi : nat) (c : ascii) : bool :=
  (lo <=? ord c) && (ord c <=? hi).

(** [str.isspace] on one character: TAB..CR, FS..US, space, NEL, NBSP. *)
Definition isspace (c : ascii) : bool :=
  in_range 9 13 c || in_range 28 32 c || (ord c =? 133) || (ord c =? 160).

(** [A-Z], [a-z] and [\d] (the decimal digits below 256 are 0..9). *)
Definition isupper_az (c : ascii) : bool := in_range 65 90 c.
Definition islower_az (c : ascii) : bool := in_range 97 122 c.
Definition isdigit (c : ascii) : bool := in_range 48 57 c.

(** [str.lower] on one character: A..Z and the Latin-1 capitals
    (U+00C0..U+00DE without the multiplication sign) move up by 32. *)
Definition lower_char (c : ascii) : ascii :=
  if in_range 65 90 c || (in_range 192 222 c && negb (ord c =? 215))
  then ascii_of_nat (ord c + 32) else c.

Definition lower (s : str) : str := map lower_char s.

Definition eqb_char (a b : ascii) : bool := Ascii.eqb a b.

(** [s.startswith(p)] *)
Fixpoint startswith (p s : str) : bool :=
  match p, s with
  | [], _ => true
  | _ :: _, [] => false
  | a :: p', b :: s' => eqb_char a b && startswith p' s'
  end.

(** [s.endswith(p)] *)
Definition endswith (p s : str) : bool :=
  startswith (reverse p) (reverse s).

(** [sub in s] *)
Fixpoint contains (sub s : str) : bool :=
  startswith sub s ||
  match s with
  | [] => false
  | _ :: s' => contains sub s'
  end.

(** [s.lstrip()], [s.rstrip()] and [s.strip()] *)
Fixpoint lstrip (s : str) : str :=
  match s with
  | [] => []
  | c :: s' => if isspace c then lstrip s' else s
  end.

Definition rstrip (s : str) : str := reverse (lstrip (reverse s)).

Definition strip (s : str) : str := rstrip (lstrip s).

(** [s.split(sep)] for a one-character separator: never empty. *)
Fixpoint split (sep : ascii) (s : str) : list str :=
  match s with
  | [] => [[]]
  | c :: s' =>
      if eqb_char c sep then [] :: split sep s'
      else match split sep s' with
           | [] => [[c]]
           | l :: ls => (c :: l) :: ls
           end
  end.

(** [s.partition(sep)]: the part before the first [sep], [sep] itself and
    the part after it; [(s, "", "")] when [sep] does not occur. *)
Fixpoint partition (sep s : str) : str * str * str :=
  match s with
  | [] => ([], [], [])
  | c :: s' =>
      if startswith sep s then ([], sep, drop (length sep) s)
      else let '(a, b, r) := partition sep s' in (c :: a, b, r)
  end.

(** [s[:n]] *)
Definition slice_to (n : nat) (s : str) : str := take n s.

End Py.

Import Py.

(** ** Response parser *)

(** One iteration of the loop of [parse_2l]: the line is stripped and
    compared against the six numbered prefixes in turn. *)
Definition parse_2l_line (values : list str) (line : str) : list str :=
  let line := strip line in
  if startswith (py "1.") line then <[0 := strip (partition (py ".") line).2]> values
  else if startswith (py "2.") line then <[1 := strip (partition (py ".") line).2]> values
  else if startswith (py "3.") line then <[2 := strip (partition (py ".") line).2]> values
  else if startswith (py "4.") line then <[3 := strip (partition (py ".") line).2]> values
  else if startswith (py "5.") line then <[4 := strip (partition (py ".") line).2]> values
  else if startswith (py "6.") line then <[5 := strip (partition (py ".") line).2]> values
  else values.

Definition parse_2l (response : str) : list str :=
  let lines := split "010"%char response in
  let values := replicate 6 [] in
  foldl parse_2l_line values lines.

(** ** Regular expressions

    The script uses [re.search] with five patterns.  [regex] is the fragment
    of the pattern language they are written in; [rmatch] is a backtracking
    matcher in continuation-passing style with the priorities of CPython's
    engine: alternatives left to right, repetitions greedy, the leftmost
    start position first. *)

Module Re.

Inductive regex : Type :=
| Eps : regex
| Chr : (ascii -> bool) -> regex              (* a character class *)
| Cat : regex -> regex -> regex
| Alt : regex -> regex -> regex
| Rep : regex -> nat -> option nat -> regex   (* r{lo,hi}, greedy *)
| Grp : nat -> regex -> regex.                (* capturing group i *)

(** Captured groups, most recent binding first. *)
Definition caps := list (nat * str).

Fixpoint group (i : nat) (c : caps) : option str :=
  match c with
  | [] => None
  | (j, w) :: c' => if Nat.eqb i j then Some w else group i c'
  end.

Definition set_group (i : nat) (w : str) (c : caps) : caps := (i, w) :: c.

Definition below (hi : option nat) : bool :=
  match hi with
  | Some 0 => false
  | _ => true
  end.

Definition dec_hi (hi : option nat) : option nat :=
  match hi with
  | Some n => Some (pred n)
  | None => None
  end.

(** The loop of a greedy repetition: one more round of [body] first, the
    continuation once [lo] rounds are done.  Every repeated sub-pattern of
    this program consumes a character, so [length s] rounds are enough. *)
Fixpoint rep_loop {X : Type}
    (body : (str -> caps -> option X) -> str -> caps -> option X)
    (k : str -> caps -> option X)
    (fuel lo : nat) (hi : option nat) (s : str) (c : caps) {struct fuel} : option X :=
  let stop := match lo with 0 => k s c | S _ => None end in
  match fuel with
  | 0 => stop
  | S fuel' =>
      if below hi then
        match body (fun s' c' => rep_loop body k fuel' (pred lo) (dec_hi hi) s' c') s c with
        | Some x => Some x
        | None => stop
        end
      else stop
  end.

(** [rmatch r k s c]: match [r] at the head of [s] with captures [c] and
    hand the rest of the input to [k]; [None] makes the matcher backtrack. *)
Fixpoint rmatch {X : Type} (r : regex) (k : str -> caps -> option X)
    (s : str) (c : caps) {struct r} : option X :=
  match r with
  | Eps => k s c
  | Chr p =>
      match s with
      | a :: s' => if p a then k s' c else None
      | [] => None
      end
  | Cat r1 r2 => rmatch r1 (fun s' c' => rmatch r2 k s' c') s c
  | Alt r1 r2 =>
      match rmatch r1 k s c with
      | Some x => Some x
      | None => rmatch r2 k s c
      end
  | Grp i r1 =>
      rmatch r1 (fun s' c' => k s' (set_group i (take (length s - length s') s) c')) s c
  | Rep r1 lo hi => rep_loop (rmatch r1) k (length s) lo hi s c
  end.

(** A match object: start offset, [group(0)] and the numbered groups. *)
Record match_obj : Type := MatchObj {
  m_start : nat;
  m_whole : str;
  m_caps : caps
}.

Definition match_at (r : regex) (s : str) : option (str * caps) :=
  rmatch r (fun rest c => Some (rest, c)) s [].

(** [re.search]: try every start position from the left, the end of the
    input included. *)
Fixpoint search_from (r : regex) (pos : nat) (s : str) : option match_obj :=
  match match_at r s with
  | Some (rest, c) => Some (MatchObj pos (take (length s - length rest) s) c)
  | None =>
      match s with
      | [] => None
      | _ :: s' => search_from r (S pos) s'
      end
  end.

Definition search (r : regex) (s : str) : option match_obj := search_from r 0 s.

(** [m.group(i)] for [i >= 1].  Python gives [None] for a group that took
    no part in the match; every group of this program's patterns takes part
    in every match, and the empty string stands for the case that never
    arises. *)
Definition m_group (i : nat) (m : match_obj) : str := default [] (group i (m_caps m)).

(** Pattern combinators. *)
Definition chr (a : ascii) : regex := Chr (eqb_char a).

Fixpoint lit (s : str) : regex :=
  match s with
  | [] => Eps
  | a :: s' => Cat (chr a) (lit s')
  end.

Definition plus (r : regex) : regex := Rep r 1 None.
Definition star (r : regex) : regex := Rep r 0 None.
Definition opt (r : regex) : regex := Rep r 0 (Some 1).
Definition times (n : nat) (r : regex) : regex := Rep r n (Some n).

Fixpoint cat (rs : list regex) : regex :=
  match rs with
  | [] => Eps
  | [r] => r
  | r :: rs' => Cat r (cat rs')
  end.

(** *** Declarative meaning

    [sem r w c c']: the word [w] is matched by [r] and the captures go from
    [c] to [c'].  It says which matches exist, not which one the engine
    prefers. *)
Fixpoint rep_sem (body : str -> caps -> caps -> Prop) (n : nat)
    (w : str) (c c' : caps) : Prop :=
  match n with
  | 0 => w = [] /\ c' = c
  | S n' => exists w1 w2 c1, w = w1 ++ w2 /\ body w1 c c1 /\ rep_sem body n' w2 c1 c'
  end.

Definition within (lo : nat) (hi : option nat) (n : nat) : Prop :=
  lo <= n /\ match hi with Some h => n <= h | None => True end.

Fixpoint sem (r : regex) (w : str) (c c' : caps) {struct r} : Prop :=
  match r with
  | Eps => w = [] /\ c' = c
  | Chr p => exists a, w = [a] /\ p a = true /\ c' = c
  | Cat r1 r2 => exists w1 w2 c1, w = w1 ++ w2 /\ sem r1 w1 c c1 /\ sem r2 w2 c1 c'
  | Alt r1 r2 => sem r1 w c c' \/ sem r2 w c c'
  | Grp i r1 => exists c1, sem r1 w c c1 /\ c' = set_group i w c1
  | Rep r1 lo hi => exists n, within lo hi n /\ rep_sem (sem r1) n w c c'
  end.

(** Patterns whose repeated parts cannot match the empty word. *)
Fixpoint productive (r : regex) : Prop :=
  match r with
  | Eps | Chr _ => True
  | Cat r1 r2 | Alt r1 r2 => productive r1 /\ productive r2
  | Grp _ r1 => productive r1
  | Rep r1 _ _ => productive r1 /\ forall c c', ~ sem r1 [] c c'
  end.

End Re.

Import Re.

(** ** Metadata extractors *)

(** [r"([A-Z][a-z]+(?: [A-Z][a-z]+)* (?:Limited|Ltd|Industries|Corporation))"] *)
Definition company_re : regex :=
  Grp 1 (cat [Chr isupper_az; plus (Chr islower_az);
              star (cat [chr " "; Chr isupper_az; plus (Chr islower_az)]);
              chr " ";
              Alt (lit (py "Limited"))
                (Alt (lit (py "Ltd"))
                   (Alt (lit (py "Industries")) (lit (py "Corporation"))))]).

Definition extract_company (text : str) : str :=
  match search company_re text with
  | Some m => m_whole m
  | None => py "Unknown"
  end.

(** The dictionary of [guess_sector], in insertion order. *)
Definition sector_keywords : list (str * str) :=
  [ (py "Pharma", py "Healthcare");
    (py "Chemical", py "Specialty Chemicals");
    (py "Bank", py "Financials");
    (py "Power", py "Energy");
    (py "Steel", py "Metals");
    (py "Auto", py "Automobile");
    (py "IT", py "Technology");
    (py "Software", py "Technology");
    (py "Retail", py "Consumer");
    (py "FMCG", py "Consumer Staples") ].

(** [for k, v in keywords.items(): if k.lower() in text.lower(): return v] *)
Fixpoint guess_sector_loop (items : list (str * str)) (text : str) : str :=
  match items with
  | [] => py "Unknown"
  | (k, v) :: items' =>
      if contains (lower k) (lower text) then v
      else guess_sector_loop items' text
  end.

Definition guess_sector (text : str) : str :=
  guess_sector_loop sector_keywords text.

(** [r'/([A-Z]{1,10})_'], [r'/companies/([A-Z]{1,10})'] and
    [r'BSE[:\s]+([A-Z]{1,10})'] *)
Definition ticker : regex := Grp 1 (Rep (Chr isupper_az) 1 (Some 10)).

Definition symbol_url_re : regex := cat [chr "/"; ticker; chr "_"].

Definition symbol_companies_re : regex := cat [lit (py "/companies/"); ticker].

Definition colon_or_space (a : ascii) : bool := eqb_char ":" a || isspace a.

Definition symbol_bse_re : regex :=
  cat [lit (py "BSE"); plus (Chr colon_or_space); ticker].

Definition extract_symbol (url text : str) : str :=
  match search symbol_url_re url with
  | Some m => m_group 1 m
  | None =>
      match search symbol_companies_re url with
      | Some m => m_group 1 m
      | None =>
          match search symbol_bse_re text with
          | Some m => m_group 1 m
          | None => py "Unknown"
          end
      end
  end.

(** The dictionary of [detect_announcement_type], in insertion order. *)
Definition announcement_keywords : list (str * str) :=
  [ (py "expansion", py "Expansion");
    (py "capex", py "Capex");
    (py "dividend", py "Dividend");
    (py "merger", py "Merger/Acquisition");
    (py "acquisition", py "Merger/Acquisition");
    (py "order", py "Order Win");
    (py "contract", py "Order Win");
    (py "plant", py "Capacity/Infra");
    (py "result", py "Financial Result");
    (py "profit", py "Financial Result");
    (py "loss", py "Financial Result");
    (py "bonus", py "Bonus/Split");
    (py "buyback", py "Buyback");
    (py "joint venture", py "JV/Partnership") ].

(** [for k, v in keywords.items(): if k in text.lower(): return v] *)
Fixpoint detect_announcement_loop (items : list (str * str)) (text : str) : str :=
  match items with
  | [] => py "General"
  | (k, v) :: items' =>
      if contains k (lower text) then v
      else detect_announcement_loop items' text
  end.

Definition detect_announcement_type (text : str) : str :=
  detect_announcement_loop announcement_keywords text.

(** [r'(\d{4})[-/]?(\d{2})[-/]?(\d{2})'] *)
Definition dash_or_slash (a : ascii) : bool := eqb_char "-" a || eqb_char "/" a.

Definition date_re : regex :=
  cat [Grp 1 (times 4 (Chr isdigit)); opt (Chr dash_or_slash);
       Grp 2 (times 2 (Chr isdigit)); opt (Chr dash_or_slash);
       Grp 3 (times 2 (Chr isdigit))].

(** [f"{y}-{m}-{d}"] *)
Definition format_date (y m d : str) : str := y ++ py "-" ++ m ++ py "-" ++ d.

(** ** The outside world

    Calls that leave the script are events; a program is a tree of events
    whose branches are the replies.  An exception is known by its [str(e)]. *)

Module Eff.

Record exn : Type := Exn { exn_str : str }.

(** What the script reads of a [requests] response. *)
Record response : Type := Response {
  resp_content : str;   (* [response.content], the raw bytes *)
  resp_text : str       (* [response.text] *)
}.

(** The keyword arguments of [openai.ChatCompletion.create]; the
    temperature 0.4 is kept in tenths. *)
Record chat_request : Type := ChatRequest {
  chat_model : str;
  chat_messages : list (str * str);   (* role, content *)
  chat_temperature_tenths : nat
}.

Inductive event : Type :=
| RequestsGet (url : str) (timeout : nat)      (* requests.get(url, timeout=10) *)
| WriteFile (name : str) (data : str)          (* open(name, "wb") and f.write(data) *)
| FitzOpen (name : str)                        (* fitz.open(name): the number of pages *)
| PageGetText (page : nat)                     (* page.get_text() of the next page *)
| DocClose                                     (* doc.close() *)
| SoupGetText (html : str)                     (* BeautifulSoup(html, "html.parser"), script and
                                                  style tags decomposed,
                                                  get_text(separator=" ", strip=True) *)
| ChatCompletionCreate (req : chat_request)    (* openai.ChatCompletion.create(...) and the string
                                                  response['choices'][0]['message']['content'] *)
| TodayStrftime (fmt : str)                    (* datetime.today().strftime(fmt) *)
| StatusText (msg : str)                       (* status.text(msg) *)
| Progress (num den : nat)                     (* progress.progress(num/den) *)
| Sleep (tenths : nat).                        (* time.sleep(1.2) *)

Definition reply (e : event) : Type :=
  match e with
  | RequestsGet _ _ => exn + response
  | WriteFile _ _ => exn + unit
  | FitzOpen _ => exn + nat
  | PageGetText _ => exn + str
  | DocClose => exn + unit
  | SoupGetText _ => exn + str
  | ChatCompletionCreate _ => exn + str
  | TodayStrftime _ => str
  | StatusText _ => unit
  | Progress _ _ => unit
  | Sleep _ => unit
  end.

Inductive prog (A : Type) : Type :=
| Ret : A -> prog A
| Act : forall e : event, (reply e -> prog A) -> prog A.

Arguments Ret {A} _.
Arguments Act {A} _ _.

Fixpoint bind {A B : Type} (p : prog A) (f : A -> prog B) : prog B :=
  match p with
  | Ret a => f a
  | Act e k => Act e (fun r => bind (k r) f)
  end.

Definition act (e : event) : prog (reply e) := Act e Ret.

(** A raising call: the exception leaves the [try] body at once. *)
Definition raising (A : Type) : Type := prog (exn + A).

Definition bind_exn {A B : Type} (p : raising A) (f : A -> raising B) : raising B :=
  bind p (fun r => match r with inl e => Ret (inl e) | inr a => f a end).

Definition try_except {A : Type} (p : raising A) (handler : exn -> prog A) : prog A :=
  bind p (fun r => match r with inl e => handler e | inr a => Ret a end).

(** The world answers every event and moves on. *)
Definition handler (W : Type) : Type := forall e : event, W -> reply e * W.

(** An entry of the log: an event and what the world replied. *)
Definition entry : Type := {e : event & reply e}.

Definition said (e : event) (r : reply e) : entry := existT e r.

Definition event_of (x : entry) : event := projT1 x.

(** [run h p w]: the result of [p], the world afterwards and the log of the
    events that happened, first to last. *)
Fixpoint run {W A : Type} (h : handler W) (p : prog A) (w : W) : A * W * list entry :=
  match p with
  | Ret a => (a, w, [])
  | Act e k =>
      let '(r, w1) := h e w in
      let '(a, w2, tr) := run h (k r) w1 in
      (a, w2, said e r :: tr)
  end.

Definition result {W A : Type} (h : handler W) (p : prog A) (w : W) : A := (run h p w).1.1.
Definition trace {W A : Type} (h : handler W) (p : prog A) (w : W) : list entry := (run h p w).2.

End Eff.

Import Eff.

(** [let! x := p in q] runs [p] and then [q]; [let? x := p in q] does the same
    inside a [try] body, where an exception of [p] skips [q]. *)
Notation "'let!' x ':=' p 'in' q" := (bind p (fun x => q))
  (at level 10, x name, p at level 100, q at level 200, only parsing).
Notation "'let?' x ':=' p 'in' q" := (bind_exn p (fun x => q))
  (at level 10, x name, p at level 100, q at level 200, only parsing).

(** ** Date of a filing *)

Definition extract_date_from_url (url : str) : prog str :=
  match search date_re url with
  | Some m => Ret (format_date (m_group 1 m) (m_group 2 m) (m_group 3 m))
  | None => act (TodayStrftime (py "%Y-%m-%d"))
  end.

(** ** Text fetcher *)

(** [for page in doc: text += page.get_text()] over the pages still to read. *)
Fixpoint read_pages (pages : list nat) (text : str) : raising str :=
  match pages with
  | [] => Ret (inr text)
  | i :: pages' =>
      let? t := act (PageGetText i) in
      read_pages pages' (text ++ t)
  end.

Definition fetch_pdf (url : str) : raising str :=
  let? response := act (RequestsGet url 10) in
  let? _ := act (WriteFile (py "temp.pdf") (resp_content response)) in
  let? n := act (FitzOpen (py "temp.pdf")) in
  let? text := read_pages (seq 0 n) [] in
  let? _ := act DocClose in
  Ret (inr (match text with
            | [] => py "Error: No text found in PDF"
            | _ :: _ => slice_to 4000 text
            end)).

Definition fetch_html (url : str) : raising str :=
  let? res := act (RequestsGet url 10) in
  let? text := act (SoupGetText (resp_text res)) in
  Ret (inr (slice_to 4000 text)).

Definition fetch_clean_text (url : str) : prog str :=
  try_except
    (if endswith (py ".pdf") (lower url) then fetch_pdf url else fetch_html url)
    (fun e => Ret (py "Error fetching " ++ url ++ py ": " ++ exn_str e)).


(** ** Summarizer *)

Definition prompt_head : str := py "
You are an expert equity research analyst. Given the following content from a web page or PDF, extract the information and present it in this custom format called '2l':

1. Key pointers and very important
2. Summarize this (if possible, add % with this)
3. A 2-3 line final summary (if possible, add % with this)
4. Explain to a 5-year-old
5. In one word (a proper heading with process)
6. Is it good or bad for the company (in 2 lines)

Only output in structured format. Do not explain.

Here is the content:
".

Definition prompt_tail : str := py "
".

Definition prompt_of (text : str) : str := prompt_head ++ text ++ prompt_tail.

Definition chat_request_of (text : str) : chat_request :=
  ChatRequest (py "gpt-4o") [(py "user", prompt_of text)] 4.

Definition generate_2l_format (text : str) : prog str :=
  try_except
    (act (ChatCompletionCreate (chat_request_of text)))
    (fun e => Ret (py "Error: " ++ exn_str e)).

(** ** Orchestrator *)

Definition row := list str.

Definition str_of_nat (n : nat) : str := py (NilEmpty.string_of_uint (Nat.to_uint n)).

Definition placeholder_row (link : str) : row :=
  [link; py "Unknown"; py "Unknown"; py "Unknown"; py "Error"; py "Error"]
    ++ replicate 6 (py "Error").

(** [f"Processing {i+1}/{len(df_links)}: {link}"] *)
Definition status_message (total i : nat) (link : str) : str :=
  py "Processing " ++ str_of_nat (i + 1) ++ py "/" ++ str_of_nat total ++ py ": " ++ link.

(** The body of the loop over [df_links.iterrows()]: [i] is the row index,
    [total] is [len(df_links)] and [output_data] the rows collected so far. *)
Definition process_row (total i : nat) (link : str) (output_data : list row)
    : prog (list row) :=
  let! _ := act (StatusText (status_message total i link)) in
  let! text := fetch_clean_text link in
  if startswith (py "Error") text then
    Ret (output_data ++ [placeholder_row link])
  else
    let! date := extract_date_from_url link in
    let company := extract_company text in
    let sector := guess_sector text in
    let symbol := extract_symbol link text in
    let ann_type := detect_announcement_type text in
    let! gpt_output := generate_2l_format text in
    let values := parse_2l gpt_output in
    let! _ := act (Progress (i + 1) total) in
    let! _ := act (Sleep 12) in
    Ret (output_data ++ [[link; symbol; company; sector; date; ann_type] ++ values]).

Fixpoint extraction_loop (total i : nat) (links : list str) (output_data : list row)
    : prog (list row) :=
  match links with
  | [] => Ret output_data
  | link :: links' =>
      let! output_data' := process_row total i link output_data in
      extraction_loop total (S i) links' output_data'
  end.

(** The handler of the "Run Extraction" button up to the data frame. *)
Definition run_extraction (links : list str) : prog (list row) :=
  extraction_loop (length links) 0 links [].

(** * Vocabulary of the statements *)

(** ** Response parser *)

(** The prefix of field [n] (counted from 0): the digit [n + 1] and a dot. *)
Definition field_prefix (n : nat) : str :=
  nth n [py "1."; py "2."; py "3."; py "4."; py "5."; py "6."] [].

Definition has_prefix (n : nat) (line : str) : bool :=
  startswith (field_prefix n) (strip line).

(** The text of a stripped line after its first dot. *)
Definition after_first_dot (line rest : str) : Prop :=
  exists pre, line = pre ++ "."%char :: rest /\ "."%char ∉ pre.

(** The field a stripped line is for, if any. *)
Definition prefix_index (l : str) : option nat :=
  match l with
  | a :: b :: _ =>
      if eqb_char "." b then
        if eqb_char "1" a then Some 0
        else if eqb_char "2" a then Some 1
        else if eqb_char "3" a then Some 2
        else if eqb_char "4" a then Some 3
        else if eqb_char "5" a then Some 4
        else if eqb_char "6" a then Some 5
        else None
      else None
  | _ => None
  end.

Definition parse_lines (values : list str) (lines : list str) : list str :=
  foldl parse_2l_line values lines.

(** The inverse of [split]. *)
Fixpoint join (sep : ascii) (ls : list str) : str :=
  match ls with
  | [] => []
  | [l] => l
  | l :: ls' => l ++ sep :: join sep ls'
  end.

(** ** Keyword heuristics *)

(** [sub] occurs in [s] as a contiguous piece. *)
Definition occurs_in (sub s : str) : Prop := exists a b, s = a ++ sub ++ b.

(** ** Regular expressions *)

(** [r] has a match somewhere in [s]; [pre] is what lies before it. *)
Definition matches_after (r : regex) (s pre : str) : Prop :=
  exists w rest c', s = pre ++ w ++ rest /\ sem r w [] c'.

Definition occurs (r : regex) (s : str) : Prop := exists pre, matches_after r s pre.

(** A word of one to ten capitals, what [[A-Z]{1,10}] matches. *)
Definition ticker_word (g : str) : Prop :=
  1 <= length g <= 10 /\ Forall (fun a => isupper_az a = true) g.

(** A word of [n] decimal digits, what [\d{n}] matches. *)
Definition digits (n : nat) (w : str) : Prop :=
  length w = n /\ Forall (fun a => isdigit a = true) w.

(** An optional separator of the date pattern: nothing, [-] or [/]. *)
Definition date_sep (w : str) : Prop := w = [] \/ w = py "-" \/ w = py "/".

(** A date as the pattern of [extract_date_from_url] reads it: four digits,
    two digits and two digits, each pair of neighbours with or without a
    separator between them. *)
Definition date_run (w y mo d : str) : Prop :=
  exists s1 s2,
    w = y ++ s1 ++ mo ++ s2 ++ d /\
    digits 4 y /\ date_sep s1 /\ digits 2 mo /\ date_sep s2 /\ digits 2 d.

(** A date starts in [url] right after the prefix [pre]. *)
Definition has_date_at (url pre : str) : Prop :=
  exists w rest y mo d, url = pre ++ w ++ rest /\ date_run w y mo d.

(** ** Runs of a program *)

(** [runs p tr a]: [p] can log [tr] and end with [a], for some replies of
    the world. *)
Fixpoint runs {A : Type} (p : prog A) (tr : list entry) (a : A) : Prop :=
  match p with
  | Ret b => tr = [] /\ a = b
  | Act e k => exists (r : reply e) (tr' : list entry), tr = said e r :: tr' /\ runs (k r) tr' a
  end.

(** The events of the PDF branch after the download, and of the HTML
    branch. *)
Definition is_pdf_event (e : event) : bool :=
  match e with
  | WriteFile _ _ | FitzOpen _ | PageGetText _ | DocClose => true
  | _ => false
  end.

Definition is_html_event (e : event) : bool :=
  match e with
  | SoupGetText _ => true
  | _ => false
  end.

Definition is_llm_event (e : event) : bool :=
  match e with
  | ChatCompletionCreate _ => true
  | _ => false
  end.

Definition is_clock_event (e : event) : bool :=
  match e with
  | TodayStrftime _ => true
  | _ => false
  end.

(** The log of the PDF branch: the download, then, if it came back, the
    write of [temp.pdf] and further PDF events only. *)
Definition pdf_branch (url : str) (tr : list entry) : Prop :=
  exists (r0 : reply (RequestsGet url 10)) (tr' : list entry),
    tr = said (RequestsGet url 10) r0 :: tr' /\
    Forall (fun x => is_pdf_event (event_of x) = true) tr' /\
    match r0 with
    | inl _ => tr' = []
    | inr response =>
        exists r1 tr'', tr' = said (WriteFile (py "temp.pdf") (resp_content response)) r1 :: tr''
    end.

(** The log of the HTML branch: the download, then, if it came back, the
    text extraction of the page and nothing else. *)
Definition html_branch (url : str) (tr : list entry) : Prop :=
  exists (r0 : reply (RequestsGet url 10)) (tr' : list entry),
    tr = said (RequestsGet url 10) r0 :: tr' /\
    match r0 with
    | inl _ => tr' = []
    | inr res => exists r1, tr' = [said (SoupGetText (resp_text res)) r1]
    end.

(** A world without state that refuses every fallible call and tells the
    given date. *)
Definition refusing (today : str) : handler unit :=
  fun e w =>
    (match e return reply e with
     | RequestsGet _ _ => inl (Exn (py "unreachable"))
     | WriteFile _ _ => inl (Exn (py "unreachable"))
     | FitzOpen _ => inl (Exn (py "unreachable"))
     | PageGetText _ => inl (Exn (py "unreachable"))
     | DocClose => inl (Exn (py "unreachable"))
     | SoupGetText _ => inl (Exn (py "unreachable"))
     | ChatCompletionCreate _ => inl (Exn (py "unreachable"))
     | TodayStrftime _ => today
     | StatusText _ => tt
     | Progress _ _ => tt
     | Sleep _ => tt
     end, w).

(** A world without state where every page is the given HTML text and the
    language model echoes a fixed summary. *)
Definition serving (page summary today : str) : handler unit :=
  fun e w =>
    (match e return reply e with
     | RequestsGet _ _ => inr (Response page page)
     | WriteFile _ _ => inr tt
     | FitzOpen _ => inr 1
     | PageGetText _ => inr page
     | DocClose => inr tt
     | SoupGetText html => inr html
     | ChatCompletionCreate _ => inr summary
     | TodayStrftime _ => today
     | StatusText _ => tt
     | Progress _ _ => tt
     | Sleep _ => tt
     end, w).

(** A program whose result does not depend on the world it runs in. *)
Definition ambient_free {A : Type} (p : prog A) : Prop :=
  forall (W1 W2 : Type) (h1 : handler W1) (h2 : handler W2) (w1 : W1) (w2 : W2),
    result h1 p w1 = result h2 p w2.

(** What [fetch_clean_text] returns when its [try] body raises. *)
Definition fetch_error (url : str) (e : exn) : str :=
  py "Error fetching " ++ url ++ py ": " ++ exn_str e.

(** A fetched text is short, or it is an error message. *)
Definition short_or_error (text : str) : Prop :=
  length text <= 4000 \/ exists rest, text = py "Error" ++ rest.

(** ** Rows *)

(** What [generate_2l_format] makes of the reply of the language model. *)
Definition summary_of (r : exn + str) : str :=
  match r with
  | inr content => content
  | inl e => py "Error: " ++ exn_str e
  end.

(** The row of a link whose text was fetched. *)
Definition filled_row (link text date : str) (r : exn + str) : row :=
  [link; extract_symbol link text; extract_company text; guess_sector text;
   date; detect_announcement_type text] ++ parse_2l (summary_of r).

(** The log holds no call of the language model. *)
Definition no_llm_call (tr : list entry) : Prop :=
  Forall (fun x => is_llm_event (event_of x) = false) tr.

(** ** Further vocabulary *)

(** A string of whitespace that holds no newline: what may surround a line
    of a response. *)
Definition blank (sp : str) : Prop :=
  Forall (fun a => isspace a = true) sp /\ "010"%char ∉ sp.

(** A field as [parse_2l] returns it: free of newlines and already
    stripped. *)
Definition clean_field (v : str) : Prop := ("010"%char ∉ v) /\ strip v = v.

(** The line of field [n] (counted from 0) of a well-formed response. *)
Definition numbered_line (n : nat) (v : str) : str := field_prefix n ++ py " " ++ v.

(** A capital followed by one or more small letters, what [[A-Z][a-z]+]
    matches. *)
Definition capital_word (w : str) : Prop :=
  exists a ws, w = a :: ws /\ isupper_az a = true /\ ws <> [] /\
               Forall (fun b => islower_az b = true) ws.

Definition company_suffixes : list str :=
  [py "Limited"; py "Ltd"; py "Industries"; py "Corporation"].

(** Words, each with a space before it. *)
Fixpoint spaced_words (more : list str) : str :=
  match more with
  | [] => []
  | x :: more' => py " " ++ x ++ spaced_words more'
  end.

(** What the pattern of [extract_company] matches: capitalised words with
    single spaces between them, a space and one of the four suffixes. *)
Definition company_name (w : str) : Prop :=
  exists first more suffix,
    w = first ++ spaced_words more ++ py " " ++ suffix /\
    capital_word first /\ Forall capital_word more /\ suffix ∈ company_suffixes.

(** ** Logs *)

(** The exception an entry of the log ended with, if it did. *)
Definition raised_by (x : entry) : option exn :=
  match x with
  | existT e r =>
      match e return reply e -> option exn with
      | RequestsGet _ _ => fun r => match r with inl ex => Some ex | inr _ => None end
      | WriteFile _ _ => fun r => match r with inl ex => Some ex | inr _ => None end
      | FitzOpen _ => fun r => match r with inl ex => Some ex | inr _ => None end
      | PageGetText _ => fun r => match r with inl ex => Some ex | inr _ => None end
      | DocClose => fun r => match r with inl ex => Some ex | inr _ => None end
      | SoupGetText _ => fun r => match r with inl ex => Some ex | inr _ => None end
      | ChatCompletionCreate _ =>
          fun r => match r with inl ex => Some ex | inr _ => None end
      | TodayStrftime _ => fun _ => None
      | StatusText _ => fun _ => None
      | Progress _ _ => fun _ => None
      | Sleep _ => fun _ => None
      end r
  end.

(** No call of the log raised. *)
Definition quiet (tr : list entry) : Prop := Forall (fun x => raised_by x = None) tr.

(** The last call of the log raised [e], and none before it raised. *)
Definition ends_raising (tr : list entry) (e : exn) : Prop :=
  exists tr0 x, tr = tr0 ++ [x] /\ quiet tr0 /\ raised_by x = Some e.

(** How a [try] body and its log fit together. *)
Definition outcome_ok {A : Type} (tr : list entry) (r : exn + A) : Prop :=
  match r with
  | inl e => ends_raising tr e
  | inr _ => quiet tr
  end.

(** The log of reading the pages [start], [start + 1], ... with the given
    texts. *)
Fixpoint page_log (start : nat) (texts : list str) : list entry :=
  match texts with
  | [] => []
  | t :: texts' => said (PageGetText start) (inr t) :: page_log (S start) texts'
  end.

(** The texts of the pages, one after the other. *)
Fixpoint all_text (texts : list str) : str :=
  match texts with
  | [] => []
  | t :: texts' => t ++ all_text texts'
  end.

(** ** The loop over the links *)

(** The column names of the data frame. *)
Definition columns : list str :=
  [py "Link"; py "Symbol"; py "Company"; py "Sector"; py "Date";
   py "Announcement Type"; py "Key Pointers"; py "Summary"; py "Final Summary";
   py "Explain Like 5"; py "One Word"; py "Good/Bad"].

(** One round of the loop: its log [t] and the row [r] it appends. *)
Definition round (total i : nat) (link : str) (t : list entry) (r : row) : Prop :=
  exists u tr_fetch text,
    runs (fetch_clean_text link) tr_fetch text /\
    ((startswith (py "Error") text = true /\
      t = said (StatusText (status_message total i link)) u :: tr_fetch /\
      r = placeholder_row link) \/
     (startswith (py "Error") text = false /\
      exists tr_date date reply,
        runs (extract_date_from_url link) tr_date date /\
        t = said (StatusText (status_message total i link)) u :: tr_fetch ++ tr_date
            ++ [said (ChatCompletionCreate (chat_request_of text)) reply;
                said (Progress (i + 1) total) tt;
                said (Sleep 12) tt] /\
        r = filled_row link text date reply)).

(** The rounds of the loop for the links, from index [i] on. *)
Fixpoint rounds (total i : nat) (links : list str) (tr : list entry) (rows : list row)
    : Prop :=
  match links with
  | [] => tr = [] /\ rows = []
  | link :: links' =>
      exists t1 t2 r rows',
        tr = t1 ++ t2 /\ rows = r :: rows' /\
        round total i link t1 r /\ rounds total (S i) links' t2 rows'
  end.

(** The URLs downloaded and the status messages shown, in the order of the
    log. *)
Definition download_of (e : event) : option str :=
  match e with
  | RequestsGet url _ => Some url
  | _ => None
  end.

Definition status_of (e : event) : option str :=
  match e with
  | StatusText msg => Some msg
  | _ => None
  end.

Definition downloads (tr : list entry) : list str :=
  omap (fun x => download_of (event_of x)) tr.

Definition statuses (tr : list entry) : list str :=
  omap (fun x => status_of (event_of x)) tr.

Definition is_sleep_event (e : event) : bool :=
  match e with
  | Sleep _ => true
  | _ => false
  end.

Definition is_progress_event (e : event) : bool :=
  match e with
  | Progress _ _ => true
  | _ => false
  end.

(** How many entries of the log are events of a kind. *)
Fixpoint count_events (kind : event -> bool) (tr : list entry) : nat :=
  match tr with
  | [] => 0
  | x :: tr' => (if kind (event_of x) then 1 else 0) + count_events kind tr'
  end.

Definition eqb_str (a b : str) : bool := startswith a b && startswith b a.

(** A row whose "Announcement Type" cell says "Error". *)
Definition failed_row (r : row) : bool :=
  match r !! 5 with
  | Some cell => eqb_str cell (py "Error")
  | None => false
  end.

Fixpoint count_filled (rows : list row) : nat :=
  match rows with
  | [] => 0
  | r :: rows' => (if failed_row r then 0 else 1) + count_filled rows'
  end.

(** What the progress bar accepts: a fraction from 1/[total] to 1. *)
Definition progress_ok (total : nat) (e : event) : Prop :=
  match e with
  | Progress num den => den = total /\ 1 <= num <= den
  | _ => True
  end.

(** A call of the language model with the prompt around a fetched text. *)
Definition llm_ok (e : event) : Prop :=
  match e with
  | ChatCompletionCreate req =>
      exists text,
        req = chat_request_of text /\ length text <= 4000 /\
        startswith (py "Error") text = false /\
        length (prompt_of text) <= 4512
  | _ => True
  end.

(** The events of a fetch after its download. *)
Definition is_fetch_tail (e : event) : bool := is_pdf_event e || is_html_event e.

(** ** Places of a symbol *)

(** A colon or a whitespace character, what [[:\s]] matches. *)
Definition colon_or_blank (a : ascii) : Prop := a = ":"%char \/ isspace a = true.

(** In [url], after [pre], stand a slash, the capitals [g] and an
    underscore. *)
Definition url_symbol_at (url pre g rest : str) : Prop :=
  url = pre ++ py "/" ++ g ++ py "_" ++ rest /\ ticker_word g.

(** In [url], after [pre], stand [/companies/] and the capitals [g]. *)
Definition companies_symbol_at (url pre g rest : str) : Prop :=
  url = pre ++ py "/companies/" ++ g ++ rest /\ ticker_word g.

(** In [text], after [pre], stand [BSE], one or more colons or whitespace
    characters and the capitals [g]. *)
Definition bse_symbol_at (text pre sep g rest : str) : Prop :=
  text = pre ++ py "BSE" ++ sep ++ g ++ rest /\
  sep <> [] /\ Forall colon_or_blank sep /\ ticker_word g.

(** The capitals [g] are not cut short: they are ten, or what follows them
    is no capital. *)
Definition cut_at_ten (g rest : str) : Prop :=
  length g = 10 \/ rest = [] \/ exists a rest', rest = a :: rest' /\ isupper_az a = false.

(** One of the three shapes occurs somewhere. *)
Definition url_symbol_occurs (url : str) : Prop :=
  exists pre g rest, url_symbol_at url pre g rest.

Definition companies_symbol_occurs (url : str) : Prop :=
  exists pre g rest, companies_symbol_at url pre g rest.

Definition bse_symbol_occurs (text : str) : Prop :=
  exists pre sep g rest, bse_symbol_at text pre sep g rest.

(** * Properties *)

(** Case analysis on a field number below six. *)
Ltac six_fields n :=
  let m := fresh "n" in
  destruct n as [|[|[|[|[|[|m]]]]]]; [ | | | | | | exfalso; lia].

(** ** Strings *)

Section StringFacts.

Lemma eqb_char_true (a b : ascii) : eqb_char a b = true <-> a = b.
Proof. apply Ascii.eqb_eq. Qed.

Lemma eqb_char_refl (a : ascii) : eqb_char a a = true.
Proof. apply Ascii.eqb_refl. Qed.

Lemma eqb_char_false (a b : ascii) : eqb_char a b = false <-> a <> b.
Proof. apply Ascii.eqb_neq. Qed.

Lemma startswith_spec (p s : str) :
  startswith p s = true <-> exists r, s = p ++ r.
Proof.
  revert s. induction p as [|a p IH]; intros s; simpl.
  - split; [intros _; exists s; reflexivity | reflexivity].
  - destruct s as [|b s].
    + split; [discriminate | intros [r Hr]; discriminate].
    + rewrite andb_true_iff, eqb_char_true, IH. split.
      * intros [-> [r ->]]. exists r. reflexivity.
      * intros [r Hr]. injection Hr as -> ->. split; [reflexivity | exists r; reflexivity].
Qed.

Lemma startswith_app (p r : str) : startswith p (p ++ r) = true.
Proof. apply startswith_spec. exists r. reflexivity. Qed.

Lemma contains_spec (sub s : str) :
  contains sub s = true <-> exists a b, s = a ++ sub ++ b.
Proof.
  induction s as [|c s IH].
  - simpl. rewrite orb_false_r, startswith_spec. split.
    + intros [r Hr]. exists [], r. exact Hr.
    + intros (a & b & H). destruct a as [|x a]; [|discriminate].
      exists b. exact H.
  - cbn [contains]. rewrite orb_true_iff, startswith_spec, IH. split.
    + intros [[r Hr] | (a & b & Hab)].
      * exists [], r. exact Hr.
      * exists (c :: a), b. rewrite Hab. reflexivity.
    + intros (a & b & Hab). destruct a as [|x a].
      * left. exists b. exact Hab.
      * right. injection Hab as _ Hs. exists a, b. exact Hs.
Qed.

Lemma endswith_spec (p s : str) :
  endswith p s = true <-> exists a, s = a ++ p.
Proof.
  unfold endswith. rewrite startswith_spec. split.
  - intros [r Hr]. exists (reverse r).
    apply (f_equal reverse) in Hr.
    rewrite reverse_involutive, reverse_app, reverse_involutive in Hr. exact Hr.
  - intros [a ->]. exists (reverse a). apply reverse_app.
Qed.

(** [partition] on a one-character separator splits at its first
    occurrence. *)
Lemma partition_first (d : ascii) (pre rest : str) :
  d ∉ pre ->
  partition [d] (pre ++ d :: rest) = (pre, [d], rest).
Proof.
  induction pre as [|c pre IH]; intros Hd; simpl.
  - rewrite eqb_char_refl. simpl. reflexivity.
  - assert (Hc : eqb_char d c = false).
    { apply eqb_char_false. intros ->. apply Hd. left. }
    rewrite Hc. simpl. rewrite IH; [reflexivity|].
    intros Hin. apply Hd. right. exact Hin.
Qed.

Lemma slice_to_length (n : nat) (s : str) : length (slice_to n s) <= n.
Proof. unfold slice_to. rewrite length_take. lia. Qed.

End StringFacts.

(** ** Response parser *)

Section Parser.

Lemma parse_2l_line_index (values : list str) (line : str) :
  parse_2l_line values line =
  match prefix_index (strip line) with
  | Some n => <[n := strip (drop 2 (strip line))]> values
  | None => values
  end.
Proof.
  unfold parse_2l_line, prefix_index.
  destruct (strip line) as [|a [|b rest]].
  - reflexivity.
  - simpl. rewrite !andb_false_r. reflexivity.
  - cbn [py list_ascii_of_string startswith].
    rewrite !andb_true_r.
    destruct (eqb_char "." b) eqn:Hb.
    + apply eqb_char_true in Hb. subst b. rewrite !andb_true_r.
      repeat match goal with
             | |- context [eqb_char ?d a] =>
                 let H := fresh in
                 destruct (eqb_char d a) eqn:H;
                 [ apply eqb_char_true in H; subst a; reflexivity | ]
             end.
      reflexivity.
    + rewrite !andb_false_r. reflexivity.
Qed.

Lemma has_prefix_index (n : nat) (line : str) :
  n < 6 -> has_prefix n line = true <-> prefix_index (strip line) = Some n.
Proof.
  intros Hn. unfold has_prefix, prefix_index.
  destruct (strip line) as [|a [|b rest]].
  - six_fields n; simpl; split; discriminate.
  - six_fields n; simpl;
      rewrite andb_false_r; split; discriminate.
  - six_fields n;
      cbn [field_prefix nth py list_ascii_of_string startswith];
      rewrite !andb_true_r;
      (destruct (eqb_char "." b) eqn:Hb; [|rewrite andb_false_r; split; discriminate]);
      rewrite andb_true_r;
      repeat match goal with
             | |- context [eqb_char ?d a] =>
                 let H := fresh in
                 destruct (eqb_char d a) eqn:H;
                 [apply eqb_char_true in H; subst a; simpl; split; congruence |]
             end; split; congruence.
Qed.

Lemma prefix_index_lt (l : str) (n : nat) : prefix_index l = Some n -> n < 6.
Proof.
  unfold prefix_index. destruct l as [|a [|b rest]]; try discriminate.
  repeat match goal with
         | |- context [if ?c then _ else _] => destruct c
         end; intros [= <-]; lia.
Qed.

Lemma prefix_index_none (line : str) :
  (forall n, n < 6 -> has_prefix n line = false) -> prefix_index (strip line) = None.
Proof.
  intros H. destruct (prefix_index (strip line)) as [n|] eqn:E; [|reflexivity].
  pose proof (prefix_index_lt _ _ E) as Hn.
  apply has_prefix_index in E; [|exact Hn].
  rewrite (H n Hn) in E. discriminate.
Qed.

Lemma field_prefix_shape (n : nat) (l rest : str) :
  n < 6 -> l = field_prefix n ++ rest ->
  exists d, l = d :: "."%char :: rest /\ d <> "."%char.
Proof.
  intros Hn ->.
  six_fields n;
    (eexists; split; [reflexivity | discriminate]).
Qed.

(** After a numbered prefix, the text after the first dot is what follows
    the prefix. *)
Lemma after_first_dot_prefix (n : nat) (l rest : str) :
  n < 6 -> startswith (field_prefix n) l = true ->
  (after_first_dot l rest <-> l = field_prefix n ++ rest).
Proof.
  intros Hn Hp. apply startswith_spec in Hp as [r Hr].
  destruct (field_prefix_shape n l r Hn Hr) as (d & Hl & Hd).
  split.
  - intros (pre & Hpre & Hnot). rewrite Hl in Hpre.
    destruct pre as [|x [|y pre]]; simpl in Hpre.
    + injection Hpre as Hx _. contradiction.
    + injection Hpre as _ Hrest. rewrite Hr. f_equal. exact Hrest.
    + injection Hpre as _ Hy _. subst y. exfalso. apply Hnot. right. left.
  - intros Hrest. rewrite Hr in Hrest. apply app_inv_head in Hrest. subst r.
    exists [d]. split; [exact Hl|].
    intros Hin. apply list_elem_of_singleton in Hin. congruence.
Qed.

Lemma parse_2l_line_hit (values : list str) (line rest : str) (n : nat) :
  n < 6 -> strip line = field_prefix n ++ rest ->
  parse_2l_line values line = <[n := strip rest]> values.
Proof.
  intros Hn Hl. rewrite parse_2l_line_index.
  assert (Hp : has_prefix n line = true).
  { unfold has_prefix. rewrite Hl. apply startswith_app. }
  apply has_prefix_index in Hp; [|exact Hn]. rewrite Hp, Hl.
  six_fields n; reflexivity.
Qed.

Lemma parse_2l_line_miss (values : list str) (line : str) :
  (forall n, n < 6 -> has_prefix n line = false) -> parse_2l_line values line = values.
Proof.
  intros H. rewrite parse_2l_line_index, (prefix_index_none _ H). reflexivity.
Qed.

Lemma parse_2l_line_other (values : list str) (line : str) (n : nat) :
  n < 6 -> has_prefix n line = false ->
  parse_2l_line values line !! n = values !! n.
Proof.
  intros Hn Hp. rewrite parse_2l_line_index.
  destruct (prefix_index (strip line)) as [m|] eqn:E; [|reflexivity].
  apply list_lookup_insert_ne. intros ->.
  apply has_prefix_index in E; [|exact Hn]. congruence.
Qed.

Lemma parse_2l_line_length (values : list str) (line : str) :
  length (parse_2l_line values line) = length values.
Proof.
  rewrite parse_2l_line_index.
  destruct (prefix_index (strip line)); [apply length_insert | reflexivity].
Qed.

Lemma parse_lines_length (lines : list str) (values : list str) :
  length (parse_lines values lines) = length values.
Proof.
  revert values. induction lines as [|l lines IH]; intros values; simpl.
  - reflexivity.
  - unfold parse_lines in *. simpl. rewrite IH. apply parse_2l_line_length.
Qed.

Lemma parse_lines_absent (n : nat) (lines : list str) (values : list str) :
  n < 6 -> (forall line, line ∈ lines -> has_prefix n line = false) ->
  parse_lines values lines !! n = values !! n.
Proof.
  intros Hn. revert values. induction lines as [|l lines IH]; intros values H.
  - reflexivity.
  - unfold parse_lines in *. simpl. rewrite IH.
    + apply parse_2l_line_other; [exact Hn|]. apply H. left.
    + intros line Hin. apply H. right. exact Hin.
Qed.

Lemma parse_lines_last (n : nat) (l1 l2 : list str) (line rest : str) (values : list str) :
  n < 6 -> n < length values ->
  strip line = field_prefix n ++ rest ->
  (forall l, l ∈ l2 -> has_prefix n l = false) ->
  parse_lines values (l1 ++ line :: l2) !! n = Some (strip rest).
Proof.
  intros Hn Hlen Hl Habs. unfold parse_lines. rewrite foldl_app. simpl.
  fold (parse_lines (parse_2l_line (foldl parse_2l_line values l1) line) l2).
  rewrite (parse_lines_absent n l2 _ Hn Habs).
  rewrite (parse_2l_line_hit _ line rest n Hn Hl).
  apply list_lookup_insert_eq.
  fold (parse_lines values l1). rewrite parse_lines_length. exact Hlen.
Qed.

Lemma parse_lines_skip (l1 l2 : list str) (line : str) (values : list str) :
  (forall n, n < 6 -> has_prefix n line = false) ->
  parse_lines values (l1 ++ line :: l2) = parse_lines values (l1 ++ l2).
Proof.
  intros H. unfold parse_lines. rewrite !foldl_app. simpl.
  rewrite (parse_2l_line_miss _ _ H). reflexivity.
Qed.

(** The last element of a list that passes a test, if there is one. *)
Lemma last_passing {A : Type} (P : A -> bool) (l : list A) :
  (exists l1 x l2, l = l1 ++ x :: l2 /\ P x = true /\ forall y, y ∈ l2 -> P y = false)
  \/ (forall y, y ∈ l -> P y = false).
Proof.
  induction l as [|a l IH].
  - right. intros y Hy. inversion Hy.
  - destruct IH as [(l1 & x & l2 & -> & Hx & Hl2) | Hnone].
    + left. exists (a :: l1), x, l2. auto.
    + destruct (P a) eqn:Ha.
      * left. exists [], a, l. auto.
      * right. intros y Hy. apply elem_of_cons in Hy as [-> | Hy]; auto.
Qed.

Lemma split_nonempty (sep : ascii) (s : str) : split sep s <> [].
Proof.
  destruct s as [|c s]; simpl; [discriminate|].
  destruct (eqb_char c sep); [discriminate|].
  destruct (split sep s); discriminate.
Qed.

Lemma join_split (sep : ascii) (s : str) : join sep (split sep s) = s.
Proof.
  induction s as [|c s IH]; [reflexivity|].
  simpl. destruct (eqb_char c sep) eqn:E.
  - apply eqb_char_true in E. subst c.
    pose proof (split_nonempty sep s) as Hne.
    destruct (split sep s) as [|l ls]; [contradiction|].
    simpl in *. rewrite IH. reflexivity.
  - pose proof (split_nonempty sep s) as Hne.
    destruct (split sep s) as [|l ls]; [contradiction|].
    destruct ls as [|l' ls]; simpl in *; rewrite <- IH; reflexivity.
Qed.

Lemma split_no_sep (sep : ascii) (s : str) :
  forall l, l ∈ split sep s -> sep ∉ l.
Proof.
  induction s as [|c s IH]; intros l Hl; simpl in Hl.
  - apply list_elem_of_singleton in Hl. subst l. intros H. inversion H.
  - destruct (eqb_char c sep) eqn:E.
    + apply elem_of_cons in Hl as [-> | Hl]; [intros H; inversion H | auto].
    + pose proof (split_nonempty sep s) as Hne.
      destruct (split sep s) as [|l0 ls]; [contradiction|].
      apply elem_of_cons in Hl as [-> | Hl].
      * intros H. apply elem_of_cons in H as [-> | H].
        -- rewrite eqb_char_refl in E. discriminate.
        -- revert H. apply IH. left.
      * apply IH. right. exact Hl.
Qed.

Lemma parse_2l_lines (response : str) :
  parse_2l response = parse_lines (replicate 6 []) (split "010" response).
Proof. reflexivity. Qed.

(** C2. The response is cut into lines at the newlines; a line whose
    stripped form starts with the prefix of field [n] sets that field, and
    no other, to the stripped text after the line's first dot; a line that
    starts with none of the six prefixes leaves every field as it was and
    can be deleted from the response without changing the result; each
    field of the result is either the text of such a prefixed line or, when
    there is none, the initial empty string. *)
Theorem parse_2l_prefix_matching (response : str) :
  let lines := split "010" response in
  join "010" lines = response /\
  (forall (values : list str) (line rest : str) (n : nat),
      n < 6 ->
      startswith (field_prefix n) (strip line) = true ->
      after_first_dot (strip line) rest ->
      parse_2l_line values line = <[n := strip rest]> values) /\
  (forall (values : list str) (line : str),
      (forall n, n < 6 -> startswith (field_prefix n) (strip line) = false) ->
      parse_2l_line values line = values) /\
  (forall n : nat, n < 6 ->
      (exists line rest,
          line ∈ lines /\
          startswith (field_prefix n) (strip line) = true /\
          after_first_dot (strip line) rest /\
          parse_2l response !! n = Some (strip rest))
      \/ ((forall line, line ∈ lines -> startswith (field_prefix n) (strip line) = false) /\
          parse_2l response !! n = Some [])) /\
  (forall (l1 l2 : list str) (line : str),
      lines = l1 ++ line :: l2 ->
      (forall n, n < 6 -> startswith (field_prefix n) (strip line) = false) ->
      parse_2l response = parse_lines (replicate 6 []) (l1 ++ l2)).
Proof.
  intros lines. split; [apply join_split|].
  split.
  { intros values line rest n Hn Hp Hrest.
    apply (after_first_dot_prefix n _ _ Hn Hp) in Hrest.
    apply parse_2l_line_hit; assumption. }
  split; [intros values line H; apply parse_2l_line_miss; exact H|].
  split.
  - intros n Hn. rewrite parse_2l_lines. fold lines.
    destruct (last_passing (has_prefix n) lines)
      as [(l1 & line & l2 & Hl & Hline & Hl2) | Hnone].
    + left.
      pose proof Hline as Hp. unfold has_prefix in Hp.
      apply startswith_spec in Hp as [rest Hrest].
      exists line, rest. split; [rewrite Hl; apply elem_of_app; right; left|].
      split; [exact Hline|].
      split; [apply (after_first_dot_prefix n); [exact Hn|exact Hline|exact Hrest]|].
      rewrite Hl. apply parse_lines_last; assumption.
    + right. split; [exact Hnone|].
      rewrite (parse_lines_absent n lines _ Hn Hnone).
      six_fields n; reflexivity.
  - intros l1 l2 line Hl Hmiss. rewrite parse_2l_lines. fold lines. rewrite Hl.
    apply parse_lines_skip. exact Hmiss.
Qed.

(** C8. [parse_2l] returns six strings for every input; a field whose
    prefix starts no stripped line is the empty string; when several lines
    start with the prefix of a field, the last of them gives the field.  The
    empty response and an error message of the summarizer give six empty
    fields. *)
Theorem parse_2l_six_fields_last_wins (response : str) :
  length (parse_2l response) = 6 /\
  (forall n : nat, n < 6 ->
      (forall line, line ∈ split "010" response -> has_prefix n line = false) ->
      parse_2l response !! n = Some []) /\
  (forall (n : nat) (l1 l2 : list str) (line rest : str),
      n < 6 ->
      split "010" response = l1 ++ line :: l2 ->
      strip line = field_prefix n ++ rest ->
      (forall l, l ∈ l2 -> has_prefix n l = false) ->
      parse_2l response !! n = Some (strip rest)) /\
  parse_2l [] = replicate 6 [] /\
  parse_2l (py "Error: Rate limit reached") = replicate 6 [].
Proof.
  split; [rewrite parse_2l_lines; apply parse_lines_length|].
  split.
  { intros n Hn Hnone. rewrite parse_2l_lines.
    rewrite (parse_lines_absent n _ _ Hn Hnone).
    six_fields n; reflexivity. }
  split.
  { intros n l1 l2 line rest Hn Hl Hline Hl2. rewrite parse_2l_lines, Hl.
    apply parse_lines_last; assumption. }
  split; vm_compute; reflexivity.
Qed.

End Parser.

(** ** Sector heuristic *)

Section Sector.

Lemma contains_occurs (sub s : str) : contains sub s = true <-> occurs_in sub s.
Proof. apply contains_spec. Qed.

Lemma contains_not_occurs (sub s : str) : contains sub s = false <-> ~ occurs_in sub s.
Proof.
  rewrite <- contains_occurs. destruct (contains sub s); split; congruence.
Qed.

Lemma guess_sector_loop_first (text : str) (items : list (str * str)) :
  forall (i : nat) (k v : str),
    items !! i = Some (k, v) ->
    occurs_in (lower k) (lower text) ->
    (forall j k' v', j < i -> items !! j = Some (k', v') ->
                     ~ occurs_in (lower k') (lower text)) ->
    guess_sector_loop items text = v.
Proof.
  induction items as [|[k0 v0] items IH]; intros i k v Hi Hk Hbefore.
  - discriminate.
  - destruct i as [|i]; simpl in Hi |- *.
    + injection Hi as -> ->.
      apply contains_occurs in Hk. rewrite Hk. reflexivity.
    + assert (H0 : contains (lower k0) (lower text) = false).
      { apply contains_not_occurs. apply (Hbefore 0 k0 v0); [lia | reflexivity]. }
      rewrite H0. apply (IH i k v Hi Hk).
      intros j k' v' Hj Hlook. apply (Hbefore (S j) k' v'); [lia | exact Hlook].
Qed.

Lemma guess_sector_loop_unknown (text : str) (items : list (str * str)) :
  (forall k v, (k, v) ∈ items -> v <> py "Unknown") ->
  guess_sector_loop items text = py "Unknown" <->
  (forall k v, (k, v) ∈ items -> ~ occurs_in (lower k) (lower text)).
Proof.
  induction items as [|[k0 v0] items IH]; intros Hval.
  - split; [|reflexivity]. intros _ k v Hin. inversion Hin.
  - cbn [guess_sector_loop].
    destruct (contains (lower k0) (lower text)) eqn:E.
    + split.
      * intros Hv. exfalso. apply (Hval k0 v0); [left | exact Hv].
      * intros Hnone. exfalso. apply (Hnone k0 v0); [left|].
        apply contains_occurs. exact E.
    + rewrite IH; [|intros k v Hin; apply (Hval k v); right; exact Hin].
      split.
      * intros Hnone k v Hin. apply elem_of_cons in Hin as [[= -> ->] | Hin].
        -- apply contains_not_occurs. exact E.
        -- apply (Hnone k v Hin).
      * intros Hnone k v Hin. apply (Hnone k v). right. exact Hin.
Qed.

Lemma sector_values_known :
  forall k v, (k, v) ∈ sector_keywords -> v <> py "Unknown".
Proof.
  intros k v Hin.
  unfold sector_keywords in Hin.
  repeat (apply elem_of_cons in Hin as [[= _ ->] | Hin]; [cbv; discriminate|]).
  inversion Hin.
Qed.

(** C5. The keywords are tried in the order Pharma, Chemical, Bank, Power,
    Steel, Auto, IT, Software, Retail, FMCG; the sector of the first keyword
    whose lowercase form occurs in the lowercased text is returned, and the
    result is "Unknown" exactly when no keyword occurs that way. *)
Theorem guess_sector_first_keyword (text : str) :
  sector_keywords.*1 =
    [py "Pharma"; py "Chemical"; py "Bank"; py "Power"; py "Steel";
     py "Auto"; py "IT"; py "Software"; py "Retail"; py "FMCG"] /\
  (forall (i : nat) (k v : str),
      sector_keywords !! i = Some (k, v) ->
      occurs_in (lower k) (lower text) ->
      (forall j k' v', j < i -> sector_keywords !! j = Some (k', v') ->
                       ~ occurs_in (lower k') (lower text)) ->
      guess_sector text = v) /\
  (guess_sector text = py "Unknown" <->
   forall k v, (k, v) ∈ sector_keywords -> ~ occurs_in (lower k) (lower text)).
Proof.
  split; [reflexivity|]. split.
  - intros i k v. apply guess_sector_loop_first.
  - apply guess_sector_loop_unknown. exact sector_values_known.
Qed.

End Sector.

(** ** The matcher against the meaning of patterns *)

Section Engine.

Context {X : Type}.

Implicit Types (k : str -> caps -> option X) (s w : str) (c : caps).

Lemma within_zero (hi : option nat) : within 0 hi 0.
Proof. split; [lia|]. destruct hi; [lia | exact I]. Qed.

Lemma within_succ (lo : nat) (hi : option nat) (n : nat) :
  below hi = true -> within (pred lo) (dec_hi hi) n -> within lo hi (S n).
Proof.
  intros Hb [Hlo Hhi]. split; [lia|].
  destruct hi as [[|h]|]; simpl in *; try discriminate; lia.
Qed.

Lemma within_pred (lo : nat) (hi : option nat) (n : nat) :
  within lo hi (S n) -> below hi = true /\ within (pred lo) (dec_hi hi) n.
Proof.
  intros [Hlo Hhi]. destruct hi as [[|h]|]; simpl in *; try lia.
  - split; [reflexivity|]. split; simpl; lia.
  - split; [reflexivity|]. split; simpl; [lia | exact I].
Qed.

(** Every answer of the matcher is a match. *)
Lemma rep_loop_sound
    (body : (str -> caps -> option X) -> str -> caps -> option X)
    (R : str -> caps -> caps -> Prop) :
  (forall k s c x, body k s c = Some x ->
     exists w s' c', s = w ++ s' /\ R w c c' /\ k s' c' = Some x) ->
  forall k fuel lo hi s c x,
    rep_loop body k fuel lo hi s c = Some x ->
    exists n w s' c',
      s = w ++ s' /\ within lo hi n /\ rep_sem R n w c c' /\ k s' c' = Some x.
Proof.
  intros Hbody k.
  assert (Hstop : forall lo hi s c x,
             match lo with 0 => k s c | S _ => None end = Some x ->
             exists n w s' c',
               s = w ++ s' /\ within lo hi n /\ rep_sem R n w c c' /\ k s' c' = Some x).
  { intros [|lo] hi s c x H; [|discriminate].
    exists 0, [], s, c. simpl. auto using within_zero. }
  induction fuel as [|fuel IH]; intros lo hi s c x H; simpl in H.
  - apply Hstop. exact H.
  - destruct (below hi) eqn:Hb; [|apply Hstop; exact H].
    destruct (body _ s c) as [y|] eqn:Hy; [|apply Hstop; exact H].
    injection H as ->.
    apply Hbody in Hy as (w1 & s1 & c1 & -> & HR & Hrest).
    apply IH in Hrest as (n & w2 & s' & c' & -> & Hin & Hrep & Hk).
    exists (S n), (w1 ++ w2), s', c'.
    split; [apply app_assoc|].
    split; [apply within_succ; assumption|].
    split; [|exact Hk].
    simpl. exists w1, w2, c1. auto.
Qed.

Lemma take_matched (w s' : str) : take (length (w ++ s') - length s') (w ++ s') = w.
Proof.
  rewrite length_app.
  replace (length w + length s' - length s') with (length w) by lia.
  apply take_app_length.
Qed.

Lemma rmatch_sound (r : regex) :
  forall k s c x,
    rmatch r k s c = Some x ->
    exists w s' c', s = w ++ s' /\ sem r w c c' /\ k s' c' = Some x.
Proof.
  induction r as [|p|r1 IH1 r2 IH2|r1 IH1 r2 IH2|r1 IH1 lo hi|i r1 IH1];
    intros k s c x H; simpl in H.
  - exists [], s, c. simpl. auto.
  - destruct s as [|a s]; [discriminate|].
    destruct (p a) eqn:Hp; [|discriminate].
    exists [a], s, c. simpl. split; [reflexivity|]. split; [|exact H].
    exists a. auto.
  - apply IH1 in H as (w1 & s1 & c1 & -> & H1 & H).
    apply IH2 in H as (w2 & s2 & c2 & -> & H2 & H).
    exists (w1 ++ w2), s2, c2. split; [apply app_assoc|]. split; [|exact H].
    simpl. exists w1, w2, c1. auto.
  - destruct (rmatch r1 k s c) as [y|] eqn:Hy.
    + injection H as ->. apply IH1 in Hy as (w & s' & c' & -> & Hs & Hk).
      exists w, s', c'. simpl. auto.
    + apply IH2 in H as (w & s' & c' & -> & Hs & Hk).
      exists w, s', c'. simpl. auto.
  - apply (rep_loop_sound _ (sem r1) IH1) in H
      as (n & w & s' & c' & -> & Hin & Hrep & Hk).
    exists w, s', c'. split; [reflexivity|]. split; [|exact Hk].
    simpl. exists n. auto.
  - apply IH1 in H as (w & s' & c1 & -> & Hs & Hk).
    rewrite take_matched in Hk.
    exists w, s', (set_group i w c1). split; [reflexivity|]. split; [|exact Hk].
    simpl. exists c1. auto.
Qed.

(** A productive pattern that has a match is matched. *)
Lemma rep_sem_length (R : str -> caps -> caps -> Prop) :
  (forall c c', ~ R [] c c') ->
  forall n w c c', rep_sem R n w c c' -> n <= length w.
Proof.
  intros Hne. induction n as [|n IH]; intros w c c' H; simpl in H.
  - lia.
  - destruct H as (w1 & w2 & c1 & -> & H1 & H2).
    apply IH in H2. rewrite length_app.
    destruct w1 as [|a w1]; [exfalso; apply (Hne _ _ H1)|]. simpl. lia.
Qed.

Lemma rep_loop_complete
    (body : (str -> caps -> option X) -> str -> caps -> option X)
    (R : str -> caps -> caps -> Prop) :
  (forall k w s' c c' x, R w c c' -> k s' c' = Some x ->
     exists y, body k (w ++ s') c = Some y) ->
  forall k n fuel lo hi w s' c c' x,
    within lo hi n -> n <= fuel ->
    rep_sem R n w c c' -> k s' c' = Some x ->
    exists y, rep_loop body k fuel lo hi (w ++ s') c = Some y.
Proof.
  intros Hbody k. induction n as [|n IH];
    intros fuel lo hi w s' c c' x Hin Hfuel Hrep Hk; simpl in Hrep.
  - destruct Hrep as [-> ->]. destruct Hin as [Hlo _].
    assert (lo = 0) as -> by lia. simpl app.
    destruct fuel as [|fuel]; simpl; [eauto|].
    destruct (below hi); [|eauto].
    destruct (body _ s' c); eauto.
  - destruct Hrep as (w1 & w2 & c1 & -> & H1 & H2).
    destruct fuel as [|fuel]; [lia|].
    apply within_pred in Hin as [Hb Hin].
    destruct (IH fuel (pred lo) (dec_hi hi) w2 s' c1 c' x Hin ltac:(lia) H2 Hk)
      as [y Hy].
    destruct (Hbody (fun s0 c0 => rep_loop body k fuel (pred lo) (dec_hi hi) s0 c0)
                w1 (w2 ++ s') c c1 y H1 Hy) as [z Hz].
    simpl. rewrite Hb, <- app_assoc, Hz. eauto.
Qed.

Lemma rmatch_complete (r : regex) :
  productive r ->
  forall k w s' c c' x,
    sem r w c c' -> k s' c' = Some x ->
    exists y, rmatch r k (w ++ s') c = Some y.
Proof.
  induction r as [|p|r1 IH1 r2 IH2|r1 IH1 r2 IH2|r1 IH1 lo hi|i r1 IH1];
    intros Hprod k w s' c c' x Hs Hk; simpl in Hs, Hprod |- *.
  - destruct Hs as [-> ->]. eauto.
  - destruct Hs as (a & -> & Hp & ->). simpl. rewrite Hp. eauto.
  - destruct Hs as (w1 & w2 & c1 & -> & H1 & H2). destruct Hprod as [P1 P2].
    destruct (IH2 P2 k w2 s' c1 c' x H2 Hk) as [y Hy].
    rewrite <- app_assoc.
    apply (IH1 P1 (fun s0 c0 => rmatch r2 k s0 c0) w1 (w2 ++ s') c c1 y H1 Hy).
  - destruct Hprod as [P1 P2].
    destruct (rmatch r1 k (w ++ s') c) as [y|] eqn:Hy; [eauto|].
    destruct Hs as [Hs | Hs].
    + destruct (IH1 P1 k w s' c c' x Hs Hk) as [z Hz]. congruence.
    + apply (IH2 P2 k w s' c c' x Hs Hk).
  - destruct Hs as (n & Hin & Hrep). destruct Hprod as [P1 Hne].
    apply (rep_loop_complete _ (sem r1) (IH1 P1) k n _ lo hi w s' c c' x);
      try assumption.
    apply (rep_sem_length _ Hne) in Hrep. rewrite length_app. lia.
  - destruct Hs as (c1 & Hs & ->).
    apply (IH1 Hprod _ w s' c c1 x Hs).
    rewrite take_matched. exact Hk.
Qed.

End Engine.

(** ** [re.search] *)

Section Search.

Lemma match_at_sound (r : regex) (s rest : str) (c : caps) :
  match_at r s = Some (rest, c) -> exists w, s = w ++ rest /\ sem r w [] c.
Proof.
  unfold match_at. intros H.
  apply rmatch_sound in H as (w & s' & c' & -> & Hs & [= <- <-]).
  exists w. auto.
Qed.

Lemma match_at_complete (r : regex) (w rest : str) (c' : caps) :
  productive r -> sem r w [] c' -> exists y, match_at r (w ++ rest) = Some y.
Proof.
  intros Hp Hs. unfold match_at.
  apply (rmatch_complete r Hp _ w rest [] c' (rest, c') Hs). reflexivity.
Qed.

(** A found match lies in the input at its start offset, is a match of the
    pattern, and no match starts further left. *)
Lemma search_from_found (r : regex) :
  productive r ->
  forall s pos m,
    search_from r pos s = Some m ->
    exists pre rest,
      s = pre ++ m_whole m ++ rest /\
      m_start m = pos + length pre /\
      sem r (m_whole m) [] (m_caps m) /\
      (forall pre', matches_after r s pre' -> length pre <= length pre').
Proof.
  intros Hp. induction s as [|a s IH]; intros pos m H; cbn [search_from] in H.
  - destruct (match_at r []) as [[rest c]|] eqn:E; [|discriminate].
    injection H as <-. simpl.
    apply match_at_sound in E as (w & Hw & Hs).
    symmetry in Hw. apply app_eq_nil in Hw as [-> ->].
    exists [], []. simpl. repeat split; [lia | exact Hs | intros; lia].
  - destruct (match_at r (a :: s)) as [[rest c]|] eqn:E.
    + injection H as <-. cbn [m_whole m_caps m_start].
      apply match_at_sound in E as (w & Hw & Hs).
      assert (Ht : take (S (length s) - length rest) (a :: s) = w).
      { change (S (length s)) with (length (a :: s)).
        rewrite Hw. apply take_matched. }
      rewrite Ht.
      exists [], rest. simpl. repeat split; [exact Hw | lia | exact Hs | intros; lia].
    + apply IH in H as (pre & rest & Hs & Hstart & Hsem & Hleft).
      exists (a :: pre), rest. rewrite Hs at 1. simpl.
      repeat split; [lia | exact Hsem |].
      intros pre' (w' & rest' & c' & Hs' & Hsem').
      destruct pre' as [|b pre'].
      * simpl in Hs'.
        destruct (match_at_complete r w' rest' c' Hp Hsem') as [y Hy].
        rewrite <- Hs' in Hy. congruence.
      * simpl in Hs'. injection Hs' as _ Hs'. simpl.
        assert (length pre <= length pre'); [|lia].
        apply Hleft. exists w', rest', c'. auto.
Qed.

Lemma search_from_none (r : regex) :
  productive r ->
  forall s pos, search_from r pos s = None -> ~ occurs r s.
Proof.
  intros Hp. induction s as [|a s IH]; intros pos H (pre & w & rest & c' & Hs & Hsem);
    simpl in H.
  - destruct (match_at r []) as [[rest0 c]|] eqn:E; [discriminate|].
    symmetry in Hs. apply app_eq_nil in Hs as [-> Hs].
    apply app_eq_nil in Hs as [-> ->].
    destruct (match_at_complete r [] [] c' Hp Hsem) as [y Hy].
    simpl in Hy. congruence.
  - destruct (match_at r (a :: s)) as [[rest0 c]|] eqn:E; [discriminate|].
    destruct pre as [|b pre].
    + destruct (match_at_complete r w rest c' Hp Hsem) as [y Hy].
      simpl in Hs. rewrite <- Hs in Hy. congruence.
    + simpl in Hs. injection Hs as _ Hs.
      apply (IH (S pos) H). exists pre, w, rest, c'. auto.
Qed.

Lemma search_none_iff (r : regex) (s : str) :
  productive r -> search r s = None <-> ~ occurs r s.
Proof.
  intros Hp. split.
  - apply search_from_none. exact Hp.
  - intros Hno. destruct (search r s) as [m|] eqn:E; [|reflexivity].
    exfalso. apply Hno.
    apply (search_from_found r Hp) in E as (pre & rest & Hs & _ & Hsem & _).
    exists pre, (m_whole m), rest, (m_caps m). auto.
Qed.

Lemma search_found (r : regex) (s : str) (m : match_obj) :
  productive r ->
  search r s = Some m ->
  exists pre rest,
    s = pre ++ m_whole m ++ rest /\
    m_start m = length pre /\
    sem r (m_whole m) [] (m_caps m) /\
    (forall pre', matches_after r s pre' -> length pre <= length pre').
Proof.
  intros Hp H. apply (search_from_found r Hp) in H as (pre & rest & H1 & H2 & H3 & H4).
  exists pre, rest. auto.
Qed.

Lemma search_some_iff (r : regex) (s : str) :
  productive r -> (exists m, search r s = Some m) <-> occurs r s.
Proof.
  intros Hp. split.
  - intros [m Hm]. apply (search_found r s m Hp) in Hm as (pre & rest & Hs & _ & Hsem & _).
    exists pre, (m_whole m), rest, (m_caps m). auto.
  - intros Hocc. destruct (search r s) as [m|] eqn:E; [eauto|].
    apply (search_none_iff r s Hp) in E. contradiction.
Qed.

End Search.

(** ** Meaning of the patterns of the program *)

Section Patterns.

Implicit Types (w g : str) (c : caps).

Lemma sem_chr (a : ascii) w c c' : sem (chr a) w c c' <-> w = [a] /\ c' = c.
Proof.
  unfold chr. simpl. split.
  - intros (b & -> & Hb & ->). apply eqb_char_true in Hb. subst b. auto.
  - intros [-> ->]. exists a. rewrite eqb_char_refl. auto.
Qed.

Lemma sem_lit (l : str) w c c' : sem (lit l) w c c' <-> w = l /\ c' = c.
Proof.
  revert w c. induction l as [|a l IH]; intros w c; simpl.
  - reflexivity.
  - split.
    + intros (w1 & w2 & c1 & -> & H1 & H2).
      apply (sem_chr a) in H1 as [-> ->]. apply IH in H2 as [-> ->]. auto.
    + intros [-> ->]. exists [a], l, c. split; [reflexivity|].
      split; [apply sem_chr; auto | apply IH; auto].
Qed.

Lemma rep_sem_class (p : ascii -> bool) (n : nat) w c c' :
  rep_sem (sem (Chr p)) n w c c' <->
  length w = n /\ Forall (fun a => p a = true) w /\ c' = c.
Proof.
  revert w c. induction n as [|n IH]; intros w c; simpl.
  - split.
    + intros [-> ->]. auto.
    + intros (Hw & _ & ->). apply nil_length_inv in Hw. auto.
  - split.
    + intros (w1 & w2 & c1 & -> & (a & -> & Hp & ->) & H2).
      apply IH in H2 as (Hlen & Hall & ->). simpl. auto.
    + intros (Hlen & Hall & ->). destruct w as [|a w]; [discriminate|].
      injection Hlen as Hlen. apply Forall_cons in Hall as [Ha Hall].
      exists [a], w, c. split; [reflexivity|].
      split; [exists a; auto | apply IH; auto].
Qed.

Lemma sem_class_rep (p : ascii -> bool) (lo : nat) (hi : option nat) w c c' :
  sem (Rep (Chr p) lo hi) w c c' <->
  within lo hi (length w) /\ Forall (fun a => p a = true) w /\ c' = c.
Proof.
  simpl. split.
  - intros (n & Hin & Hrep). apply rep_sem_class in Hrep as (<- & Hall & ->). auto.
  - intros (Hin & Hall & ->). exists (length w). split; [exact Hin|].
    apply rep_sem_class. auto.
Qed.

Lemma sem_ticker w c c' :
  sem ticker w c c' <-> ticker_word w /\ c' = set_group 1 w c.
Proof.
  unfold ticker, ticker_word. cbn [sem]. fold (sem (Rep (Chr isupper_az) 1 (Some 10))).
  split.
  - intros (c1 & H & ->). apply sem_class_rep in H as ([Hlo Hhi] & Hall & ->). auto.
  - intros ([[Hlo Hhi] Hall] & ->). exists c. split; [|reflexivity].
    apply sem_class_rep. repeat split; assumption.
Qed.

Lemma sem_symbol_url w c c' :
  sem symbol_url_re w c c' <->
  exists g, w = py "/" ++ g ++ py "_" /\ ticker_word g /\ c' = set_group 1 g c.
Proof.
  unfold symbol_url_re. cbn [cat sem]. split.
  - intros (w1 & w23 & c1 & -> & H1 & w2 & w3 & c2 & -> & H2 & H3).
    apply sem_chr in H1 as [-> ->]. apply sem_ticker in H2 as [Hg ->].
    apply sem_chr in H3 as [-> ->]. exists w2. auto.
  - intros (g & -> & Hg & ->).
    exists (py "/"), (g ++ py "_"), c. split; [reflexivity|].
    split; [apply sem_chr; auto|].
    exists g, (py "_"), (set_group 1 g c). split; [reflexivity|].
    split; [apply sem_ticker; auto | apply sem_chr; auto].
Qed.

Lemma sem_symbol_companies w c c' :
  sem symbol_companies_re w c c' <->
  exists g, w = py "/companies/" ++ g /\ ticker_word g /\ c' = set_group 1 g c.
Proof.
  unfold symbol_companies_re. cbn [cat]. cbn [sem]. fold (sem (lit (py "/companies/"))).
  fold (sem ticker). split.
  - intros (w1 & w2 & c1 & -> & H1 & H2).
    apply sem_lit in H1 as [-> ->]. apply sem_ticker in H2 as [Hg ->].
    exists w2. auto.
  - intros (g & -> & Hg & ->).
    exists (py "/companies/"), g, c. split; [reflexivity|].
    split; [apply sem_lit; auto | apply sem_ticker; auto].
Qed.

Lemma sem_symbol_bse w c c' :
  sem symbol_bse_re w c c' <->
  exists sep g,
    w = py "BSE" ++ sep ++ g /\
    1 <= length sep /\ Forall (fun a => colon_or_space a = true) sep /\
    ticker_word g /\ c' = set_group 1 g c.
Proof.
  unfold symbol_bse_re, plus. cbn [cat]. cbn [sem].
  fold (sem (lit (py "BSE"))). fold (sem ticker).
  fold (sem (Rep (Chr colon_or_space) 1 None)). split.
  - intros (w1 & w23 & c1 & -> & H1 & w2 & w3 & c2 & -> & H2 & H3).
    apply sem_lit in H1 as [-> ->].
    apply sem_class_rep in H2 as ([Hlo _] & Hall & ->).
    apply sem_ticker in H3 as [Hg ->].
    exists w2, w3. auto.
  - intros (sep & g & -> & Hlo & Hall & Hg & ->).
    exists (py "BSE"), (sep ++ g), c. split; [reflexivity|].
    split; [apply sem_lit; auto|].
    exists sep, g, c. split; [reflexivity|].
    split; [apply sem_class_rep; repeat split; auto | apply sem_ticker; auto].
Qed.

Lemma class_not_empty (p : ascii -> bool) c c' : ~ sem (Chr p) [] c c'.
Proof. intros (a & H & _). discriminate. Qed.

Lemma productive_ticker : productive ticker.
Proof. simpl. split; [exact I | apply class_not_empty]. Qed.

Lemma productive_lit (l : str) : productive (lit l).
Proof. induction l; simpl; auto. Qed.

Lemma productive_symbol_url : productive symbol_url_re.
Proof.
  unfold symbol_url_re, chr. cbn [cat productive].
  split; [exact I|]. split; [apply productive_ticker | exact I].
Qed.

Lemma productive_symbol_companies : productive symbol_companies_re.
Proof.
  unfold symbol_companies_re. cbn [cat productive].
  split; [apply productive_lit | apply productive_ticker].
Qed.

Lemma productive_symbol_bse : productive symbol_bse_re.
Proof.
  unfold symbol_bse_re. cbn [cat productive].
  split; [apply productive_lit|].
  split; [|apply productive_ticker].
  simpl. split; [exact I | apply class_not_empty].
Qed.

Lemma ticker_word_not_unknown g : ticker_word g -> g <> py "Unknown".
Proof.
  intros [_ Hall] ->.
  apply Forall_cons in Hall as [_ Hall].
  apply Forall_cons in Hall as [Hn _].
  vm_compute in Hn. discriminate.
Qed.

End Patterns.

(** ** Ticker symbol *)

Section Symbol.

Lemma m_group_set (m : match_obj) (i : nat) (g : str) (c : caps) :
  m_caps m = set_group i g c -> group i (m_caps m) = Some g /\ m_group i m = g.
Proof.
  intros H. unfold m_group. rewrite H. simpl. rewrite Nat.eqb_refl. auto.
Qed.

Lemma search_symbol_url (url : str) (m : match_obj) :
  search symbol_url_re url = Some m ->
  exists pre g rest,
    url = pre ++ py "/" ++ g ++ py "_" ++ rest /\
    m_start m = length pre /\ ticker_word g /\
    group 1 (m_caps m) = Some g /\ m_group 1 m = g.
Proof.
  intros H.
  apply (search_found _ _ _ productive_symbol_url) in H
    as (pre & rest & Hs & Hstart & Hsem & _).
  apply sem_symbol_url in Hsem as (g & Hw & Hg & Hc).
  exists pre, g, rest. rewrite Hw in Hs.
  split; [rewrite Hs; rewrite <- !app_assoc; reflexivity|].
  split; [exact Hstart|]. split; [exact Hg|]. apply (m_group_set m 1 g []). exact Hc.
Qed.

Lemma search_symbol_companies (url : str) (m : match_obj) :
  search symbol_companies_re url = Some m ->
  exists pre g rest,
    url = pre ++ py "/companies/" ++ g ++ rest /\
    m_start m = length pre /\ ticker_word g /\
    group 1 (m_caps m) = Some g /\ m_group 1 m = g.
Proof.
  intros H.
  apply (search_found _ _ _ productive_symbol_companies) in H
    as (pre & rest & Hs & Hstart & Hsem & _).
  apply sem_symbol_companies in Hsem as (g & Hw & Hg & Hc).
  exists pre, g, rest. rewrite Hw in Hs.
  split; [rewrite Hs; rewrite <- !app_assoc; reflexivity|].
  split; [exact Hstart|]. split; [exact Hg|]. apply (m_group_set m 1 g []). exact Hc.
Qed.

Lemma search_symbol_bse (text : str) (m : match_obj) :
  search symbol_bse_re text = Some m ->
  exists pre sep g rest,
    text = pre ++ py "BSE" ++ sep ++ g ++ rest /\
    m_start m = length pre /\
    1 <= length sep /\ Forall (fun a => colon_or_space a = true) sep /\
    ticker_word g /\
    group 1 (m_caps m) = Some g /\ m_group 1 m = g.
Proof.
  intros H.
  apply (search_found _ _ _ productive_symbol_bse) in H
    as (pre & rest & Hs & Hstart & Hsem & _).
  apply sem_symbol_bse in Hsem as (sep & g & Hw & Hlen & Hsep & Hg & Hc).
  exists pre, sep, g, rest. rewrite Hw in Hs.
  split; [rewrite Hs; rewrite <- !app_assoc; reflexivity|].
  split; [exact Hstart|]. split; [exact Hlen|]. split; [exact Hsep|].
  split; [exact Hg|]. apply (m_group_set m 1 g []). exact Hc.
Qed.

End Symbol.

(** ** Date of a filing *)

Section Date.

Implicit Types (w y mo d : str) (c : caps).

Lemma sem_digits_group (i n : nat) w c c' :
  sem (Grp i (times n (Chr isdigit))) w c c' <-> digits n w /\ c' = set_group i w c.
Proof.
  unfold times, digits. cbn [sem]. fold (sem (Rep (Chr isdigit) n (Some n))). split.
  - intros (c1 & H & ->). apply sem_class_rep in H as ([Hlo Hhi] & Hall & ->).
    split; [split; [lia | exact Hall] | reflexivity].
  - intros ([Hlen Hall] & ->). exists c. split; [|reflexivity].
    apply sem_class_rep. split; [split; lia | auto].
Qed.

Lemma dash_or_slash_true (a : ascii) :
  dash_or_slash a = true <-> a = "-"%char \/ a = "/"%char.
Proof.
  unfold dash_or_slash. rewrite orb_true_iff, !eqb_char_true.
  split; intros [H | H]; auto.
Qed.

Lemma sem_date_sep w c c' :
  sem (opt (Chr dash_or_slash)) w c c' <-> date_sep w /\ c' = c.
Proof.
  unfold opt, date_sep. rewrite sem_class_rep. split.
  - intros ([_ Hhi] & Hall & ->). split; [|reflexivity].
    destruct w as [|a [|b w]]; simpl in Hhi; [auto | | lia].
    apply Forall_cons in Hall as [Ha _]. apply dash_or_slash_true in Ha as [-> | ->]; auto.
  - intros ([-> | [-> | ->]] & ->); (split; [split; simpl; lia|]);
      (split; [|reflexivity]); repeat constructor.
Qed.

Lemma sem_date_re w c c' :
  sem date_re w c c' <->
  exists y mo d,
    date_run w y mo d /\
    c' = set_group 3 d (set_group 2 mo (set_group 1 y c)).
Proof.
  unfold date_re, date_run. cbn [cat]. cbn [sem].
  fold (sem (Grp 1 (times 4 (Chr isdigit)))).
  fold (sem (Grp 2 (times 2 (Chr isdigit)))).
  fold (sem (Grp 3 (times 2 (Chr isdigit)))).
  fold (sem (opt (Chr dash_or_slash))).
  split.
  - intros (y & w1 & c1 & -> & Hy & s1 & w2 & c2 & -> & Hs1 &
            mo & w3 & c3 & -> & Hmo & s2 & d & c4 & -> & Hs2 & Hd).
    apply sem_digits_group in Hy as [Hy ->].
    apply sem_date_sep in Hs1 as [Hs1 ->].
    apply sem_digits_group in Hmo as [Hmo ->].
    apply sem_date_sep in Hs2 as [Hs2 ->].
    apply sem_digits_group in Hd as [Hd ->].
    exists y, mo, d. split; [|reflexivity]. exists s1, s2. auto 10.
  - intros (y & mo & d & (s1 & s2 & -> & Hy & Hs1 & Hmo & Hs2 & Hd) & ->).
    exists y, (s1 ++ mo ++ s2 ++ d), (set_group 1 y c). split; [reflexivity|].
    split; [apply sem_digits_group; auto|].
    exists s1, (mo ++ s2 ++ d), (set_group 1 y c). split; [reflexivity|].
    split; [apply sem_date_sep; auto|].
    exists mo, (s2 ++ d), (set_group 2 mo (set_group 1 y c)). split; [reflexivity|].
    split; [apply sem_digits_group; auto|].
    exists s2, d, (set_group 2 mo (set_group 1 y c)). split; [reflexivity|].
    split; [apply sem_date_sep; auto | apply sem_digits_group; auto].
Qed.

Lemma productive_date_re : productive date_re.
Proof.
  unfold date_re, times, opt. cbn [cat productive].
  repeat split; try exact I; apply class_not_empty.
Qed.

Lemma isdigit_not_sep (a : ascii) :
  isdigit a = true -> a <> "-"%char /\ a <> "/"%char.
Proof. intros H. split; intros ->; vm_compute in H; discriminate. Qed.

Lemma digits_head (n : nat) w (a : ascii) (rest : str) :
  digits (S n) w -> exists b w', w = b :: w' /\ isdigit b = true /\ digits n w'.
Proof.
  intros [Hlen Hall]. destruct w as [|b w']; [discriminate|].
  injection Hlen as Hlen. apply Forall_cons in Hall as [Hb Hall].
  exists b, w'. repeat split; assumption.
Qed.

Lemma digits_inj (n : nat) w w' (r r' : str) :
  digits n w -> digits n w' -> w ++ r = w' ++ r' -> w = w' /\ r = r'.
Proof.
  intros [H1 _] [H2 _] H. apply app_inj_1; [congruence | exact H].
Qed.

(** After the digits before it, a separator is read the same way by any two
    readings of the same text. *)
Lemma date_sep_inj (n : nat) (s s' w w' r r' : str) :
  date_sep s -> date_sep s' -> digits (S n) w -> digits (S n) w' ->
  s ++ w ++ r = s' ++ w' ++ r' -> s = s' /\ w ++ r = w' ++ r'.
Proof.
  intros Hs Hs' Hw Hw' H.
  destruct (digits_head n w "0"%char [] Hw) as (b & w0 & -> & Hb & _).
  destruct (digits_head n w' "0"%char [] Hw') as (b' & w0' & -> & Hb' & _).
  apply isdigit_not_sep in Hb as [Hb1 Hb2].
  apply isdigit_not_sep in Hb' as [Hb1' Hb2'].
  destruct Hs as [-> | [-> | ->]]; destruct Hs' as [-> | [-> | ->]];
    simpl in H |- *; try (split; [reflexivity | congruence]);
    injection H as H0 H; try congruence.
Qed.

Lemma date_run_unique w w' y y' mo mo' d d' (r r' : str) :
  date_run w y mo d -> date_run w' y' mo' d' -> w ++ r = w' ++ r' ->
  y = y' /\ mo = mo' /\ d = d'.
Proof.
  intros (s1 & s2 & -> & Hy & Hs1 & Hmo & Hs2 & Hd)
         (s1' & s2' & -> & Hy' & Hs1' & Hmo' & Hs2' & Hd') H.
  rewrite <- !app_assoc in H.
  apply (digits_inj 4 _ _ _ _ Hy Hy') in H as [-> H].
  apply (date_sep_inj 1 _ _ _ _ _ _ Hs1 Hs1' Hmo Hmo') in H as [-> H].
  apply (digits_inj 2 _ _ _ _ Hmo Hmo') in H as [-> H].
  apply (date_sep_inj 1 _ _ _ _ _ _ Hs2 Hs2' Hd Hd') in H as [-> H].
  apply (digits_inj 2 _ _ _ _ Hd Hd') in H as [-> H].
  auto.
Qed.

Lemma matches_after_date (url pre : str) :
  matches_after date_re url pre <->
  exists w rest y mo d, url = pre ++ w ++ rest /\ date_run w y mo d.
Proof.
  unfold matches_after. split.
  - intros (w & rest & c' & Hs & Hsem).
    apply sem_date_re in Hsem as (y & mo & d & Hrun & _).
    exists w, rest, y, mo, d. auto.
  - intros (w & rest & y & mo & d & Hs & Hrun).
    exists w, rest, (set_group 3 d (set_group 2 mo (set_group 1 y []))).
    split; [exact Hs|]. apply sem_date_re. exists y, mo, d. auto.
Qed.

Lemma search_date (url : str) (m : match_obj) :
  search date_re url = Some m ->
  exists pre w rest y mo d,
    url = pre ++ w ++ rest /\ m_start m = length pre /\ m_whole m = w /\
    date_run w y mo d /\
    m_group 1 m = y /\ m_group 2 m = mo /\ m_group 3 m = d /\
    (forall pre', matches_after date_re url pre' -> length pre <= length pre').
Proof.
  intros H.
  apply (search_found _ _ _ productive_date_re) in H
    as (pre & rest & Hs & Hstart & Hsem & Hleft).
  apply sem_date_re in Hsem as (y & mo & d & Hrun & Hc).
  exists pre, (m_whole m), rest, y, mo, d.
  unfold m_group. rewrite Hc. simpl. auto 10.
Qed.

Lemma extract_date_found (url : str) (m : match_obj) :
  search date_re url = Some m ->
  extract_date_from_url url =
  Ret (format_date (m_group 1 m) (m_group 2 m) (m_group 3 m)).
Proof. intros H. unfold extract_date_from_url. rewrite H. reflexivity. Qed.

Lemma extract_date_leftmost (url pre w rest y mo d : str) :
  url = pre ++ w ++ rest -> date_run w y mo d ->
  (forall pre', has_date_at url pre' -> length pre <= length pre') ->
  extract_date_from_url url = Ret (format_date y mo d).
Proof.
  intros Hurl Hrun Hleft.
  assert (Hhere : has_date_at url pre) by (exists w, rest, y, mo, d; auto).
  assert (Hocc : occurs date_re url).
  { exists pre. apply matches_after_date. exact Hhere. }
  apply (search_some_iff _ _ productive_date_re) in Hocc as [m Hm].
  rewrite (extract_date_found url m Hm).
  apply search_date in Hm
    as (pre0 & w0 & rest0 & y0 & mo0 & d0 & Hurl0 & _ & _ & Hrun0 & -> & -> & -> & Hleft0).
  assert (Hlen : length pre0 = length pre).
  { apply Nat.le_antisymm.
    - apply Hleft0. apply matches_after_date. exact Hhere.
    - apply Hleft. exists w0, rest0, y0, mo0, d0. auto. }
  rewrite Hurl in Hurl0.
  apply app_inj_1 in Hurl0 as [_ Hw]; [|congruence].
  destruct (date_run_unique _ _ _ _ _ _ _ _ _ _ Hrun Hrun0 Hw) as (-> & -> & ->).
  reflexivity.
Qed.

Lemma has_date_occurs (url : str) :
  (exists pre, has_date_at url pre) <-> occurs date_re url.
Proof.
  unfold occurs. split; intros [pre H]; exists pre; apply matches_after_date; exact H.
Qed.

Lemma has_date_search (url : str) :
  (exists pre, has_date_at url pre) <-> exists m, search date_re url = Some m.
Proof.
  rewrite has_date_occurs. symmetry. apply search_some_iff. exact productive_date_re.
Qed.

Lemma extract_date_clock (url : str) :
  extract_date_from_url url = act (TodayStrftime (py "%Y-%m-%d")) <->
  ~ exists pre, has_date_at url pre.
Proof.
  rewrite has_date_occurs, <- (search_none_iff _ _ productive_date_re).
  unfold extract_date_from_url.
  destruct (search date_re url) as [m|]; split; try discriminate; reflexivity.
Qed.

(** C10. A date is four, two and two digits with or without a [-] or [/]
    between neighbours, and nothing else is checked.  When a date starts in
    the URL and none starts further left, the result is its digits as
    "YYYY-MM-DD" and the clock is not read; a successful search reports the
    leftmost date of the URL; ["99999999"] gives ["9999-99-99"]; the clock is
    read exactly when no date occurs in the URL. *)
Theorem extract_date_from_url_first_match (url : str) :
  (forall pre w rest y mo d : str,
      url = pre ++ w ++ rest -> date_run w y mo d ->
      (forall pre', has_date_at url pre' -> length pre <= length pre') ->
      extract_date_from_url url = Ret (y ++ py "-" ++ mo ++ py "-" ++ d)) /\
  (forall m, search date_re url = Some m ->
     exists pre w rest y mo d,
       url = pre ++ w ++ rest /\ m_start m = length pre /\ date_run w y mo d /\
       (forall pre', has_date_at url pre' -> length pre <= length pre') /\
       extract_date_from_url url = Ret (y ++ py "-" ++ mo ++ py "-" ++ d)) /\
  ((exists pre, has_date_at url pre) <-> exists m, search date_re url = Some m) /\
  (extract_date_from_url url = act (TodayStrftime (py "%Y-%m-%d")) <->
   ~ exists pre, has_date_at url pre) /\
  extract_date_from_url (py "99999999") = Ret (py "9999-99-99").
Proof.
  split; [intros pre w rest y mo d; apply extract_date_leftmost|].
  split.
  { intros m Hm. pose proof (extract_date_found url m Hm) as Hres.
    apply search_date in Hm
      as (pre & w & rest & y & mo & d & Hurl & Hstart & _ & Hrun & <- & <- & <- & Hleft).
    exists pre, w, rest, (m_group 1 m), (m_group 2 m), (m_group 3 m).
    repeat split; try assumption.
    intros pre' H. apply Hleft. apply matches_after_date. exact H. }
  split; [apply has_date_search|].
  split; [apply extract_date_clock | reflexivity].
Qed.

End Date.

(** ** Runs *)

Section Runs.

Lemma run_runs {W A : Type} (h : handler W) (p : prog A) (w : W) :
  runs p (trace h p w) (result h p w).
Proof.
  unfold trace, result. revert w. induction p as [a|e k IH]; intros w; simpl.
  - auto.
  - destruct (h e w) as [r w1] eqn:E. specialize (IH r w1).
    destruct (run h (k r) w1) as [[a w2] tr]. simpl in *.
    exists r, tr. auto.
Qed.

Lemma runs_bind {A B : Type} (p : prog A) (f : A -> prog B) (tr : list entry) (b : B) :
  runs (bind p f) tr b <->
  exists a t1 t2, tr = t1 ++ t2 /\ runs p t1 a /\ runs (f a) t2 b.
Proof.
  revert tr. induction p as [a|e k IH]; intros tr; simpl.
  - split.
    + intros H. exists a, [], tr. auto.
    + intros (a' & t1 & t2 & -> & [-> ->] & H). exact H.
  - split.
    + intros (r & tr' & -> & H). apply IH in H as (a & t1 & t2 & -> & H1 & H2).
      exists a, (said e r :: t1), t2. split; [reflexivity|]. split; [|exact H2].
      exists r, t1. auto.
    + intros (a & t1 & t2 & -> & (r & t1' & -> & H1) & H2).
      exists r, (t1' ++ t2). split; [reflexivity|]. apply IH.
      exists a, t1', t2. auto.
Qed.

Lemma runs_act (e : event) (tr : list entry) (r : reply e) :
  runs (act e) tr r <-> tr = [said e r].
Proof.
  unfold act. simpl. split.
  - intros (r' & tr' & -> & -> & ->). reflexivity.
  - intros ->. exists r, []. auto.
Qed.

Lemma runs_bind_exn {A B : Type} (p : raising A) (f : A -> raising B)
    (tr : list entry) (b : exn + B) :
  runs (bind_exn p f) tr b <->
  (exists e, runs p tr (inl e) /\ b = inl e) \/
  (exists a t1 t2, tr = t1 ++ t2 /\ runs p t1 (inr a) /\ runs (f a) t2 b).
Proof.
  unfold bind_exn. rewrite runs_bind. split.
  - intros ([e|a] & t1 & t2 & -> & H1 & H2).
    + left. destruct H2 as [-> ->]. rewrite app_nil_r. eauto.
    + right. exists a, t1, t2. auto.
  - intros [(e & H & ->) | (a & t1 & t2 & -> & H1 & H2)].
    + exists (inl e), tr, []. rewrite app_nil_r. simpl. auto.
    + exists (inr a), t1, t2. auto.
Qed.

Lemma runs_try_except {A : Type} (p : raising A) (f : exn -> A)
    (tr : list entry) (a : A) :
  runs (try_except p (fun e => Ret (f e))) tr a <->
  exists r, runs p tr r /\ a = match r with inl e => f e | inr v => v end.
Proof.
  unfold try_except. rewrite runs_bind. split.
  - intros (r & t1 & t2 & -> & H1 & H2). exists r.
    destruct r as [e|v]; destruct H2 as [-> ->]; rewrite app_nil_r; auto.
  - intros (r & H & ->). exists r, tr, []. rewrite app_nil_r.
    destruct r; simpl; auto.
Qed.

End Runs.

(** ** Text fetcher *)

Section Fetcher.

Lemma read_pages_runs (pages : list nat) :
  forall (text : str) (tr : list entry) (r : exn + str),
    runs (read_pages pages text) tr r ->
    Forall (fun x => is_pdf_event (event_of x) = true) tr.
Proof.
  induction pages as [|i pages IH]; intros text tr r H.
  - destruct H as [-> _]. constructor.
  - cbn [read_pages] in H.
    apply runs_bind_exn in H as [(e & H & _) | (t & t1 & t2 & -> & H1 & H2)].
    + apply runs_act in H as ->. repeat constructor.
    + apply runs_act in H1 as ->. constructor; [reflexivity|].
      apply (IH _ _ _ H2).
Qed.

Lemma fetch_pdf_runs (url : str) (tr : list entry) (r : exn + str) :
  runs (fetch_pdf url) tr r ->
  pdf_branch url tr /\
  match r with
  | inl _ => True
  | inr text => short_or_error text
  end.
Proof.
  unfold fetch_pdf, pdf_branch. intros H.
  apply runs_bind_exn in H as [(e & H & ->) | (resp & t1 & t2 & -> & H1 & H)].
  { apply runs_act in H as ->. split; [|exact I].
    exists (inl e), []. repeat split. constructor. }
  apply runs_act in H1 as ->.
  assert (Hgoal :
    (exists r1 tr'', t2 = said (WriteFile (py "temp.pdf") (resp_content resp)) r1 :: tr'') /\
    Forall (fun x => is_pdf_event (event_of x) = true) t2 /\
    match r with inl _ => True | inr text => short_or_error text end).
  { apply runs_bind_exn in H as [(e & H & ->) | (u & t1 & t3 & -> & H1 & H)].
    { apply runs_act in H as ->. repeat split; [eauto | repeat constructor]. }
    apply runs_act in H1 as ->.
    split; [eauto|].
    apply runs_bind_exn in H as [(e & H & ->) | (n & t1 & t4 & -> & H1 & H)].
    { apply runs_act in H as ->. split; [repeat constructor | exact I]. }
    apply runs_act in H1 as ->.
    apply runs_bind_exn in H as [(e & H & ->) | (text & t5 & t6 & -> & H1 & H)].
    { apply read_pages_runs in H. split; [|exact I]. repeat constructor. exact H. }
    apply read_pages_runs in H1.
    apply runs_bind_exn in H as [(e & H & ->) | (u' & t1 & t7 & -> & H2 & H)].
    { apply runs_act in H as ->. split; [|exact I].
      repeat (constructor; [reflexivity|]). apply Forall_app. split; [exact H1|].
      repeat constructor. }
    apply runs_act in H2 as ->. destruct H as [-> ->].
    split.
    { repeat (constructor; [reflexivity|]). apply Forall_app. split; [exact H1|].
      repeat constructor. }
    destruct text as [|a text].
    - right. exists (py ": No text found in PDF"). reflexivity.
    - left. apply slice_to_length. }
  destruct Hgoal as (Hw & Hall & Hr). split; [|exact Hr].
  exists (inr resp), t2. auto.
Qed.

Lemma fetch_html_runs (url : str) (tr : list entry) (r : exn + str) :
  runs (fetch_html url) tr r ->
  html_branch url tr /\
  match r with
  | inl _ => True
  | inr text => length text <= 4000
  end.
Proof.
  unfold fetch_html, html_branch. intros H.
  apply runs_bind_exn in H as [(e & H & ->) | (res & t1 & t2 & -> & H1 & H)].
  { apply runs_act in H as ->. split; [|exact I]. exists (inl e), []. auto. }
  apply runs_act in H1 as ->.
  apply runs_bind_exn in H as [(e & H & ->) | (text & t1 & t3 & -> & H1 & H)].
  { apply runs_act in H as ->. split; [|exact I].
    exists (inr res), [said (SoupGetText (resp_text res)) (inl e)]. eauto. }
  apply runs_act in H1 as ->. destruct H as [-> ->].
  split; [|apply slice_to_length].
  exists (inr res), [said (SoupGetText (resp_text res)) (inr text)]. eauto.
Qed.

Lemma fetch_error_starts (url : str) (e : exn) : short_or_error (fetch_error url e).
Proof.
  right. exists (py " fetching " ++ url ++ py ": " ++ exn_str e). reflexivity.
Qed.

Lemma fetch_clean_text_runs (url : str) (tr : list entry) (text : str) :
  runs (fetch_clean_text url) tr text ->
  short_or_error text /\
  ((exists pre, lower url = pre ++ py ".pdf") -> pdf_branch url tr) /\
  (~ (exists pre, lower url = pre ++ py ".pdf") -> html_branch url tr).
Proof.
  unfold fetch_clean_text. intros H.
  apply (runs_try_except _ (fetch_error url)) in H as (r & H & ->).
  destruct (endswith (py ".pdf") (lower url)) eqn:E.
  - apply fetch_pdf_runs in H as [Hb Hr].
    split; [destruct r; [apply fetch_error_starts | exact Hr]|].
    split; [intros _; exact Hb|].
    intros Hno. exfalso. apply Hno. apply endswith_spec. exact E.
  - apply fetch_html_runs in H as [Hb Hr].
    split; [destruct r; [apply fetch_error_starts | left; exact Hr]|].
    split; [|intros _; exact Hb].
    intros Hyes. apply endswith_spec in Hyes. congruence.
Qed.

(** C1. In every world, [fetch_clean_text] returns a text of at most 4000
    characters or a string that begins with "Error"; when the lowercased URL
    ends with ".pdf" it is the PDF branch that runs (download, then the
    write of the temporary file and PDF events only), otherwise the HTML
    branch (download, then the text extraction of the page). *)
Theorem fetch_clean_text_branches {W : Type} (h : handler W) (w : W) (url : str) :
  let text := result h (fetch_clean_text url) w in
  let tr := trace h (fetch_clean_text url) w in
  (length text <= 4000 \/ exists rest, text = py "Error" ++ rest) /\
  ((exists pre, lower url = pre ++ py ".pdf") ->
     fetch_clean_text url = try_except (fetch_pdf url) (fun e => Ret (fetch_error url e)) /\
     pdf_branch url tr) /\
  (~ (exists pre, lower url = pre ++ py ".pdf") ->
     fetch_clean_text url = try_except (fetch_html url) (fun e => Ret (fetch_error url e)) /\
     html_branch url tr).
Proof.
  intros text tr.
  destruct (fetch_clean_text_runs url tr text (run_runs h _ w)) as (H1 & H2 & H3).
  split; [exact H1|]. split.
  - intros Hpdf. split; [|apply H2; exact Hpdf].
    apply endswith_spec in Hpdf. unfold fetch_clean_text. rewrite Hpdf. reflexivity.
  - intros Hno. split; [|apply H3; exact Hno].
    unfold fetch_clean_text.
    destruct (endswith (py ".pdf") (lower url)) eqn:E; [|reflexivity].
    exfalso. apply Hno. apply endswith_spec. exact E.
Qed.

End Fetcher.

(** ** Summarizer *)

Section Summarizer.

(** C7. In every world, [generate_2l_format] logs exactly one event, the
    chat completion call for model gpt-4o with one user message, the fixed
    prompt around the text; the result is the content the call returned,
    unchanged, or "Error: " followed by the text of the exception the call
    raised. *)
Theorem generate_2l_format_single_call {W : Type} (h : handler W) (w : W) (text : str) :
  let req := ChatRequest (py "gpt-4o") [(py "user", prompt_head ++ text ++ prompt_tail)] 4 in
  let r := (h (ChatCompletionCreate req) w).1 in
  trace h (generate_2l_format text) w = [said (ChatCompletionCreate req) r] /\
  result h (generate_2l_format text) w =
    match r with
    | inr content => content
    | inl e => py "Error: " ++ exn_str e
    end.
Proof.
  intros req r. subst r. change req with (chat_request_of text). clear req.
  unfold trace, result, generate_2l_format, try_except, act. cbn [bind run].
  destruct (h (ChatCompletionCreate (chat_request_of text)) w) as [[e|content] w1];
    cbn [bind run fst snd]; auto.
Qed.

End Summarizer.

(** ** Orchestrator *)

Section Orchestrator.

Lemma run_bind {W A B : Type} (h : handler W) (p : prog A) (f : A -> prog B) (w : W) :
  run h (bind p f) w =
  let '(a, w1, t1) := run h p w in
  let '(b, w2, t2) := run h (f a) w1 in
  (b, w2, t1 ++ t2).
Proof.
  revert w. induction p as [a|e k IH]; intros w; simpl.
  - destruct (run h (f a) w) as [[b w2] t2]. reflexivity.
  - destruct (h e w) as [r w1]. rewrite IH.
    destruct (run h (k r) w1) as [[a w2] t1].
    destruct (run h (f a) w2) as [[b w3] t2]. reflexivity.
Qed.

Lemma generate_2l_format_runs (text : str) (tr : list entry) (out : str) :
  runs (generate_2l_format text) tr out ->
  exists r : exn + str,
    tr = [said (ChatCompletionCreate (chat_request_of text)) r] /\ out = summary_of r.
Proof.
  unfold generate_2l_format. intros H.
  apply (runs_try_except _ (fun e => py "Error: " ++ exn_str e)) in H as (r & H & ->).
  apply runs_act in H as ->. exists r. destruct r; auto.
Qed.

Lemma process_row_runs (total i : nat) (link : str) (out : list row)
    (tr : list entry) (out' : list row) :
  runs (process_row total i link out) tr out' ->
  exists u tr_fetch text tr_rest,
    tr = said (StatusText (status_message total i link)) u :: tr_fetch ++ tr_rest /\
    runs (fetch_clean_text link) tr_fetch text /\
    (startswith (py "Error") text = true ->
       tr_rest = [] /\ out' = out ++ [placeholder_row link]) /\
    (startswith (py "Error") text = false ->
       exists tr_date date r,
         runs (extract_date_from_url link) tr_date date /\
         tr_rest = tr_date ++ [said (ChatCompletionCreate (chat_request_of text)) r;
                               said (Progress (i + 1) total) tt;
                               said (Sleep 12) tt] /\
         out' = out ++ [filled_row link text date r]).
Proof.
  unfold process_row. intros H.
  apply runs_bind in H as (u & t0 & t1 & -> & H0 & H).
  apply runs_act in H0 as ->.
  apply runs_bind in H as (text & tr_fetch & tr_rest & -> & Hfetch & H).
  exists u, tr_fetch, text, tr_rest.
  split; [reflexivity|]. split; [exact Hfetch|].
  destruct (startswith (py "Error") text).
  - destruct H as [-> ->]. split; [auto | discriminate].
  - split; [discriminate|]. intros _.
    apply runs_bind in H as (date & tr_date & t2 & -> & Hdate & H).
    apply runs_bind in H as (gpt & t3 & t4 & -> & Hgen & H).
    apply generate_2l_format_runs in Hgen as (r & -> & ->).
    apply runs_bind in H as ([] & t5 & t6 & -> & H5 & H).
    apply runs_act in H5 as ->.
    apply runs_bind in H as ([] & t7 & t8 & -> & H7 & H).
    apply runs_act in H7 as ->. destruct H as [-> ->].
    exists tr_date, date, r. auto.
Qed.

Lemma process_row_appends (total i : nat) (link : str) (out : list row)
    (tr : list entry) (out' : list row) :
  runs (process_row total i link out) tr out' ->
  exists r : row, out' = out ++ [r] /\ head r = Some link.
Proof.
  intros H.
  apply process_row_runs in H as (u & tr_fetch & text & tr_rest & _ & _ & Herr & Hok).
  destruct (startswith (py "Error") text).
  - destruct (Herr eq_refl) as [_ ->]. exists (placeholder_row link). auto.
  - destruct (Hok eq_refl) as (tr_date & date & r & _ & _ & ->).
    exists (filled_row link text date r). auto.
Qed.

Lemma extraction_loop_runs (total : nat) (links : list str) :
  forall (i : nat) (out : list row) (tr : list entry) (out' : list row),
    runs (extraction_loop total i links out) tr out' ->
    exists rows : list row,
      out' = out ++ rows /\ length rows = length links /\
      head <$> rows = Some <$> links.
Proof.
  induction links as [|link links IH]; intros i out tr out' H.
  - destruct H as [_ ->]. exists []. rewrite app_nil_r. auto.
  - cbn [extraction_loop] in H.
    apply runs_bind in H as (out1 & t1 & t2 & -> & H1 & H2).
    apply process_row_appends in H1 as (r & -> & Hr).
    apply IH in H2 as (rows & -> & Hlen & Hheads).
    exists (r :: rows). rewrite <- app_assoc. split; [reflexivity|].
    split; [simpl; lia|]. rewrite !fmap_cons, Hr, Hheads. reflexivity.
Qed.

(** C3. In every world, the rows collected by the loop are as many as the
    links, in the order of the links, and each row starts with its link,
    the rows of failed fetches included. *)
Theorem run_extraction_one_row_per_link {W : Type} (h : handler W) (w : W)
    (links : list str) :
  let output_data := result h (run_extraction links) w in
  length output_data = length links /\
  head <$> output_data = Some <$> links /\
  (forall (n : nat) (link : str),
      links !! n = Some link ->
      exists r : row, output_data !! n = Some r /\ r !! 0 = Some link).
Proof.
  intros output_data.
  destruct (extraction_loop_runs _ links 0 [] _ _ (run_runs h (run_extraction links) w))
    as (rows & Hout & Hlen & Hheads).
  fold output_data in Hout. simpl in Hout. subst rows. clearbody output_data.
  split; [exact Hlen|]. split; [exact Hheads|].
  intros n link Hn.
  assert (Hl : (head <$> output_data) !! n = Some (Some link)).
  { rewrite Hheads, list_lookup_fmap, Hn. reflexivity. }
  rewrite list_lookup_fmap in Hl.
  apply fmap_Some in Hl as (r & Hr & Hhead).
  exists r. split; [exact Hr|].
  destruct r; simpl in Hhead |- *; congruence.
Qed.

Lemma detect_announcement_type_not_error (text : str) :
  detect_announcement_type text <> py "Error".
Proof.
  unfold detect_announcement_type, announcement_keywords.
  cbn [detect_announcement_loop].
  repeat match goal with
         | |- context [if ?b then _ else _] => destruct b; [cbv; discriminate|]
         end.
  cbv. discriminate.
Qed.

Lemma filled_row_not_placeholder (link text date : str) (r : exn + str) :
  filled_row link text date r <> placeholder_row link.
Proof.
  unfold filled_row, placeholder_row. intros H.
  injection H as _ _ _ _ H _.
  apply (detect_announcement_type_not_error text). exact H.
Qed.

Lemma serving_fetch_html (page summary today link : str) :
  endswith (py ".pdf") (lower link) = false ->
  run (serving page summary today) (fetch_clean_text link) tt =
  (slice_to 4000 page, tt,
   [said (RequestsGet link 10) (inr (Response page page));
    said (SoupGetText page) (inr page)]).
Proof.
  intros H. unfold fetch_clean_text. rewrite H. reflexivity.
Qed.

Lemma serving_failed_row (page summary today link : str) (total i : nat) (out : list row) :
  endswith (py ".pdf") (lower link) = false ->
  startswith (py "Error") (slice_to 4000 page) = true ->
  run (serving page summary today) (process_row total i link out) tt =
  (out ++ [placeholder_row link], tt,
   [said (StatusText (status_message total i link)) tt;
    said (RequestsGet link 10) (inr (Response page page));
    said (SoupGetText page) (inr page)]).
Proof.
  intros Hhtml Herr. unfold process_row.
  rewrite run_bind. cbn [run act serving].
  rewrite run_bind, (serving_fetch_html _ _ _ _ Hhtml). rewrite Herr.
  reflexivity.
Qed.

Lemma serving_empty_row (summary today link : str) (total i : nat) (out : list row) :
  endswith (py ".pdf") (lower link) = false ->
  exists tr_date,
    run (serving [] summary today) (process_row total i link out) tt =
    (out ++ [filled_row link []
               (result (serving [] summary today) (extract_date_from_url link) tt)
               (inr summary)], tt,
     [said (StatusText (status_message total i link)) tt;
      said (RequestsGet link 10) (inr (Response [] []));
      said (SoupGetText []) (inr [])] ++ tr_date ++
     [said (ChatCompletionCreate (chat_request_of [])) (inr summary);
      said (Progress (i + 1) total) tt;
      said (Sleep 12) tt]).
Proof.
  intros Hhtml. unfold process_row.
  rewrite run_bind. cbn [run act serving].
  rewrite run_bind, (serving_fetch_html _ _ _ _ Hhtml).
  change (startswith (py "Error") (slice_to 4000 [])) with false. cbv iota.
  rewrite run_bind. unfold result.
  destruct (run (serving [] summary today) (extract_date_from_url link) tt)
    as [[date []] tr_date].
  exists tr_date. reflexivity.
Qed.

(** C9. In every world, the log of one round of the loop is the status
    message, the log of the fetch and a rest.  When the fetched text starts
    with "Error", the rest is empty (no metadata is extracted, the clock is
    not read and the language model is not called) and the fixed row of
    failures is appended; otherwise the date is extracted, the language
    model is called once with the fetched text and a row that differs from
    the row of failures is appended.  So a page that was fetched and whose
    text begins with "Error" gets the row of failures without a call of the
    language model, and a page with no text at all is summarized. *)
Theorem process_row_error_classification {W : Type} (h : handler W) (w : W)
    (total i : nat) (link : str) (out : list row) :
  let tr := trace h (process_row total i link out) w in
  let out' := result h (process_row total i link out) w in
  placeholder_row link =
    [link; py "Unknown"; py "Unknown"; py "Unknown"; py "Error"; py "Error";
     py "Error"; py "Error"; py "Error"; py "Error"; py "Error"; py "Error"] /\
  (exists u tr_fetch text tr_rest,
      tr = said (StatusText (status_message total i link)) u :: tr_fetch ++ tr_rest /\
      runs (fetch_clean_text link) tr_fetch text /\
      (startswith (py "Error") text = true ->
         tr_rest = [] /\ out' = out ++ [placeholder_row link]) /\
      (startswith (py "Error") text = false ->
         exists tr_date date r,
           runs (extract_date_from_url link) tr_date date /\
           tr_rest = tr_date ++ [said (ChatCompletionCreate (chat_request_of text)) r;
                                 said (Progress (i + 1) total) tt;
                                 said (Sleep 12) tt] /\
           out' = out ++ [filled_row link text date r] /\
           filled_row link text date r <> placeholder_row link)) /\
  (forall page summary today : str,
      endswith (py ".pdf") (lower link) = false ->
      startswith (py "Error") (slice_to 4000 page) = true ->
      result (serving page summary today) (process_row total i link out) tt =
        out ++ [placeholder_row link] /\
      no_llm_call (trace (serving page summary today) (process_row total i link out) tt)) /\
  (forall summary today : str,
      endswith (py ".pdf") (lower link) = false ->
      said (ChatCompletionCreate (chat_request_of [])) (inr summary)
        ∈ trace (serving [] summary today) (process_row total i link out) tt /\
      result (serving [] summary today) (process_row total i link out) tt =
        out ++ [filled_row link []
                  (result (serving [] summary today) (extract_date_from_url link) tt)
                  (inr summary)]).
Proof.
  intros tr out'. split; [reflexivity|]. split.
  { destruct (process_row_runs total i link out tr out' (run_runs h _ w))
      as (u & tr_fetch & text & tr_rest & Htr & Hfetch & Herr & Hok).
    exists u, tr_fetch, text, tr_rest.
    split; [exact Htr|]. split; [exact Hfetch|]. split; [exact Herr|].
    intros Hs. destruct (Hok Hs) as (tr_date & date & r & H1 & H2 & H3).
    exists tr_date, date, r.
    auto using filled_row_not_placeholder. }
  split.
  { intros page summary today Hhtml Herr. unfold result, trace, no_llm_call.
    rewrite (serving_failed_row _ _ _ _ _ _ _ Hhtml Herr). simpl.
    split; [reflexivity | repeat constructor]. }
  intros summary today Hhtml. unfold trace.
  destruct (serving_empty_row summary today link total i out Hhtml) as [tr_date Hrun].
  unfold result at 1. rewrite Hrun. simpl. split; [|reflexivity].
  do 3 right. apply elem_of_app. right. left.
Qed.

End Orchestrator.

(** ** Purity of the metadata extractors *)

Section Purity.

Lemma ret_ambient_free {A : Type} (a : A) : ambient_free (Ret a).
Proof. intros W1 W2 h1 h2 w1 w2. reflexivity. Qed.

Lemma date_known_no_clock (url : str) :
  (exists pre, has_date_at url pre) -> exists date, extract_date_from_url url = Ret date.
Proof.
  intros H. apply has_date_search in H as [m Hm].
  rewrite (extract_date_found url m Hm). eauto.
Qed.

(** The claim that all five extractors are pure fails for the date: a URL
    without a date gives the date of the day of the call. *)
Lemma extract_date_from_url_reads_clock :
  ~ ambient_free (extract_date_from_url (py "https://example.com/filing")).
Proof.
  intros H.
  specialize (H unit unit (refusing (py "2026-11-04")) (refusing (py "2026-11-05")) tt tt).
  vm_compute in H. discriminate.
Qed.

(** C4 as amended. The extractors of the company, the sector, the symbol
    and the announcement type give a result that depends on their string
    arguments only; the date extractor does so on the URLs in which a date
    occurs, and on every other URL it returns what the clock says at the
    time of the call. *)
Theorem metadata_extractors_purity :
  (forall text, ambient_free (Ret (extract_company text))) /\
  (forall text, ambient_free (Ret (guess_sector text))) /\
  (forall url text, ambient_free (Ret (extract_symbol url text))) /\
  (forall text, ambient_free (Ret (detect_announcement_type text))) /\
  (forall url, (exists pre, has_date_at url pre) ->
               ambient_free (extract_date_from_url url)) /\
  (forall url, ~ (exists pre, has_date_at url pre) ->
     forall (W : Type) (h : handler W) (w : W),
       result h (extract_date_from_url url) w = (h (TodayStrftime (py "%Y-%m-%d")) w).1).
Proof.
  repeat (split; [intros; apply ret_ambient_free|]).
  split.
  - intros url H. destruct (date_known_no_clock url H) as [date ->].
    apply ret_ambient_free.
  - intros url H W h w.
    apply extract_date_clock in H.
    rewrite H. unfold result, act. cbn [run].
    destruct (h _ w). reflexivity.
Qed.

End Purity.

(** ** The theorems at work on concrete inputs *)

Section Instances.

(** A link in capitals that ends in ".PDF" takes the PDF branch. *)
Lemma fetch_clean_text_branches_witness :
  pdf_branch (py "https://example.com/q1.PDF")
    (trace (serving (py "Revenue up") (py "1. ok") (py "2026-11-04"))
       (fetch_clean_text (py "https://example.com/q1.PDF")) tt).
Proof.
  apply (fetch_clean_text_branches
           (serving (py "Revenue up") (py "1. ok") (py "2026-11-04")) tt
           (py "https://example.com/q1.PDF")).
  exists (py "https://example.com/q1"). reflexivity.
Defined.

(** An indented second line sets the second field. *)
Lemma parse_2l_prefix_matching_witness :
  parse_2l_line (replicate 6 []) (py " 2. Revenue up 12% ") =
  <[1 := py "Revenue up 12%"]> (replicate 6 []).
Proof.
  apply (proj1 (proj2 (parse_2l_prefix_matching (py "1. a")))
           (replicate 6 []) (py " 2. Revenue up 12% ") (py " Revenue up 12%") 1).
  - lia.
  - reflexivity.
  - exists (py "2"). split; [reflexivity|].
    apply not_elem_of_cons. split; [discriminate | apply not_elem_of_nil].
Defined.

(** The second of two links gets the second row. *)
Lemma run_extraction_one_row_per_link_witness :
  exists r : row,
    result (refusing (py "2026-11-04"))
      (run_extraction [py "https://a.example/x"; py "https://b.example/y.pdf"]) tt
      !! 1 = Some r /\
    r !! 0 = Some (py "https://b.example/y.pdf").
Proof.
  apply (proj2 (proj2 (run_extraction_one_row_per_link (refusing (py "2026-11-04")) tt
           [py "https://a.example/x"; py "https://b.example/y.pdf"])) 1).
  reflexivity.
Defined.

(** A URL with a date in it gives the same date in every world. *)
Lemma metadata_extractors_purity_witness :
  ambient_free (extract_date_from_url (py "20240115/filing.pdf")).
Proof.
  apply (proj1 (proj2 (proj2 (proj2 (proj2 metadata_extractors_purity))))
           (py "20240115/filing.pdf")).
  exists [], (py "20240115"), (py "/filing.pdf"), (py "2024"), (py "01"), (py "15").
  split; [reflexivity|].
  exists [], []. split; [reflexivity|].
  unfold digits, date_sep.
  repeat split; auto; repeat constructor.
Defined.

(** "Bank" is the first keyword that occurs in this text. *)
Lemma guess_sector_first_keyword_witness :
  guess_sector (py "State Bank software") = py "Financials".
Proof.
  apply (proj1 (proj2 (guess_sector_first_keyword (py "State Bank software")))
           2 (py "Bank") (py "Financials")).
  - reflexivity.
  - exists (py "state "), (py " software"). reflexivity.
  - intros j k' v' Hj Hlook.
    destruct j as [|[|j]]; [| |lia]; injection Hlook as <- <-;
      apply contains_not_occurs; reflexivity.
Defined.

(** Of two lines for the first field, the later one gives the field. *)
Lemma parse_2l_six_fields_last_wins_witness :
  parse_2l (py "1. a
1. b") !! 0 = Some (py "b").
Proof.
  apply (proj1 (proj2 (proj2 (parse_2l_six_fields_last_wins (py "1. a
1. b"))))
           0 [py "1. a"] [] (py "1. b") (py " b")).
  - lia.
  - reflexivity.
  - reflexivity.
  - intros l Hl. inversion Hl.
Defined.

(** A page that says "Error 404" is fetched and gets the row of failures. *)
Lemma process_row_error_classification_witness :
  result (serving (py "Error 404") (py "1. ok") (py "2026-11-04"))
    (process_row 1 0 (py "https://example.com/a") []) tt =
  [placeholder_row (py "https://example.com/a")].
Proof.
  apply (proj1 (proj2 (proj2 (process_row_error_classification
                               (refusing (py "2026-11-04")) tt
                               1 0 (py "https://example.com/a") [])))
           (py "Error 404") (py "1. ok") (py "2026-11-04")); reflexivity.
Defined.

(** A date at the head of the URL, written without separators. *)
Lemma extract_date_from_url_first_match_witness :
  extract_date_from_url (py "20240115/filing.pdf") = Ret (py "2024-01-15").
Proof.
  apply (proj1 (extract_date_from_url_first_match (py "20240115/filing.pdf"))
           [] (py "20240115") (py "/filing.pdf") (py "2024") (py "01") (py "15")).
  - reflexivity.
  - exists [], []. split; [reflexivity|].
    unfold digits, date_sep.
    repeat split; auto; repeat constructor.
  - intros pre' _. simpl. lia.
Defined.

End Instances.

(** ** The embedding evaluated *)

Section Evaluation.

Example parse_2l_numbered :
  parse_2l (py "1. Order win
 2.  Revenue +12%
note
6. Good")
  = [py "Order win"; py "Revenue +12%"; []; []; []; py "Good"].
Proof. vm_compute. reflexivity. Qed.

Example extract_company_limited :
  extract_company (py "results of Tata Steel Limited for Q1") = py "Tata Steel Limited".
Proof. vm_compute. reflexivity. Qed.

Example extract_company_none :
  extract_company (py "results of tata steel ltd") = py "Unknown".
Proof. vm_compute. reflexivity. Qed.

Example guess_sector_substring :
  guess_sector (py "Statutory audit completed") = py "Technology".
Proof. vm_compute. reflexivity. Qed.

Example extract_symbol_companies :
  extract_symbol (py "https://x/companies/INFY/q1") (py "BSE: TCS") = py "INFY".
Proof. vm_compute. reflexivity. Qed.

Example extract_symbol_text :
  extract_symbol (py "https://x/q1") (py "listed on BSE:  TCS today") = py "TCS".
Proof. vm_compute. reflexivity. Qed.

Example extract_symbol_long_run :
  extract_symbol (py "https://x/ABCDEFGHIJKL_1") (py "BSETCS") = py "Unknown".
Proof. vm_compute. reflexivity. Qed.

Example detect_announcement_type_order :
  detect_announcement_type (py "Dividend and Capex plans") = py "Capex".
Proof. vm_compute. reflexivity. Qed.

Example extract_date_mixed_separators :
  extract_date_from_url (py "https://x/2024-01/15/a.pdf") = Ret (py "2024-01-15").
Proof. vm_compute. reflexivity. Qed.

Example run_extraction_all_fail :
  result (refusing (py "2026-11-04")) (run_extraction [py "https://a.example/x"]) tt
  = [placeholder_row (py "https://a.example/x")].
Proof. vm_compute. reflexivity. Qed.

End Evaluation.

(** ** Stripping *)

Section Strip.

Lemma lstrip_length (s : str) : length (lstrip s) <= length s.
Proof.
  induction s as [|a s IH]; simpl; [lia|].
  destruct (isspace a); simpl; lia.
Qed.

Lemma rstrip_length (s : str) : length (rstrip s) <= length s.
Proof.
  unfold rstrip. rewrite length_reverse.
  pose proof (lstrip_length (reverse s)) as H. rewrite length_reverse in H. exact H.
Qed.

Lemma lstrip_blank (sp s : str) :
  Forall (fun a => isspace a = true) sp -> lstrip (sp ++ s) = lstrip s.
Proof.
  induction 1 as [|a sp Ha _ IH]; simpl; [reflexivity|]. rewrite Ha. exact IH.
Qed.

Lemma lstrip_app (u v : str) :
  lstrip (u ++ v) = match lstrip u with [] => lstrip v | _ :: _ => lstrip u ++ v end.
Proof.
  induction u as [|a u IH]; simpl.
  - reflexivity.
  - destruct (isspace a); [exact IH | reflexivity].
Qed.

Lemma rstrip_app (u v : str) :
  rstrip (u ++ v) = match rstrip v with [] => rstrip u | _ :: _ => u ++ rstrip v end.
Proof.
  unfold rstrip. rewrite reverse_app, lstrip_app.
  destruct (lstrip (reverse v)) as [|a l] eqn:E.
  - reflexivity.
  - rewrite reverse_app, reverse_involutive.
    destruct (reverse (a :: l)) as [|b l'] eqn:E'; [|reflexivity].
    apply (f_equal length) in E'. rewrite length_reverse in E'. discriminate.
Qed.

Lemma lstrip_all_blank (sp : str) :
  Forall (fun a => isspace a = true) sp -> lstrip sp = [].
Proof. intros H. rewrite <- (app_nil_r sp). rewrite (lstrip_blank sp [] H). reflexivity. Qed.

Lemma rstrip_blank (s sp : str) :
  Forall (fun a => isspace a = true) sp -> rstrip (s ++ sp) = rstrip s.
Proof.
  intros H. rewrite rstrip_app.
  assert (Hsp : rstrip sp = []).
  { unfold rstrip. rewrite lstrip_all_blank; [reflexivity|].
    apply Forall_reverse. exact H. }
  rewrite Hsp. reflexivity.
Qed.

Lemma rstrip_nil_lstrip (s : str) : lstrip s = [] -> rstrip s = [].
Proof.
  intros H.
  assert (Hall : Forall (fun a => isspace a = true) s).
  { induction s as [|a s IH]; [constructor|]. simpl in H.
    destruct (isspace a) eqn:Ha; [|discriminate]. constructor; auto. }
  unfold rstrip. rewrite lstrip_all_blank; [reflexivity|].
  apply Forall_reverse. exact Hall.
Qed.

(** Whitespace around a line does not count. *)
Lemma strip_padded (sp1 line sp2 : str) :
  Forall (fun a => isspace a = true) sp1 ->
  Forall (fun a => isspace a = true) sp2 ->
  strip (sp1 ++ line ++ sp2) = strip line.
Proof.
  intros H1 H2. unfold strip. rewrite (lstrip_blank _ _ H1), lstrip_app.
  destruct (lstrip line) as [|a l] eqn:E.
  - rewrite (lstrip_all_blank _ H2). reflexivity.
  - apply rstrip_blank. exact H2.
Qed.

Lemma strip_fixed (v : str) : strip v = v -> lstrip v = v /\ rstrip v = v.
Proof.
  intros H. unfold strip in H.
  assert (Hl : lstrip v = v).
  { destruct v as [|a v]; [reflexivity|]. simpl in *.
    destruct (isspace a); [|reflexivity].
    pose proof (rstrip_length (lstrip v)) as H1.
    pose proof (lstrip_length v) as H2.
    apply (f_equal length) in H. simpl in H. lia. }
  split; [exact Hl|]. rewrite Hl in H. exact H.
Qed.

Lemma lstrip_head (a : ascii) (s : str) : isspace a = false -> lstrip (a :: s) = a :: s.
Proof. intros H. simpl. rewrite H. reflexivity. Qed.

Lemma rstrip_head (a : ascii) (s : str) :
  isspace a = false -> rstrip (a :: s) = a :: rstrip s.
Proof.
  intros H. change (a :: s) with ([a] ++ s). rewrite rstrip_app.
  destruct (rstrip s); [|reflexivity].
  unfold rstrip. cbn [reverse rev_append]. change (reverse [a]) with [a].
  rewrite (lstrip_head a [] H). reflexivity.
Qed.

(** A line made of a numbered prefix, a space and a clean field strips to
    the prefix and what is left of the padding and the field. *)
Lemma strip_numbered_line (n : nat) (v : str) :
  n < 6 -> clean_field v ->
  exists rest, strip (numbered_line n v) = field_prefix n ++ rest /\ strip rest = v.
Proof.
  intros Hn [_ Hv]. destruct (strip_fixed v Hv) as [Hl Hr].
  unfold numbered_line, strip.
  assert (Hp : exists d, field_prefix n = [d; "."%char] /\ isspace d = false).
  { six_fields n; (eexists; split; [reflexivity | reflexivity]). }
  destruct Hp as (d & -> & Hd).
  cbn [app]. rewrite (lstrip_head d _ Hd), (rstrip_head d _ Hd).
  rewrite (rstrip_head "."%char _ eq_refl).
  exists (rstrip (py " " ++ v)). split; [reflexivity|].
  rewrite rstrip_app, Hr. destruct v as [|a v].
  - reflexivity.
  - unfold strip. rewrite (lstrip_blank (py " ") (a :: v)); [|repeat constructor].
    rewrite Hl. exact Hr.
Qed.

End Strip.

(** ** Well-formed and padded responses *)

Section Responses.

Lemma split_single (sep : ascii) (l : str) : sep ∉ l -> split sep l = [l].
Proof.
  induction l as [|c l IH]; intros H; simpl; [reflexivity|].
  assert (Hc : eqb_char c sep = false).
  { apply eqb_char_false. intros ->. apply H. left. }
  rewrite Hc, IH; [reflexivity|]. intros Hin. apply H. right. exact Hin.
Qed.

Lemma split_app_sep (sep : ascii) (l s : str) :
  sep ∉ l -> split sep (l ++ sep :: s) = l :: split sep s.
Proof.
  induction l as [|c l IH]; intros H; simpl.
  - rewrite eqb_char_refl. reflexivity.
  - assert (Hc : eqb_char c sep = false).
    { apply eqb_char_false. intros ->. apply H. left. }
    rewrite Hc, IH; [reflexivity|]. intros Hin. apply H. right. exact Hin.
Qed.

Lemma split_join (sep : ascii) (ls : list str) :
  ls <> [] -> Forall (fun l => sep ∉ l) ls -> split sep (join sep ls) = ls.
Proof.
  induction ls as [|l ls IH]; intros Hne Hall; [contradiction|].
  apply Forall_cons in Hall as [Hl Hall].
  destruct ls as [|l' ls].
  - simpl. apply split_single. exact Hl.
  - change (join sep (l :: l' :: ls)) with (l ++ sep :: join sep (l' :: ls)).
    rewrite (split_app_sep _ _ _ Hl), IH; [reflexivity | discriminate | exact Hall].
Qed.

Lemma parse_2l_line_strip (values : list str) (l l' : str) :
  strip l = strip l' -> parse_2l_line values l = parse_2l_line values l'.
Proof. intros H. rewrite !parse_2l_line_index, H. reflexivity. Qed.

Lemma parse_lines_strip (ls ls' : list str) :
  Forall2 (fun l l' => strip l = strip l') ls ls' ->
  forall values, parse_lines values ls = parse_lines values ls'.
Proof.
  unfold parse_lines. induction 1 as [|l l' ls ls' Hl _ IH]; intros values; simpl.
  - reflexivity.
  - rewrite (parse_2l_line_strip values l l' Hl). apply IH.
Qed.

Lemma parse_2l_join (ls : list str) :
  ls <> [] -> Forall (fun l => "010"%char ∉ l) ls ->
  parse_2l (join "010" ls) = parse_lines (replicate 6 []) ls.
Proof. intros Hne Hall. rewrite parse_2l_lines, (split_join _ _ Hne Hall). reflexivity. Qed.

Lemma numbered_line_no_newline (n : nat) (v : str) :
  n < 6 -> "010"%char ∉ v -> "010"%char ∉ numbered_line n v.
Proof.
  intros Hn Hv H. unfold numbered_line in H.
  apply elem_of_app in H as [H | H].
  - six_fields n; simpl in H;
      repeat (apply elem_of_cons in H as [H | H]; [discriminate|]); inversion H.
  - apply elem_of_cons in H as [H | H]; [discriminate | contradiction].
Qed.

(** X1. A response of six numbered lines, in order, parses to its fields. *)
Theorem parse_2l_well_formed (vs : list str) :
  length vs = 6 -> Forall clean_field vs ->
  parse_2l (join "010" (imap numbered_line vs)) = vs.
Proof.
  intros Hlen Hall.
  destruct vs as [|v0 [|v1 [|v2 [|v3 [|v4 [|v5 [|v6 vs]]]]]]]; try discriminate.
  apply Forall_cons in Hall as [H0 Hall]. apply Forall_cons in Hall as [H1 Hall].
  apply Forall_cons in Hall as [H2 Hall]. apply Forall_cons in Hall as [H3 Hall].
  apply Forall_cons in Hall as [H4 Hall]. apply Forall_cons in Hall as [H5 _].
  cbn [imap compose].
  rewrite parse_2l_join; [|discriminate|].
  2:{ repeat (apply Forall_cons; split; [apply numbered_line_no_newline; [lia|]|]);
        try apply Forall_nil.
      - apply H0.
      - apply H1.
      - apply H2.
      - apply H3.
      - apply H4.
      - apply H5.
      - exact I. }
  unfold parse_lines. cbn [foldl].
  repeat match goal with
         | H : clean_field ?v |- context [parse_2l_line _ (numbered_line ?n ?v)] =>
             let rest := fresh "rest" in
             let Hs := fresh "Hs" in
             let Hr := fresh "Hr" in
             destruct (strip_numbered_line n v ltac:(lia) H) as (rest & Hs & Hr);
             rewrite (parse_2l_line_hit _ (numbered_line n v) rest n ltac:(lia) Hs), Hr;
             clear Hs Hr rest
         end.
  reflexivity.
Qed.

(** X2. Whitespace before and after the lines of a response, a carriage return
    before each newline for one, does not change what is parsed. *)
Theorem parse_2l_padding (padded : list (str * str * str)) :
  Forall (fun '(sp1, l, sp2) => blank sp1 /\ ("010"%char ∉ l) /\ blank sp2) padded ->
  parse_2l (join "010" ((fun '(sp1, l, sp2) => sp1 ++ l ++ sp2) <$> padded)) =
  parse_2l (join "010" ((fun '(_, l, _) => l) <$> padded)).
Proof.
  intros Hall. destruct padded as [|p padded]; [reflexivity|].
  rewrite !parse_2l_join; try discriminate.
  - apply parse_lines_strip. apply Forall2_fmap, Forall_Forall2_diag.
    eapply Forall_impl; [exact Hall|].
    intros [[sp1 l] sp2] ([H1 _] & _ & [H2 _]). apply strip_padded; assumption.
  - apply Forall_fmap. eapply Forall_impl; [exact Hall|].
    intros [[sp1 l] sp2] (_ & Hl & _). exact Hl.
  - apply Forall_fmap. eapply Forall_impl; [exact Hall|].
    intros [[sp1 l] sp2] ([_ H1] & Hl & [_ H2]). simpl. intros Hin.
    apply elem_of_app in Hin as [Hin | Hin]; [contradiction|].
    apply elem_of_app in Hin as [Hin | Hin]; contradiction.
Qed.

Lemma prefix_index_other (a : ascii) (rest : str) :
  in_range 49 54 a = false -> prefix_index (a :: rest) = None.
Proof.
  intros Ha. unfold prefix_index. destruct rest as [|b rest]; [reflexivity|].
  destruct (eqb_char "." b); [|reflexivity].
  repeat match goal with
         | |- context [eqb_char ?d a] =>
             let H := fresh in
             destruct (eqb_char d a) eqn:H;
             [apply eqb_char_true in H; subst a; vm_compute in Ha; discriminate|]
         end.
  reflexivity.
Qed.

(** X3. When the call of the language model raises and the text of the
    exception is one line, the six summary fields of the row are empty. *)
Theorem failed_summary_gives_empty_fields (link text date : str) (e : exn) :
  "010"%char ∉ exn_str e ->
  parse_2l (summary_of (inl e)) = replicate 6 [] /\
  filled_row link text date (inl e) =
    [link; extract_symbol link text; extract_company text; guess_sector text;
     date; detect_announcement_type text; []; []; []; []; []; []].
Proof.
  intros Hnl.
  assert (Hp : parse_2l (summary_of (inl e)) = replicate 6 []).
  { cbn [summary_of]. rewrite parse_2l_lines, split_single.
    - unfold parse_lines. cbn [foldl]. rewrite parse_2l_line_index.
      change (py "Error: " ++ exn_str e) with ("E"%char :: py "rror: " ++ exn_str e).
      unfold strip. rewrite (lstrip_head "E" _ eq_refl), (rstrip_head "E" _ eq_refl).
      rewrite prefix_index_other; reflexivity.
    - intros H. apply elem_of_app in H as [H | H]; [|contradiction].
      simpl in H. repeat (apply elem_of_cons in H as [H | H]; [discriminate|]).
      inversion H. }
  split; [exact Hp|]. unfold filled_row. rewrite Hp. reflexivity.
Qed.

End Responses.

(** ** Company name *)

Section Company.

Implicit Types (w : str) (c : caps).

Lemma sem_capital_word w c c' :
  sem (Cat (Chr isupper_az) (plus (Chr islower_az))) w c c' <-> capital_word w /\ c' = c.
Proof.
  unfold plus, capital_word. cbn [sem]. fold (sem (Rep (Chr islower_az) 1 None)). split.
  - intros (w1 & w2 & c1 & -> & (a & -> & Ha & ->) & H2).
    apply sem_class_rep in H2 as ([Hlo _] & Hall & ->).
    split; [|reflexivity]. exists a, w2. repeat split; auto.
    intros ->. simpl in Hlo. lia.
  - intros ((a & ws & -> & Ha & Hne & Hall) & ->).
    exists [a], ws, c. split; [reflexivity|]. split; [exists a; auto|].
    apply sem_class_rep. repeat split; auto.
    destruct ws; [contradiction | simpl; lia].
Qed.

Lemma sem_spaced_word w c c' :
  sem (cat [chr " "; Chr isupper_az; plus (Chr islower_az)]) w c c' <->
  (exists x, w = py " " ++ x /\ capital_word x) /\ c' = c.
Proof.
  cbn [cat]. cbn [sem]. fold (sem (chr " ")).
  fold (sem (Cat (Chr isupper_az) (plus (Chr islower_az)))). split.
  - intros (w1 & w2 & c1 & -> & H1 & H2).
    apply sem_chr in H1 as [-> ->]. apply sem_capital_word in H2 as [H2 ->].
    split; [exists w2; auto | reflexivity].
  - intros ((x & -> & Hx) & ->). exists (py " "), x, c.
    split; [reflexivity|]. split; [apply sem_chr; auto | apply sem_capital_word; auto].
Qed.

Lemma rep_sem_spaced_words (n : nat) w c c' :
  rep_sem (sem (cat [chr " "; Chr isupper_az; plus (Chr islower_az)])) n w c c' <->
  exists more, length more = n /\ Forall capital_word more /\
               w = spaced_words more /\ c' = c.
Proof.
  revert w c. induction n as [|n IH]; intros w c; cbn [rep_sem].
  - split.
    + intros [-> ->]. exists []. auto.
    + intros (more & Hlen & _ & -> & ->). apply nil_length_inv in Hlen. subst. auto.
  - split.
    + intros (w1 & w2 & c1 & -> & H1 & H2).
      apply sem_spaced_word in H1 as [(x & -> & Hx) ->].
      apply IH in H2 as (more & Hlen & Hall & -> & ->).
      exists (x :: more).
      split; [simpl; congruence|]. split; [constructor; assumption|].
      split; reflexivity.
    + intros (more & Hlen & Hall & -> & ->).
      destruct more as [|x more]; [discriminate|]. injection Hlen as Hlen.
      apply Forall_cons in Hall as [Hx Hall].
      exists (py " " ++ x), (spaced_words more), c.
      split; [reflexivity|].
      split; [apply sem_spaced_word; eauto | apply IH; eauto].
Qed.

Lemma sem_company_suffix w c c' :
  sem (Alt (lit (py "Limited"))
         (Alt (lit (py "Ltd")) (Alt (lit (py "Industries")) (lit (py "Corporation")))))
      w c c' <->
  w ∈ company_suffixes /\ c' = c.
Proof.
  cbn [sem]. fold (sem (lit (py "Limited"))). fold (sem (lit (py "Ltd"))).
  fold (sem (lit (py "Industries"))). fold (sem (lit (py "Corporation"))).
  rewrite !sem_lit. unfold company_suffixes. split.
  - intros [[-> ->] | [[-> ->] | [[-> ->] | [-> ->]]]]; (split; [|reflexivity]).
    + left.
    + right. left.
    + do 2 right. left.
    + do 3 right. left.
  - intros [Hin ->].
    repeat (apply elem_of_cons in Hin as [-> | Hin]; [tauto|]). inversion Hin.
Qed.

Lemma sem_company_re w c c' :
  sem company_re w c c' <-> company_name w /\ c' = set_group 1 w c.
Proof.
  unfold company_re, star, company_name. cbn [cat]. cbn [sem].
  fold (sem (Rep (Chr islower_az) 1 None)).
  fold (sem (chr " ")).
  fold (sem (Alt (lit (py "Limited"))
               (Alt (lit (py "Ltd")) (Alt (lit (py "Industries")) (lit (py "Corporation")))))).
  split.
  - intros (c0 & (w1 & w234 & c1 & -> & (a & -> & Ha & ->) &
                  w2 & w34 & c2 & -> & H2 & w3 & w4 & c3 & -> &
                  (n & _ & H3) & w5 & w6 & c4 & -> & H5 & H6) & ->).
    apply sem_class_rep in H2 as ([Hlo _] & Hall & ->).
    apply rep_sem_spaced_words in H3 as (more & _ & Hmore & -> & ->).
    apply sem_chr in H5 as [-> ->].
    apply sem_company_suffix in H6 as [H6 ->].
    split; [|reflexivity].
    exists (a :: w2), more, w6. split; [reflexivity|].
    split; [|auto]. exists a, w2. repeat split; auto.
    intros ->. simpl in Hlo. lia.
  - intros ((first & more & suffix & -> & (a & ws & -> & Ha & Hne & Hall) & Hmore & Hsuf) & ->).
    exists c. split; [|reflexivity].
    exists [a], (ws ++ spaced_words more ++ py " " ++ suffix), c.
    split; [reflexivity|]. split; [exists a; auto|].
    exists ws, (spaced_words more ++ py " " ++ suffix), c.
    split; [reflexivity|].
    split; [apply sem_class_rep; repeat split; auto;
            destruct ws; [contradiction | simpl; lia]|].
    exists (spaced_words more), (py " " ++ suffix), c.
    split; [reflexivity|].
    split.
    { exists (length more). split; [split; [lia | exact I]|].
      apply rep_sem_spaced_words. exists more. auto. }
    exists (py " "), suffix, c. split; [reflexivity|].
    split; [apply sem_chr; auto | apply sem_company_suffix; auto].
Qed.

Lemma productive_company_re : productive company_re.
Proof.
  unfold company_re, star, plus, chr. cbn [cat productive].
  repeat split; try exact I; try apply class_not_empty; try apply productive_lit.
  intros c c' H. apply sem_spaced_word in H as [(x & Hx & _) _]. discriminate.
Qed.

Lemma company_name_has_space w : company_name w -> " "%char ∈ w.
Proof.
  intros (first & more & suffix & -> & _).
  apply elem_of_app. right. apply elem_of_app. right. left.
Qed.

Lemma company_name_not_unknown w : company_name w -> w <> py "Unknown".
Proof.
  intros H ->. apply company_name_has_space in H. simpl in H.
  repeat (apply elem_of_cons in H as [H | H]; [discriminate|]). inversion H.
Qed.

Lemma occurs_company (text : str) :
  occurs company_re text <->
  exists pre w rest, text = pre ++ w ++ rest /\ company_name w.
Proof.
  unfold occurs, matches_after. split.
  - intros (pre & w & rest & c' & Hs & Hsem).
    apply sem_company_re in Hsem as [Hn _]. eauto.
  - intros (pre & w & rest & Hs & Hn). exists pre, w, rest, (set_group 1 w []).
    split; [exact Hs|]. apply sem_company_re. auto.
Qed.

(** X4. The company is "Unknown" exactly when no company name occurs in the
    text; otherwise it is the leftmost piece of the text that is a company
    name. *)
Theorem extract_company_name (text : str) :
  (extract_company text = py "Unknown" <->
   ~ exists pre w rest, text = pre ++ w ++ rest /\ company_name w) /\
  (extract_company text <> py "Unknown" ->
   exists pre rest,
     text = pre ++ extract_company text ++ rest /\
     company_name (extract_company text) /\
     forall pre' w' rest',
       text = pre' ++ w' ++ rest' -> company_name w' -> length pre <= length pre').
Proof.
  rewrite <- occurs_company, <- (search_none_iff _ _ productive_company_re).
  unfold extract_company.
  destruct (search company_re text) as [m|] eqn:E.
  - apply (search_found _ _ _ productive_company_re) in E
      as (pre & rest & Hs & _ & Hsem & Hleft).
    apply sem_company_re in Hsem as [Hname _].
    split.
    + split; [intros H; destruct (company_name_not_unknown _ Hname H) | discriminate].
    + intros _. exists pre, rest. split; [exact Hs|]. split; [exact Hname|].
      intros pre' w' rest' Hs' Hn'. apply Hleft.
      exists w', rest', (set_group 1 w' []). split; [exact Hs'|].
      apply sem_company_re. auto.
  - split; [tauto | congruence].
Qed.

End Company.

(** ** Announcement type and letter case *)

Section Keywords.

Lemma detect_announcement_loop_first (text : str) (items : list (str * str)) :
  forall (i : nat) (k v : str),
    items !! i = Some (k, v) ->
    occurs_in k (lower text) ->
    (forall j k' v', j < i -> items !! j = Some (k', v') -> ~ occurs_in k' (lower text)) ->
    detect_announcement_loop items text = v.
Proof.
  induction items as [|[k0 v0] items IH]; intros i k v Hi Hk Hbefore.
  - discriminate.
  - destruct i as [|i]; simpl in Hi |- *.
    + injection Hi as -> ->. apply contains_occurs in Hk. rewrite Hk. reflexivity.
    + assert (H0 : contains k0 (lower text) = false).
      { apply contains_not_occurs. apply (Hbefore 0 k0 v0); [lia | reflexivity]. }
      rewrite H0. apply (IH i k v Hi Hk).
      intros j k' v' Hj Hlook. apply (Hbefore (S j) k' v'); [lia | exact Hlook].
Qed.

Lemma detect_announcement_loop_general (text : str) (items : list (str * str)) :
  (forall k v, (k, v) ∈ items -> v <> py "General") ->
  detect_announcement_loop items text = py "General" <->
  (forall k v, (k, v) ∈ items -> ~ occurs_in k (lower text)).
Proof.
  induction items as [|[k0 v0] items IH]; intros Hval.
  - split; [|reflexivity]. intros _ k v Hin. inversion Hin.
  - cbn [detect_announcement_loop].
    destruct (contains k0 (lower text)) eqn:E.
    + split.
      * intros Hv. exfalso. apply (Hval k0 v0); [left | exact Hv].
      * intros Hnone. exfalso. apply (Hnone k0 v0); [left|].
        apply contains_occurs. exact E.
    + rewrite IH; [|intros k v Hin; apply (Hval k v); right; exact Hin].
      split.
      * intros Hnone k v Hin. apply elem_of_cons in Hin as [[= -> ->] | Hin].
        -- apply contains_not_occurs. exact E.
        -- apply (Hnone k v Hin).
      * intros Hnone k v Hin. apply (Hnone k v). right. exact Hin.
Qed.

Lemma announcement_values_not_general :
  forall k v, (k, v) ∈ announcement_keywords -> v <> py "General".
Proof.
  intros k v Hin. unfold announcement_keywords in Hin.
  repeat (apply elem_of_cons in Hin as [[= _ ->] | Hin]; [cbv; discriminate|]).
  inversion Hin.
Qed.

(** X5. The announcement type is that of the first keyword of the dictionary,
    in its order, that occurs in the lowercased text, and "General" exactly
    when none of the fourteen keywords occurs there. *)
Theorem detect_announcement_type_first_keyword (text : str) :
  (forall (i : nat) (k v : str),
      announcement_keywords !! i = Some (k, v) ->
      occurs_in k (lower text) ->
      (forall j k' v', j < i -> announcement_keywords !! j = Some (k', v') ->
                       ~ occurs_in k' (lower text)) ->
      detect_announcement_type text = v) /\
  (detect_announcement_type text = py "General" <->
   forall k v, (k, v) ∈ announcement_keywords -> ~ occurs_in k (lower text)).
Proof.
  split.
  - intros i k v. apply detect_announcement_loop_first.
  - apply detect_announcement_loop_general. exact announcement_values_not_general.
Qed.

Lemma lower_char_idempotent (a : ascii) : lower_char (lower_char a) = lower_char a.
Proof. destruct a as [[] [] [] [] [] [] [] []]; reflexivity. Qed.

Lemma lower_idempotent (s : str) : lower (lower s) = lower s.
Proof.
  unfold lower. induction s as [|a s IH]; simpl; [reflexivity|].
  rewrite lower_char_idempotent, IH. reflexivity.
Qed.

Lemma guess_sector_loop_lower (items : list (str * str)) (text : str) :
  guess_sector_loop items (lower text) = guess_sector_loop items text.
Proof.
  induction items as [|[k v] items IH]; simpl; [reflexivity|].
  rewrite lower_idempotent, IH. reflexivity.
Qed.

Lemma detect_announcement_loop_lower (items : list (str * str)) (text : str) :
  detect_announcement_loop items (lower text) = detect_announcement_loop items text.
Proof.
  induction items as [|[k v] items IH]; simpl; [reflexivity|].
  rewrite lower_idempotent, IH. reflexivity.
Qed.

(** X6. Sector and announcement type do not depend on the case of the letters
    of the text: two texts with the same lowercase form get the same
    results, and a text gets the results of its lowercase form. *)
Theorem keyword_heuristics_ignore_case (text1 text2 : str) :
  lower text1 = lower text2 ->
  guess_sector text1 = guess_sector text2 /\
  detect_announcement_type text1 = detect_announcement_type text2 /\
  guess_sector (lower text1) = guess_sector text1 /\
  detect_announcement_type (lower text1) = detect_announcement_type text1.
Proof.
  intros H. unfold guess_sector, detect_announcement_type.
  split; [rewrite <- (guess_sector_loop_lower _ text1),
                  <- (guess_sector_loop_lower _ text2), H; reflexivity|].
  split; [rewrite <- (detect_announcement_loop_lower _ text1),
                  <- (detect_announcement_loop_lower _ text2), H; reflexivity|].
  split; [apply guess_sector_loop_lower | apply detect_announcement_loop_lower].
Qed.

Lemma occurs_in_app (w pre rest : str) : occurs_in w (pre ++ w ++ rest).
Proof. exists pre, rest. reflexivity. Qed.

(** X7. The symbol is "Unknown" or a word of one to ten capitals that occurs
    in the URL or in the text. *)
Theorem extract_symbol_shape (url text : str) :
  extract_symbol url text = py "Unknown" \/
  (ticker_word (extract_symbol url text) /\
   (occurs_in (extract_symbol url text) url \/ occurs_in (extract_symbol url text) text)).
Proof.
  unfold extract_symbol.
  destruct (search symbol_url_re url) as [m1|] eqn:E1.
  { apply search_symbol_url in E1 as (pre & g & rest & -> & _ & Hg & _ & ->).
    right. split; [exact Hg|]. left.
    exists (pre ++ py "/"), (py "_" ++ rest). rewrite <- !app_assoc. reflexivity. }
  destruct (search symbol_companies_re url) as [m2|] eqn:E2.
  { apply search_symbol_companies in E2 as (pre & g & rest & -> & _ & Hg & _ & ->).
    right. split; [exact Hg|]. left.
    exists (pre ++ py "/companies/"), rest. rewrite <- !app_assoc. reflexivity. }
  destruct (search symbol_bse_re text) as [m3|] eqn:E3.
  { apply search_symbol_bse in E3
      as (pre & sep & g & rest & -> & _ & _ & _ & Hg & _ & ->).
    right. split; [exact Hg|]. right.
    exists (pre ++ py "BSE" ++ sep), rest. rewrite <- !app_assoc. reflexivity. }
  left. reflexivity.
Qed.

End Keywords.

(** ** Exceptions and successes of the fetcher *)

Section FetcherRuns.

Lemma quiet_nil : quiet [].
Proof. constructor. Qed.

Lemma quiet_app (t1 t2 : list entry) : quiet (t1 ++ t2) <-> quiet t1 /\ quiet t2.
Proof. apply Forall_app. Qed.

Lemma ends_raising_not_quiet (tr : list entry) (e : exn) :
  ends_raising tr e -> ~ quiet tr.
Proof.
  intros (tr0 & x & -> & _ & Hx) Hq.
  apply quiet_app in Hq as [_ Hq]. apply Forall_cons in Hq as [Hq _]. congruence.
Qed.

Lemma ret_outcome {A : Type} (a : A) (tr : list entry) (r : exn + A) :
  runs (Ret (inr a)) tr r -> outcome_ok tr r.
Proof. intros [-> ->]. apply quiet_nil. Qed.

Lemma bind_exn_outcome {A B : Type} (p : raising A) (f : A -> raising B) :
  (forall tr r, runs p tr r -> outcome_ok tr r) ->
  (forall a tr r, runs (f a) tr r -> outcome_ok tr r) ->
  forall tr r, runs (bind_exn p f) tr r -> outcome_ok tr r.
Proof.
  intros Hp Hf tr r H.
  apply runs_bind_exn in H as [(e & H & ->) | (a & t1 & t2 & -> & H1 & H2)].
  - apply (Hp _ _ H).
  - apply Hp in H1. apply Hf in H2. simpl in H1.
    destruct r as [e|b]; simpl in *.
    + destruct H2 as (tr0 & x & -> & Hq & Hx).
      exists (t1 ++ tr0), x. rewrite app_assoc. split; [reflexivity|].
      split; [apply quiet_app; auto | exact Hx].
    + apply quiet_app. auto.
Qed.

(** A single fallible call raises as the last entry or is quiet. *)
Ltac single_call H :=
  apply runs_act in H as ->;
  match goal with
  | |- outcome_ok _ ?r =>
      destruct r as [e|v]; simpl;
      [exists []; eexists; split; [reflexivity | split; [constructor | reflexivity]]
      | repeat constructor]
  end.

Lemma read_pages_outcome (pages : list nat) :
  forall (acc : str) (tr : list entry) (r : exn + str),
    runs (read_pages pages acc) tr r -> outcome_ok tr r.
Proof.
  induction pages as [|i pages IH]; intros acc tr r H.
  - apply (ret_outcome _ _ _ H).
  - cbn [read_pages] in H. revert tr r H. apply bind_exn_outcome.
    + intros tr r H. single_call H.
    + intros t tr r H. apply (IH _ _ _ H).
Qed.

Lemma fetch_pdf_outcome (url : str) (tr : list entry) (r : exn + str) :
  runs (fetch_pdf url) tr r -> outcome_ok tr r.
Proof.
  unfold fetch_pdf. revert tr r.
  apply bind_exn_outcome; [intros tr r H; single_call H|]. intros response.
  apply bind_exn_outcome; [intros tr r H; single_call H|]. intros _.
  apply bind_exn_outcome; [intros tr r H; single_call H|]. intros n.
  apply bind_exn_outcome; [apply read_pages_outcome|]. intros text.
  apply bind_exn_outcome; [intros tr r H; single_call H|]. intros _.
  intros tr r H. apply (ret_outcome _ _ _ H).
Qed.

Lemma fetch_html_outcome (url : str) (tr : list entry) (r : exn + str) :
  runs (fetch_html url) tr r -> outcome_ok tr r.
Proof.
  unfold fetch_html. revert tr r.
  apply bind_exn_outcome; [intros tr r H; single_call H|]. intros res.
  apply bind_exn_outcome; [intros tr r H; single_call H|]. intros text.
  intros tr r H. apply (ret_outcome _ _ _ H).
Qed.

Lemma fetch_body_outcome (url : str) (tr : list entry) (text : str) :
  runs (fetch_clean_text url) tr text ->
  exists r : exn + str,
    runs (if endswith (py ".pdf") (lower url) then fetch_pdf url else fetch_html url) tr r /\
    outcome_ok tr r /\
    text = match r with inl e => fetch_error url e | inr v => v end.
Proof.
  unfold fetch_clean_text. intros H.
  apply (runs_try_except _ (fetch_error url)) in H as (r & H & ->).
  exists r. split; [exact H|]. split; [|reflexivity].
  destruct (endswith (py ".pdf") (lower url));
    [apply (fetch_pdf_outcome url) | apply (fetch_html_outcome url)]; exact H.
Qed.

(** X8. In every world, either no call of the fetch raised, or the call that
    raised is the last entry of the log (nothing runs after it, the close
    of the document included) and the result is "Error fetching", the URL
    and the text of that exception. *)
Theorem fetch_clean_text_stops_at_exception {W : Type} (h : handler W) (w : W) (url : str) :
  let text := result h (fetch_clean_text url) w in
  let tr := trace h (fetch_clean_text url) w in
  quiet tr \/
  exists e, ends_raising tr e /\
            text = py "Error fetching " ++ url ++ py ": " ++ exn_str e.
Proof.
  intros text tr.
  destruct (fetch_body_outcome url tr text (run_runs h _ w)) as (r & _ & Hout & Htext).
  destruct r as [e|v]; simpl in Hout.
  - right. exists e. auto.
  - left. exact Hout.
Qed.

Lemma read_pages_quiet (n : nat) :
  forall (start : nat) (acc : str) (tr : list entry) (text : str),
    runs (read_pages (seq start n) acc) tr (inr text) ->
    exists texts, length texts = n /\ tr = page_log start texts /\
                  text = acc ++ all_text texts.
Proof.
  induction n as [|n IH]; intros start acc tr text H.
  - destruct H as [-> [= ->]]. exists []. rewrite app_nil_r. auto.
  - cbn [seq read_pages] in H.
    apply runs_bind_exn in H as [(e & _ & He) | (t & t1 & t2 & -> & H1 & H2)];
      [discriminate|].
    apply runs_act in H1 as ->.
    apply IH in H2 as (texts & Hlen & -> & ->).
    exists (t :: texts). simpl. rewrite <- app_assoc. auto.
Qed.

Lemma fetch_pdf_quiet (url : str) (tr : list entry) (text : str) :
  runs (fetch_pdf url) tr (inr text) ->
  exists response texts,
    tr = [said (RequestsGet url 10) (inr response);
          said (WriteFile (py "temp.pdf") (resp_content response)) (inr tt);
          said (FitzOpen (py "temp.pdf")) (inr (length texts))]
         ++ page_log 0 texts ++ [said DocClose (inr tt)] /\
    text = match all_text texts with
           | [] => py "Error: No text found in PDF"
           | _ :: _ => take 4000 (all_text texts)
           end.
Proof.
  unfold fetch_pdf. intros H.
  apply runs_bind_exn in H as [(e & _ & He) | (response & t1 & t2 & -> & H1 & H)];
    [discriminate|].
  apply runs_act in H1 as ->.
  apply runs_bind_exn in H as [(e & _ & He) | ([] & t1 & t3 & -> & H1 & H)];
    [discriminate|].
  apply runs_act in H1 as ->.
  apply runs_bind_exn in H as [(e & _ & He) | (n & t1 & t4 & -> & H1 & H)];
    [discriminate|].
  apply runs_act in H1 as ->.
  apply runs_bind_exn in H as [(e & _ & He) | (full & t5 & t6 & -> & H1 & H)];
    [discriminate|].
  apply read_pages_quiet in H1 as (texts & <- & -> & ->).
  apply runs_bind_exn in H as [(e & _ & He) | ([] & t1 & t7 & -> & H1 & H)];
    [discriminate|].
  apply runs_act in H1 as ->. destruct H as [-> [= ->]].
  exists response, texts. simpl. split; reflexivity.
Qed.

Lemma fetch_html_quiet (url : str) (tr : list entry) (text : str) :
  runs (fetch_html url) tr (inr text) ->
  exists res page,
    tr = [said (RequestsGet url 10) (inr res);
          said (SoupGetText (resp_text res)) (inr page)] /\
    text = take 4000 page.
Proof.
  unfold fetch_html. intros H.
  apply runs_bind_exn in H as [(e & _ & He) | (res & t1 & t2 & -> & H1 & H)];
    [discriminate|].
  apply runs_act in H1 as ->.
  apply runs_bind_exn in H as [(e & _ & He) | (page & t1 & t3 & -> & H1 & H)];
    [discriminate|].
  apply runs_act in H1 as ->. destruct H as [-> [= ->]].
  exists res, page. split; reflexivity.
Qed.

(** X9. When the link ends in ".pdf" and no call raises, the log is the
    download, the write of the temporary file, the opening of the document,
    the reading of every page once, in order, and the close; the result is
    the first 4000 characters of the texts of the pages put together, or
    the message that no text was found when the pages hold none. *)
Theorem fetch_clean_text_pdf_pages {W : Type} (h : handler W) (w : W) (url : str) :
  let text := result h (fetch_clean_text url) w in
  let tr := trace h (fetch_clean_text url) w in
  (exists pre, lower url = pre ++ py ".pdf") ->
  quiet tr ->
  exists response texts,
    tr = [said (RequestsGet url 10) (inr response);
          said (WriteFile (py "temp.pdf") (resp_content response)) (inr tt);
          said (FitzOpen (py "temp.pdf")) (inr (length texts))]
         ++ page_log 0 texts ++ [said DocClose (inr tt)] /\
    text = match all_text texts with
           | [] => py "Error: No text found in PDF"
           | _ :: _ => take 4000 (all_text texts)
           end.
Proof.
  intros text tr Hpdf Hq.
  destruct (fetch_body_outcome url tr text (run_runs h _ w)) as (r & Hrun & Hout & Htext).
  apply endswith_spec in Hpdf. rewrite Hpdf in Hrun.
  destruct r as [e|v]; [destruct (ends_raising_not_quiet _ _ Hout Hq)|].
  rewrite Htext. apply fetch_pdf_quiet. exact Hrun.
Qed.

(** X10. When the link does not end in ".pdf" and no call raises, the log is the
    download and the text extraction of the page, and the result is the
    first 4000 characters of the extracted text: a text of up to 4000
    characters comes back whole, the empty text included. *)
Theorem fetch_clean_text_html_text {W : Type} (h : handler W) (w : W) (url : str) :
  let text := result h (fetch_clean_text url) w in
  let tr := trace h (fetch_clean_text url) w in
  ~ (exists pre, lower url = pre ++ py ".pdf") ->
  quiet tr ->
  exists res page,
    tr = [said (RequestsGet url 10) (inr res);
          said (SoupGetText (resp_text res)) (inr page)] /\
    text = take 4000 page /\
    (length page <= 4000 -> text = page).
Proof.
  intros text tr Hno Hq.
  destruct (fetch_body_outcome url tr text (run_runs h _ w)) as (r & Hrun & Hout & Htext).
  destruct (endswith (py ".pdf") (lower url)) eqn:E.
  { exfalso. apply Hno. apply endswith_spec. exact E. }
  destruct r as [e|v]; [destruct (ends_raising_not_quiet _ _ Hout Hq)|].
  apply fetch_html_quiet in Hrun as (res & page & Htr & Hv).
  exists res, page. rewrite Htext, Hv. split; [exact Htr|]. split; [reflexivity|].
  intros Hlen. apply take_ge. exact Hlen.
Qed.

End FetcherRuns.

(** ** The log of the loop *)

Section Loop.

Lemma process_row_round (total i : nat) (link : str) (out : list row)
    (tr : list entry) (out' : list row) :
  runs (process_row total i link out) tr out' ->
  exists r, out' = out ++ [r] /\ round total i link tr r.
Proof.
  intros H.
  apply process_row_runs in H as (u & tr_fetch & text & tr_rest & -> & Hf & Herr & Hok).
  destruct (startswith (py "Error") text) eqn:E.
  - destruct (Herr eq_refl) as [-> ->]. exists (placeholder_row link).
    split; [reflexivity|]. exists u, tr_fetch, text. split; [exact Hf|].
    left. rewrite app_nil_r. auto.
  - destruct (Hok eq_refl) as (tr_date & date & r & Hd & -> & ->).
    exists (filled_row link text date r). split; [reflexivity|].
    exists u, tr_fetch, text. split; [exact Hf|].
    right. split; [exact E|]. exists tr_date, date, r. auto.
Qed.

Lemma extraction_loop_rounds (total : nat) (links : list str) :
  forall (i : nat) (out : list row) (tr : list entry) (out' : list row),
    runs (extraction_loop total i links out) tr out' ->
    exists rows, out' = out ++ rows /\ rounds total i links tr rows.
Proof.
  induction links as [|link links IH]; intros i out tr out' H.
  - destruct H as [-> ->]. exists []. rewrite app_nil_r. simpl. auto.
  - cbn [extraction_loop] in H.
    apply runs_bind in H as (out1 & t1 & t2 & -> & H1 & H2).
    apply process_row_round in H1 as (r & -> & Hr).
    apply IH in H2 as (rows & -> & Hrows).
    exists (r :: rows). rewrite <- app_assoc. split; [reflexivity|].
    simpl. exists t1, t2, r, rows. auto.
Qed.

Lemma run_extraction_rounds {W : Type} (h : handler W) (w : W) (links : list str) :
  rounds (length links) 0 links
    (trace h (run_extraction links) w) (result h (run_extraction links) w).
Proof.
  destruct (extraction_loop_rounds _ links 0 [] _ _ (run_runs h (run_extraction links) w))
    as (rows & Hout & Hrounds).
  simpl in Hout. rewrite Hout. exact Hrounds.
Qed.

Lemma parse_2l_length (response : str) : length (parse_2l response) = 6.
Proof. rewrite parse_2l_lines. apply parse_lines_length. Qed.

Lemma round_row_length (total i : nat) (link : str) (t : list entry) (r : row) :
  round total i link t r -> length r = 12.
Proof.
  intros (u & tr_fetch & text & _ & [(_ & _ & ->) | (_ & tr_date & date & rr & _ & _ & ->)]).
  - reflexivity.
  - unfold filled_row. rewrite length_app, parse_2l_length. reflexivity.
Qed.

(** X11. Every row of the output has twelve cells, as many as the data frame has
    column names, so the data frame can be built from the rows. *)
Theorem run_extraction_rows_fit_columns {W : Type} (h : handler W) (w : W)
    (links : list str) :
  Forall (fun r => length r = length columns) (result h (run_extraction links) w) /\
  length columns = 12.
Proof.
  split; [|reflexivity].
  pose proof (run_extraction_rounds h w links) as H.
  revert H. generalize (trace h (run_extraction links) w).
  generalize (result h (run_extraction links) w).
  generalize 0. generalize (length links) at 1.
  induction links as [|link links IH]; intros total i rows tr H; simpl in H.
  - destruct H as [_ ->]. constructor.
  - destruct H as (t1 & t2 & r & rows' & _ & -> & Hr & Hrest).
    constructor; [apply (round_row_length _ _ _ _ _ Hr) | apply (IH _ _ _ _ Hrest)].
Qed.

Lemma fetch_log_shape (link : str) (tr : list entry) (text : str) :
  runs (fetch_clean_text link) tr text ->
  exists (r0 : reply (RequestsGet link 10)) (tr' : list entry),
    tr = said (RequestsGet link 10) r0 :: tr' /\
    Forall (fun x => is_fetch_tail (event_of x) = true) tr' /\
    short_or_error text.
Proof.
  intros H. apply fetch_clean_text_runs in H as (Hs & Hpdf & Hhtml).
  destruct (endswith (py ".pdf") (lower link)) eqn:E.
  - destruct (Hpdf (proj1 (endswith_spec _ _) E)) as (r0 & tr' & -> & Hall & _).
    exists r0, tr'. split; [reflexivity|]. split; [|exact Hs].
    eapply Forall_impl; [exact Hall|]. intros x Hx. unfold is_fetch_tail.
    rewrite Hx. reflexivity.
  - assert (Hno : ~ exists pre, lower link = pre ++ py ".pdf").
    { intros Hex. apply endswith_spec in Hex. congruence. }
    destruct (Hhtml Hno) as (r0 & tr' & -> & Htail).
    exists r0, tr'. split; [reflexivity|]. split; [|exact Hs].
    destruct r0 as [e|res].
    + subst tr'. constructor.
    + destruct Htail as [r1 ->]. repeat constructor.
Qed.

Lemma date_log_shape (link : str) (tr : list entry) (date : str) :
  runs (extract_date_from_url link) tr date ->
  tr = [] \/ tr = [said (TodayStrftime (py "%Y-%m-%d")) date].
Proof.
  unfold extract_date_from_url. destruct (search date_re link) as [m|].
  - intros [-> _]. left. reflexivity.
  - intros H. apply runs_act in H. right. exact H.
Qed.

Lemma fetched_text_short (text : str) :
  short_or_error text -> startswith (py "Error") text = false -> length text <= 4000.
Proof.
  intros [H | [rest ->]] Hs; [exact H|].
  rewrite startswith_app in Hs. discriminate.
Qed.

(** What holds of the entries of one round holds of its log. *)
Lemma round_Forall (Q : entry -> Prop) (total i : nat) (link : str)
    (t : list entry) (r : row) :
  (forall u, Q (said (StatusText (status_message total i link)) u)) ->
  (forall r0, Q (said (RequestsGet link 10) r0)) ->
  (forall x, is_fetch_tail (event_of x) = true -> Q x) ->
  (forall d, Q (said (TodayStrftime (py "%Y-%m-%d")) d)) ->
  (forall text reply,
      length text <= 4000 -> startswith (py "Error") text = false ->
      Q (said (ChatCompletionCreate (chat_request_of text)) reply)) ->
  Q (said (Progress (i + 1) total) tt) ->
  Q (said (Sleep 12) tt) ->
  round total i link t r -> Forall Q t.
Proof.
  intros Hstatus Hget Htail Hday Hllm Hprog Hsleep (u & tr_fetch & text & Hf & Hcase).
  apply fetch_log_shape in Hf as (r0 & tr' & -> & Hall & Hshort).
  assert (Hfetch : Forall Q (said (RequestsGet link 10) r0 :: tr')).
  { constructor; [apply Hget|]. eapply Forall_impl; [exact Hall | exact Htail]. }
  destruct Hcase as [(_ & -> & _) | (Hs & tr_date & date & reply & Hd & -> & _)].
  - constructor; [apply Hstatus | exact Hfetch].
  - constructor; [apply Hstatus|].
    apply Forall_app. split; [exact Hfetch|].
    apply Forall_app. split.
    + apply date_log_shape in Hd as [-> | ->]; repeat constructor. apply Hday.
    + repeat constructor; auto using fetched_text_short.
Qed.

Lemma rounds_Forall (Q : entry -> Prop) (total : nat) (links : list str) :
  forall (i : nat) (tr : list entry) (rows : list row),
    (forall k link t r, i <= k < i + length links -> round total k link t r -> Forall Q t) ->
    rounds total i links tr rows -> Forall Q tr.
Proof.
  induction links as [|link links IH]; intros i tr rows Hround H; simpl in H.
  - destruct H as [-> _]. constructor.
  - destruct H as (t1 & t2 & r & rows' & -> & _ & Hr & Hrest).
    apply Forall_app. split.
    + apply (Hround i link t1 r); [simpl; lia | exact Hr].
    + apply (IH (S i) t2 rows'); [|exact Hrest].
      intros k link' t r' Hk. apply Hround. simpl. lia.
Qed.

(** X12. Every value given to the progress bar is a fraction (i+1)/n with n the
    number of links and 1 <= i+1 <= n: the division is never by zero and the
    value never leaves the range the bar accepts. *)
Theorem run_extraction_progress_in_range {W : Type} (h : handler W) (w : W)
    (links : list str) :
  Forall (fun x => progress_ok (length links) (event_of x))
         (trace h (run_extraction links) w).
Proof.
  apply (rounds_Forall _ (length links) links 0 _
           (result h (run_extraction links) w)); [|apply run_extraction_rounds].
  intros k link t r Hk. apply round_Forall; try (intros; exact I); simpl.
  - intros [[] ?] H; simpl in *; try exact I; discriminate.
  - lia.
Qed.

Lemma prompt_of_length (text : str) : length (prompt_of text) = 512 + length text.
Proof.
  unfold prompt_of. rewrite !length_app.
  change (length prompt_head) with 511. change (length prompt_tail) with 1. lia.
Qed.

(** X13. The language model is only ever called with the prompt around a fetched
    text that does not begin with "Error" and has at most 4000 characters,
    so no prompt is longer than 4512 characters. *)
Theorem run_extraction_prompts_bounded {W : Type} (h : handler W) (w : W)
    (links : list str) :
  Forall (fun x => llm_ok (event_of x)) (trace h (run_extraction links) w).
Proof.
  apply (rounds_Forall _ (length links) links 0 _
           (result h (run_extraction links) w)); [|apply run_extraction_rounds].
  intros k link t r Hk. apply round_Forall; try (intros; exact I).
  - intros [[] ?] H; simpl in *; try exact I; discriminate.
  - intros text reply Hlen Hs. exists text.
    split; [reflexivity|]. split; [exact Hlen|]. split; [exact Hs|].
    rewrite prompt_of_length. lia.
Qed.

Lemma downloads_app (t1 t2 : list entry) : downloads (t1 ++ t2) = downloads t1 ++ downloads t2.
Proof. apply omap_app. Qed.

Lemma statuses_app (t1 t2 : list entry) : statuses (t1 ++ t2) = statuses t1 ++ statuses t2.
Proof. apply omap_app. Qed.

Lemma count_events_app (kind : event -> bool) (t1 t2 : list entry) :
  count_events kind (t1 ++ t2) = count_events kind t1 + count_events kind t2.
Proof. induction t1 as [|x t1 IH]; simpl; [reflexivity | rewrite IH; lia]. Qed.

(** The events of a fetch after its download are no download, no status
    message and no call that the loop counts. *)
Lemma fetch_tail_silent (tr : list entry) :
  Forall (fun x => is_fetch_tail (event_of x) = true) tr ->
  downloads tr = [] /\ statuses tr = [] /\
  count_events is_llm_event tr = 0 /\
  count_events is_sleep_event tr = 0 /\
  count_events is_progress_event tr = 0.
Proof.
  induction 1 as [|[e r] tr Hx _ IH]; [repeat split|].
  destruct IH as (H1 & H2 & H3 & H4 & H5).
  destruct e; simpl in Hx; try discriminate;
    unfold downloads, statuses in *; simpl; auto.
Qed.

Lemma date_log_silent (link : str) (tr : list entry) (date : str) :
  runs (extract_date_from_url link) tr date ->
  downloads tr = [] /\ statuses tr = [] /\
  count_events is_llm_event tr = 0 /\
  count_events is_sleep_event tr = 0 /\
  count_events is_progress_event tr = 0.
Proof.
  intros H. apply date_log_shape in H as [-> | ->]; repeat split.
Qed.

Lemma eqb_str_true (a b : str) : eqb_str a b = true <-> a = b.
Proof.
  unfold eqb_str. rewrite andb_true_iff, !startswith_spec. split.
  - intros [[r Hr] [r' Hr']]. rewrite Hr in Hr'.
    apply (f_equal length) in Hr'. rewrite !length_app in Hr'.
    destruct r; [rewrite app_nil_r in Hr; congruence | simpl in Hr'; lia].
  - intros ->. split; exists []; rewrite app_nil_r; reflexivity.
Qed.

Lemma failed_row_filled (link text date : str) (r : exn + str) :
  failed_row (filled_row link text date r) = false.
Proof.
  unfold failed_row.
  change (filled_row link text date r !! 5) with (Some (detect_announcement_type text)).
  destruct (eqb_str (detect_announcement_type text) (py "Error")) eqn:E; [|reflexivity].
  apply eqb_str_true in E. destruct (detect_announcement_type_not_error text E).
Qed.

Lemma round_summary (total i : nat) (link : str) (t : list entry) (r : row) :
  round total i link t r ->
  downloads t = [link] /\
  statuses t = [status_message total i link] /\
  let n := if failed_row r then 0 else 1 in
  count_events is_llm_event t = n /\
  count_events is_sleep_event t = n /\
  count_events is_progress_event t = n.
Proof.
  intros (u & tr_fetch & text & Hf & Hcase).
  apply fetch_log_shape in Hf as (r0 & tr' & -> & Hall & _).
  apply fetch_tail_silent in Hall as (D & S & C1 & C2 & C3).
  destruct Hcase as [(_ & -> & ->) | (_ & tr_date & date & reply & Hd & -> & ->)].
  - change (failed_row (placeholder_row link)) with true.
    change (said (StatusText (status_message total i link)) u
              :: said (RequestsGet link 10) r0 :: tr')
      with ([said (StatusText (status_message total i link)) u;
             said (RequestsGet link 10) r0] ++ tr').
    rewrite downloads_app, statuses_app, !count_events_app.
    rewrite D, S, C1, C2, C3. repeat split.
  - rewrite failed_row_filled.
    apply date_log_silent in Hd as (D' & S' & C1' & C2' & C3').
    change (said (StatusText (status_message total i link)) u
              :: (said (RequestsGet link 10) r0 :: tr') ++ tr_date ++
              [said (ChatCompletionCreate (chat_request_of text)) reply;
               said (Progress (i + 1) total) tt; said (Sleep 12) tt])
      with ([said (StatusText (status_message total i link)) u;
             said (RequestsGet link 10) r0] ++ tr' ++ tr_date ++
            [said (ChatCompletionCreate (chat_request_of text)) reply;
             said (Progress (i + 1) total) tt; said (Sleep 12) tt]).
    rewrite !downloads_app, !statuses_app, !count_events_app.
    rewrite D, S, C1, C2, C3, D', S', C1', C2', C3'. repeat split.
Qed.

Lemma rounds_summary (total : nat) (links : list str) :
  forall (i : nat) (tr : list entry) (rows : list row),
    rounds total i links tr rows ->
    downloads tr = links /\
    statuses tr = imap (fun k link => status_message total (i + k) link) links /\
    count_events is_llm_event tr = count_filled rows /\
    count_events is_sleep_event tr = count_filled rows /\
    count_events is_progress_event tr = count_filled rows /\
    count_filled rows <= length links.
Proof.
  induction links as [|link links IH]; intros i tr rows H; simpl in H.
  - destruct H as [-> ->]. repeat split. simpl. lia.
  - destruct H as (t1 & t2 & r & rows' & -> & -> & Hr & Hrest).
    apply round_summary in Hr as (D & S & C1 & C2 & C3).
    apply IH in Hrest as (D' & S' & C1' & C2' & C3' & Hle).
    rewrite downloads_app, statuses_app, !count_events_app.
    rewrite D, S, C1, C2, C3, D', S', C1', C2', C3'.
    split; [reflexivity|]. split.
    { rewrite imap_cons. simpl. rewrite Nat.add_0_r. f_equal.
      apply imap_ext. intros k x _. simpl. f_equal. lia. }
    simpl. repeat split; destruct (failed_row r); simpl; lia.
Qed.

(** X14. Every link is announced and downloaded exactly once, in the order of
    the table: the URLs of the downloads are the links, and the status
    messages are "Processing i/n: link" for i from 1 to n. *)
Theorem run_extraction_visits_links_in_order {W : Type} (h : handler W) (w : W)
    (links : list str) :
  downloads (trace h (run_extraction links) w) = links /\
  statuses (trace h (run_extraction links) w) =
    imap (fun i link => status_message (length links) i link) links.
Proof.
  destruct (rounds_summary _ links 0 _ _ (run_extraction_rounds h w links))
    as (D & S & _).
  split; [exact D | exact S].
Qed.

(** X15. The language model is called, the progress bar is moved and the loop
    sleeps once for every row that is not a row of failures, and not at all
    for a row of failures. *)
Theorem run_extraction_calls_match_rows {W : Type} (h : handler W) (w : W)
    (links : list str) :
  let tr := trace h (run_extraction links) w in
  let filled := count_filled (result h (run_extraction links) w) in
  count_events is_llm_event tr = filled /\
  count_events is_sleep_event tr = filled /\
  count_events is_progress_event tr = filled /\
  filled <= length links /\
  (forall link, failed_row (placeholder_row link) = true) /\
  (forall link text date r, failed_row (filled_row link text date r) = false).
Proof.
  intros tr filled.
  destruct (rounds_summary _ links 0 _ _ (run_extraction_rounds h w links))
    as (_ & _ & C1 & C2 & C3 & Hle).
  repeat split; try assumption; try reflexivity.
  intros. apply failed_row_filled.
Qed.

End Loop.

(** ** Further theorems at work on concrete inputs *)

Section MoreInstances.

Ltac absent := repeat (apply not_elem_of_cons; split; [discriminate|]); apply not_elem_of_nil.

(** Six numbered lines, the third with an empty field. *)
Lemma parse_2l_well_formed_witness :
  parse_2l (join "010" (imap numbered_line
              [py "Order win"; py "Revenue +12%"; []; py "A toy shop"; py "Growth";
               py "Good"])) =
  [py "Order win"; py "Revenue +12%"; []; py "A toy shop"; py "Growth"; py "Good"].
Proof.
  apply (parse_2l_well_formed
           [py "Order win"; py "Revenue +12%"; []; py "A toy shop"; py "Growth";
            py "Good"]).
  - reflexivity.
  - repeat (apply Forall_cons; split; [split; [absent | reflexivity]|]).
    apply Forall_nil. exact I.
Defined.

(** An indented line and carriage returns before the newlines. *)
Lemma parse_2l_padding_witness :
  parse_2l (join "010" ((fun '(sp1, l, sp2) => sp1 ++ l ++ sp2) <$>
              [(py " ", py "1. a", ["013"%char]); ([], py "2. b", ["013"%char])])) =
  parse_2l (join "010" ((fun '(_, l, _) => l) <$>
              [(py " ", py "1. a", ["013"%char]); ([], py "2. b", ["013"%char])])).
Proof.
  apply (parse_2l_padding
           [(py " ", py "1. a", ["013"%char]); ([], py "2. b", ["013"%char])]).
  repeat (apply Forall_cons; split;
          [split; [split; [repeat constructor | absent]|];
           split; [absent | split; [repeat constructor | absent]]|]).
  apply Forall_nil. exact I.
Defined.

(** A rate limit error of the language model. *)
Lemma failed_summary_gives_empty_fields_witness :
  parse_2l (summary_of (inl (Exn (py "Rate limit reached")))) = replicate 6 [].
Proof.
  apply (failed_summary_gives_empty_fields [] [] [] (Exn (py "Rate limit reached"))).
  simpl. absent.
Defined.

(** A company name in the middle of a sentence. *)
Lemma extract_company_name_witness :
  exists pre rest,
    py "results of Tata Steel Limited for Q1" =
      pre ++ extract_company (py "results of Tata Steel Limited for Q1") ++ rest /\
    company_name (extract_company (py "results of Tata Steel Limited for Q1")) /\
    forall pre' w' rest',
      py "results of Tata Steel Limited for Q1" = pre' ++ w' ++ rest' ->
      company_name w' -> length pre <= length pre'.
Proof.
  apply (proj2 (extract_company_name (py "results of Tata Steel Limited for Q1"))).
  vm_compute. discriminate.
Defined.

(** "capex" comes before "dividend" in the dictionary. *)
Lemma detect_announcement_type_first_keyword_witness :
  detect_announcement_type (py "Dividend and Capex plans") = py "Capex".
Proof.
  apply (proj1 (detect_announcement_type_first_keyword (py "Dividend and Capex plans"))
           1 (py "capex") (py "Capex")).
  - reflexivity.
  - exists (py "dividend and "), (py " plans"). reflexivity.
  - intros j k' v' Hj Hlook.
    destruct j as [|j]; [|lia]. injection Hlook as <- <-.
    apply contains_not_occurs. reflexivity.
Defined.

(** Capitals and small letters of the same word. *)
Lemma keyword_heuristics_ignore_case_witness :
  guess_sector (py "HDFC BANK") = guess_sector (py "hdfc bank").
Proof.
  apply (keyword_heuristics_ignore_case (py "HDFC BANK") (py "hdfc bank")).
  reflexivity.
Defined.

(** A PDF of one page in a world where every call succeeds. *)
Lemma fetch_clean_text_pdf_pages_witness :
  exists response texts,
    trace (serving (py "Revenue up") (py "1. ok") (py "2026-11-04"))
      (fetch_clean_text (py "https://example.com/q1.pdf")) tt =
    [said (RequestsGet (py "https://example.com/q1.pdf") 10) (inr response);
     said (WriteFile (py "temp.pdf") (resp_content response)) (inr tt);
     said (FitzOpen (py "temp.pdf")) (inr (length texts))]
    ++ page_log 0 texts ++ [said DocClose (inr tt)] /\
    result (serving (py "Revenue up") (py "1. ok") (py "2026-11-04"))
      (fetch_clean_text (py "https://example.com/q1.pdf")) tt =
    match all_text texts with
    | [] => py "Error: No text found in PDF"
    | _ :: _ => take 4000 (all_text texts)
    end.
Proof.
  apply (fetch_clean_text_pdf_pages
           (serving (py "Revenue up") (py "1. ok") (py "2026-11-04")) tt
           (py "https://example.com/q1.pdf")).
  - exists (py "https://example.com/q1"). reflexivity.
  - unfold quiet, trace. simpl. repeat constructor.
Defined.

(** An HTML page in a world where every call succeeds. *)
Lemma fetch_clean_text_html_text_witness :
  exists res page,
    trace (serving (py "Revenue up") (py "1. ok") (py "2026-11-04"))
      (fetch_clean_text (py "https://example.com/news")) tt =
    [said (RequestsGet (py "https://example.com/news") 10) (inr res);
     said (SoupGetText (resp_text res)) (inr page)] /\
    result (serving (py "Revenue up") (py "1. ok") (py "2026-11-04"))
      (fetch_clean_text (py "https://example.com/news")) tt = take 4000 page /\
    (length page <= 4000 ->
     result (serving (py "Revenue up") (py "1. ok") (py "2026-11-04"))
       (fetch_clean_text (py "https://example.com/news")) tt = page).
Proof.
  apply (fetch_clean_text_html_text
           (serving (py "Revenue up") (py "1. ok") (py "2026-11-04")) tt
           (py "https://example.com/news")).
  - intros Hex. apply endswith_spec in Hex. vm_compute in Hex. discriminate.
  - unfold quiet, trace. simpl. repeat constructor.
Defined.

End MoreInstances.

(** ** Greedy repetition of a character class *)

Section Greedy.

Context {X : Type}.

Implicit Types (p : ascii -> bool) (k : str -> caps -> option X).

Lemma rmatch_class_nil p k (c : caps) : rmatch (Chr p) k [] c = None.
Proof. reflexivity. Qed.

Lemma rmatch_class_cons p k (a : ascii) (s : str) (c : caps) :
  rmatch (Chr p) k (a :: s) c = if p a then k s c else None.
Proof. reflexivity. Qed.

Lemma rep_loop_class_some p k (fuel : nat) :
  (forall s c, exists x, k s c = Some x) ->
  forall (hi : option nat) (s : str) (c : caps),
    exists x, rep_loop (rmatch (Chr p)) k fuel 0 hi s c = Some x.
Proof.
  intros k_total. induction fuel as [|fuel IH]; intros hi s c; cbn [rep_loop].
  - apply k_total.
  - destruct (below hi); [|apply k_total].
    destruct s as [|a s];
      [rewrite rmatch_class_nil; apply k_total | rewrite rmatch_class_cons].
    destruct (p a).
    + destruct (rep_loop _ k fuel _ _ s c) as [y|]; [eauto | apply k_total].
    + apply k_total.
Qed.

(** With a continuation that accepts whatever is left, a repeated class
    takes as many characters as it may. *)
Lemma rep_loop_class_greedy p k (fuel : nat) :
  (forall s c, exists x, k s c = Some x) ->
  forall (lo hi : nat) (s : str) (c : caps) (x : X),
    length s <= fuel ->
    rep_loop (rmatch (Chr p)) k fuel lo (Some hi) s c = Some x ->
    exists w s',
      s = w ++ s' /\ Forall (fun a => p a = true) w /\
      lo <= length w /\ length w <= hi /\ k s' c = Some x /\
      (length w = hi \/ s' = [] \/ exists a s'', s' = a :: s'' /\ p a = false).
Proof.
  intros k_total. induction fuel as [|fuel IH]; intros lo hi s c x Hlen H.
  - destruct s; [|simpl in Hlen; lia]. cbn [rep_loop] in H.
    destruct lo; [|discriminate].
    exists [], []. repeat split; auto; lia.
  - cbn [rep_loop] in H.
    assert (Hstop : match lo with 0 => k s c | S _ => None end = Some x ->
                    hi = 0 \/ s = [] \/ (exists a s'', s = a :: s'' /\ p a = false) ->
                    exists w s',
                      s = w ++ s' /\ Forall (fun a => p a = true) w /\
                      lo <= length w /\ length w <= hi /\ k s' c = Some x /\
                      (length w = hi \/ s' = [] \/
                       exists a s'', s' = a :: s'' /\ p a = false)).
    { intros Hk Hmax. destruct lo; [|discriminate].
      exists [], s. simpl. repeat split; auto; try lia.
      destruct Hmax as [-> | [-> | Hmax]]; auto. }
    destruct hi as [|hi]; [apply Hstop; auto|].
    cbn [below dec_hi pred] in H.
    destruct s as [|a s];
      [rewrite rmatch_class_nil in H; apply Hstop; auto
      | rewrite rmatch_class_cons in H].
    destruct (p a) eqn:Hp; [|apply Hstop; eauto 6].
    destruct (rep_loop (rmatch (Chr p)) k fuel (pred lo) (Some hi) s c) as [y|] eqn:E.
    + injection H as ->. simpl in Hlen.
      apply IH in E as (w & s' & -> & Hall & Hlo & Hhi & Hk & Hmax); [|lia].
      exists (a :: w), s'. simpl. repeat split; auto; try lia.
      destruct Hmax as [-> | Hmax]; auto.
    + destruct lo as [|lo]; [|discriminate].
      destruct (rep_loop_class_some p k fuel k_total (Some hi) s c) as [z Hz].
      cbn [pred] in E. congruence.
Qed.

End Greedy.

Section GreedyTicker.

Lemma rmatch_ticker_greedy {X : Type} (k : str -> caps -> option X)
    (s : str) (c : caps) (x : X) :
  (forall s c, exists y, k s c = Some y) ->
  rmatch ticker k s c = Some x ->
  exists g rest,
    s = g ++ rest /\ ticker_word g /\ cut_at_ten g rest /\
    k rest (set_group 1 g c) = Some x.
Proof.
  intros Hk H. unfold ticker in H. cbn [rmatch] in H.
  apply rep_loop_class_greedy in H
    as (g & rest & Hs & Hall & Hlo & Hhi & Hcont & Hmax);
    [|intros s' c'; apply Hk|lia].
  exists g, rest. rewrite Hs in Hcont. rewrite take_matched in Hcont.
  split; [exact Hs|]. split; [split; [lia | exact Hall]|].
  split; [exact Hmax | exact Hcont].
Qed.

Lemma rmatch_cat_sound {X : Type} (r1 r2 : regex) (k : str -> caps -> option X)
    (s : str) (c : caps) (x : X) :
  rmatch (Cat r1 r2) k s c = Some x ->
  exists w1 s1 c1, s = w1 ++ s1 /\ sem r1 w1 c c1 /\ rmatch r2 k s1 c1 = Some x.
Proof. cbn [rmatch]. apply rmatch_sound. Qed.

Lemma match_at_companies (s rest : str) (c : caps) :
  match_at symbol_companies_re s = Some (rest, c) ->
  exists g, s = py "/companies/" ++ g ++ rest /\ ticker_word g /\
            cut_at_ten g rest /\ c = [(1, g)].
Proof.
  unfold match_at, symbol_companies_re. cbn [cat]. intros H.
  apply rmatch_cat_sound in H as (w1 & s1 & c1 & -> & H1 & H).
  apply sem_lit in H1 as [-> ->].
  apply rmatch_ticker_greedy in H as (g & rest' & -> & Hg & Hcut & [= <- <-]);
    [|intros; eauto].
  exists g. auto.
Qed.

Lemma match_at_bse (s rest : str) (c : caps) :
  match_at symbol_bse_re s = Some (rest, c) ->
  exists sep g, s = py "BSE" ++ sep ++ g ++ rest /\
                sep <> [] /\ Forall (fun a => colon_or_space a = true) sep /\
                ticker_word g /\ cut_at_ten g rest /\ c = [(1, g)].
Proof.
  unfold match_at, symbol_bse_re. cbn [cat]. intros H.
  apply rmatch_cat_sound in H as (w1 & s1 & c1 & -> & H1 & H).
  apply sem_lit in H1 as [-> ->].
  apply rmatch_cat_sound in H as (sep & s2 & c2 & -> & H2 & H).
  apply sem_class_rep in H2 as ([Hlo _] & Hsep & ->).
  apply rmatch_ticker_greedy in H as (g & rest' & -> & Hg & Hcut & [= <- <-]);
    [|intros; eauto].
  exists sep, g. split; [reflexivity|].
  split; [intros ->; simpl in Hlo; lia|].
  split; [exact Hsep|]. split; [exact Hg|]. split; [exact Hcut | reflexivity].
Qed.

End GreedyTicker.

(** ** Where the symbol is taken from *)

Section SymbolPlaces.

(** A found match is what the matcher answers at its place, and no match
    starts further left. *)
Lemma search_from_found_at (r : regex) :
  productive r ->
  forall s pos m,
    search_from r pos s = Some m ->
    exists pre rest,
      s = pre ++ m_whole m ++ rest /\
      m_start m = pos + length pre /\
      match_at r (m_whole m ++ rest) = Some (rest, m_caps m) /\
      (forall pre', matches_after r s pre' -> length pre <= length pre').
Proof.
  intros Hp. induction s as [|a s IH]; intros pos m H; cbn [search_from] in H.
  - destruct (match_at r []) as [[rest c]|] eqn:E; [|discriminate].
    injection H as <-. simpl.
    pose proof E as E'. apply match_at_sound in E' as (w & Hw & _).
    symmetry in Hw. apply app_eq_nil in Hw as [-> ->].
    exists [], []. simpl. repeat split; [lia | exact E | intros; lia].
  - destruct (match_at r (a :: s)) as [[rest c]|] eqn:E.
    + injection H as <-. cbn [m_whole m_caps m_start].
      pose proof E as E'. apply match_at_sound in E' as (w & Hw & _).
      assert (Ht : take (S (length s) - length rest) (a :: s) = w).
      { change (S (length s)) with (length (a :: s)).
        rewrite Hw. apply take_matched. }
      rewrite Ht.
      exists [], rest. simpl. rewrite <- Hw.
      repeat split; [lia | exact E | intros; lia].
    + apply IH in H as (pre & rest & Hs & Hstart & Hat & Hleft).
      exists (a :: pre), rest. rewrite Hs at 1. simpl.
      repeat split; [lia | exact Hat |].
      intros pre' (w' & rest' & c' & Hs' & Hsem').
      destruct pre' as [|b pre'].
      * simpl in Hs'.
        destruct (match_at_complete r w' rest' c' Hp Hsem') as [y Hy].
        rewrite <- Hs' in Hy. congruence.
      * simpl in Hs'. injection Hs' as _ Hs'. simpl.
        assert (length pre <= length pre'); [|lia].
        apply Hleft. exists w', rest', c'. auto.
Qed.

Lemma colon_or_space_blank (a : ascii) : colon_or_space a = true <-> colon_or_blank a.
Proof.
  unfold colon_or_space, colon_or_blank. rewrite orb_true_iff, eqb_char_true.
  split; intros [H | H]; auto.
Qed.

Lemma colon_or_space_blanks (sep : str) :
  Forall (fun a => colon_or_space a = true) sep <-> Forall colon_or_blank sep.
Proof.
  split; intros H; (eapply Forall_impl; [exact H|]); intros a; apply colon_or_space_blank.
Qed.

Lemma url_symbol_matches (url pre : str) :
  matches_after symbol_url_re url pre <-> exists g rest, url_symbol_at url pre g rest.
Proof.
  unfold matches_after, url_symbol_at. split.
  - intros (w & rest & c' & Hs & Hsem).
    apply sem_symbol_url in Hsem as (g & -> & Hg & _).
    exists g, rest. rewrite Hs, <- !app_assoc. auto.
  - intros (g & rest & Hs & Hg).
    exists (py "/" ++ g ++ py "_"), rest, (set_group 1 g []).
    split; [rewrite Hs, <- !app_assoc; reflexivity|].
    apply sem_symbol_url. exists g. auto.
Qed.

Lemma companies_symbol_matches (url pre : str) :
  matches_after symbol_companies_re url pre <->
  exists g rest, companies_symbol_at url pre g rest.
Proof.
  unfold matches_after, companies_symbol_at. split.
  - intros (w & rest & c' & Hs & Hsem).
    apply sem_symbol_companies in Hsem as (g & -> & Hg & _).
    exists g, rest. rewrite Hs, <- !app_assoc. auto.
  - intros (g & rest & Hs & Hg).
    exists (py "/companies/" ++ g), rest, (set_group 1 g []).
    split; [rewrite Hs, <- !app_assoc; reflexivity|].
    apply sem_symbol_companies. exists g. auto.
Qed.

Lemma bse_symbol_matches (text pre : str) :
  matches_after symbol_bse_re text pre <->
  exists sep g rest, bse_symbol_at text pre sep g rest.
Proof.
  unfold matches_after, bse_symbol_at. split.
  - intros (w & rest & c' & Hs & Hsem).
    apply sem_symbol_bse in Hsem as (sep & g & -> & Hlen & Hsep & Hg & _).
    exists sep, g, rest. rewrite Hs, <- !app_assoc.
    split; [reflexivity|]. split; [intros ->; simpl in Hlen; lia|].
    split; [apply colon_or_space_blanks; exact Hsep | exact Hg].
  - intros (sep & g & rest & Hs & Hne & Hsep & Hg).
    exists (py "BSE" ++ sep ++ g), rest, (set_group 1 g []).
    split; [rewrite Hs, <- !app_assoc; reflexivity|].
    apply sem_symbol_bse. exists sep, g.
    split; [reflexivity|]. split; [destruct sep; [contradiction | simpl; lia]|].
    split; [apply colon_or_space_blanks; exact Hsep | auto].
Qed.

(** Two readings of the same text from the same place agree. *)
Lemma capitals_until_underscore (g g' r r' : str) :
  Forall (fun a => isupper_az a = true) g ->
  Forall (fun a => isupper_az a = true) g' ->
  g ++ "_"%char :: r = g' ++ "_"%char :: r' -> g = g'.
Proof.
  revert g'. induction g as [|a g IH]; intros g' Hg Hg' H.
  - destruct g' as [|b g']; [reflexivity|]. simpl in H. injection H as <- _.
    apply Forall_cons in Hg' as [Hb _]. vm_compute in Hb. discriminate.
  - apply Forall_cons in Hg as [Ha Hg]. destruct g' as [|b g'].
    + simpl in H. injection H as -> _. vm_compute in Ha. discriminate.
    + simpl in H. injection H as -> H. apply Forall_cons in Hg' as [_ Hg'].
      f_equal. apply (IH g' Hg Hg' H).
Qed.

Lemma app_eq_shorter {A : Type} (l1 l2 r1 r2 : list A) :
  l1 ++ r1 = l2 ++ r2 -> length l1 < length l2 ->
  exists b x, l2 = l1 ++ b :: x /\ r1 = b :: x ++ r2.
Proof.
  revert l2. induction l1 as [|a l1 IH]; intros l2 H Hlen.
  - destruct l2 as [|b l2]; [simpl in Hlen; lia|].
    exists b, l2. simpl in *. auto.
  - destruct l2 as [|b l2]; [simpl in Hlen; lia|].
    simpl in H. injection H as -> H. simpl in Hlen.
    destruct (IH l2 H ltac:(lia)) as (c & x & -> & ->).
    exists c, x. auto.
Qed.

Lemma cut_at_ten_not_shorter (g rest g' rest' : str) :
  g ++ rest = g' ++ rest' ->
  ticker_word g' -> cut_at_ten g rest -> ~ length g < length g'.
Proof.
  intros H [[_ Hhi] Hall] Hcut Hlt.
  destruct (app_eq_shorter _ _ _ _ H Hlt) as (b & x & -> & ->).
  apply Forall_app in Hall as [_ Hall]. apply Forall_cons in Hall as [Hb _].
  rewrite length_app in Hhi. simpl in Hhi.
  destruct Hcut as [Hten | [Hnil | (a & r & [= -> _] & Ha)]];
    [lia | discriminate | congruence].
Qed.

Lemma cut_at_ten_unique (g rest g' rest' : str) :
  g ++ rest = g' ++ rest' ->
  ticker_word g -> ticker_word g' -> cut_at_ten g rest -> cut_at_ten g' rest' ->
  g = g'.
Proof.
  intros H Hg Hg' Hcut Hcut'.
  pose proof (cut_at_ten_not_shorter _ _ _ _ H Hg' Hcut) as H1.
  pose proof (cut_at_ten_not_shorter _ _ _ _ (eq_sym H) Hg Hcut') as H2.
  apply app_inj_1 in H as [Hgg _]; [exact Hgg | lia].
Qed.

Lemma capital_not_blank (a : ascii) : isupper_az a = true -> ~ colon_or_blank a.
Proof.
  intros Ha [-> | Hs]; [vm_compute in Ha; discriminate|].
  destruct a as [[] [] [] [] [] [] [] []]; vm_compute in Ha, Hs; discriminate.
Qed.

Lemma ticker_word_head (g : str) :
  ticker_word g -> exists a g', g = a :: g' /\ isupper_az a = true.
Proof.
  intros [[Hlo _] Hall]. destruct g as [|a g']; [simpl in Hlo; lia|].
  apply Forall_cons in Hall as [Ha _]. eauto.
Qed.

Lemma blanks_then_capitals (sep sep' g g' r r' : str) :
  Forall colon_or_blank sep -> Forall colon_or_blank sep' ->
  ticker_word g -> ticker_word g' ->
  sep ++ g ++ r = sep' ++ g' ++ r' -> sep = sep' /\ g ++ r = g' ++ r'.
Proof.
  intros Hsep Hsep' Hg Hg'.
  destruct (ticker_word_head g Hg) as (a & g0 & -> & Ha).
  destruct (ticker_word_head g' Hg') as (a' & g0' & -> & Ha').
  revert sep' Hsep'. induction Hsep as [|b sep Hb Hsep IH]; intros sep' Hsep' H.
  - destruct sep' as [|b' sep']; [auto|].
    simpl in H. injection H as -> _. apply Forall_cons in Hsep' as [Hb' _].
    destruct (capital_not_blank _ Ha Hb').
  - destruct sep' as [|b' sep'].
    + simpl in H. injection H as -> _. destruct (capital_not_blank _ Ha' Hb).
    + simpl in H. injection H as -> H. apply Forall_cons in Hsep' as [_ Hsep'].
      destruct (IH sep' Hsep' H) as [-> Hrest]. auto.
Qed.

Lemma url_symbol_search (url : str) :
  url_symbol_occurs url <-> exists m, search symbol_url_re url = Some m.
Proof.
  rewrite (search_some_iff _ _ productive_symbol_url). unfold url_symbol_occurs, occurs.
  split; intros [pre H]; exists pre; apply url_symbol_matches; exact H.
Qed.

Lemma companies_symbol_search (url : str) :
  companies_symbol_occurs url <-> exists m, search symbol_companies_re url = Some m.
Proof.
  rewrite (search_some_iff _ _ productive_symbol_companies).
  unfold companies_symbol_occurs, occurs.
  split; intros [pre H]; exists pre; apply companies_symbol_matches; exact H.
Qed.

Lemma bse_symbol_search (text : str) :
  bse_symbol_occurs text <-> exists m, search symbol_bse_re text = Some m.
Proof.
  rewrite (search_some_iff _ _ productive_symbol_bse). unfold bse_symbol_occurs, occurs.
  split; intros [pre H]; exists pre; apply bse_symbol_matches; exact H.
Qed.

Lemma not_found (r : regex) (s : str) :
  ~ (exists m, search r s = Some m) -> search r s = None.
Proof. intros H. destruct (search r s) as [m|]; [exfalso; eauto | reflexivity]. Qed.

Lemma search_url_symbol_at (url : str) (m : match_obj) :
  search symbol_url_re url = Some m ->
  exists pre g rest,
    url_symbol_at url pre g rest /\ m_group 1 m = g /\
    forall pre' g' rest', url_symbol_at url pre' g' rest' -> length pre <= length pre'.
Proof.
  intros H.
  apply (search_found _ _ _ productive_symbol_url) in H
    as (pre & rest & Hs & _ & Hsem & Hleft).
  apply sem_symbol_url in Hsem as (g & Hw & Hg & Hc).
  exists pre, g, rest. rewrite Hw in Hs.
  split; [split; [rewrite Hs, <- !app_assoc; reflexivity | exact Hg]|].
  split; [apply (m_group_set m 1 g [] Hc)|].
  intros pre' g' rest' H'. apply Hleft. apply url_symbol_matches. eauto.
Qed.

Lemma search_companies_symbol_at (url : str) (m : match_obj) :
  search symbol_companies_re url = Some m ->
  exists pre g rest,
    companies_symbol_at url pre g rest /\ cut_at_ten g rest /\ m_group 1 m = g /\
    forall pre' g' rest', companies_symbol_at url pre' g' rest' ->
                          length pre <= length pre'.
Proof.
  intros H.
  apply (search_from_found_at _ productive_symbol_companies) in H
    as (pre & rest & Hs & _ & Hat & Hleft).
  apply match_at_companies in Hat as (g & Hw & Hg & Hcut & Hc).
  exists pre, g, rest. rewrite Hw in Hs.
  split; [split; [exact Hs | exact Hg]|]. split; [exact Hcut|].
  split; [apply (m_group_set m 1 g [] Hc)|].
  intros pre' g' rest' H'. apply Hleft. apply companies_symbol_matches. eauto.
Qed.

Lemma search_bse_symbol_at (text : str) (m : match_obj) :
  search symbol_bse_re text = Some m ->
  exists pre sep g rest,
    bse_symbol_at text pre sep g rest /\ cut_at_ten g rest /\ m_group 1 m = g /\
    forall pre' sep' g' rest', bse_symbol_at text pre' sep' g' rest' ->
                               length pre <= length pre'.
Proof.
  intros H.
  apply (search_from_found_at _ productive_symbol_bse) in H
    as (pre & rest & Hs & _ & Hat & Hleft).
  apply match_at_bse in Hat as (sep & g & Hw & Hne & Hsep & Hg & Hcut & Hc).
  exists pre, sep, g, rest. rewrite Hw in Hs.
  split.
  { split; [exact Hs|]. split; [exact Hne|].
    split; [apply colon_or_space_blanks; exact Hsep | exact Hg]. }
  split; [exact Hcut|]. split; [apply (m_group_set m 1 g [] Hc)|].
  intros pre' sep' g' rest' H'. apply Hleft. apply bse_symbol_matches. eauto.
Qed.

Lemma same_place {A : Type} (pre pre' x x' : list A) :
  pre ++ x = pre' ++ x' -> length pre <= length pre' -> length pre' <= length pre ->
  x = x'.
Proof. intros H H1 H2. apply app_inj_1 in H as [_ H]; [exact H | lia]. Qed.

Lemma url_symbol_result (url pre g rest : str) (m : match_obj) :
  url_symbol_at url pre g rest ->
  (forall pre' g' rest', url_symbol_at url pre' g' rest' -> length pre <= length pre') ->
  search symbol_url_re url = Some m -> m_group 1 m = g.
Proof.
  intros Hat Hleft Hm.
  apply search_url_symbol_at in Hm as (pre0 & g0 & rest0 & Hat0 & -> & Hleft0).
  pose proof (Hleft _ _ _ Hat0) as H1. pose proof (Hleft0 _ _ _ Hat) as H2.
  destruct Hat as [Hs [_ Hg]]. destruct Hat0 as [Hs0 [_ Hg0]].
  rewrite Hs in Hs0. apply same_place in Hs0; [|lia|lia].
  simpl in Hs0. injection Hs0 as Hs0. symmetry.
  apply (capitals_until_underscore g g0 rest rest0 Hg Hg0 Hs0).
Qed.

Lemma companies_symbol_result (url pre g rest : str) (m : match_obj) :
  companies_symbol_at url pre g rest -> cut_at_ten g rest ->
  (forall pre' g' rest', companies_symbol_at url pre' g' rest' ->
                         length pre <= length pre') ->
  search symbol_companies_re url = Some m -> m_group 1 m = g.
Proof.
  intros Hat Hcut Hleft Hm.
  apply search_companies_symbol_at in Hm
    as (pre0 & g0 & rest0 & Hat0 & Hcut0 & -> & Hleft0).
  pose proof (Hleft _ _ _ Hat0) as H1. pose proof (Hleft0 _ _ _ Hat) as H2.
  destruct Hat as [Hs Hg]. destruct Hat0 as [Hs0 Hg0].
  rewrite Hs in Hs0. apply same_place in Hs0; [|lia|lia].
  apply app_inv_head in Hs0. symmetry.
  apply (cut_at_ten_unique g rest g0 rest0 Hs0 Hg Hg0 Hcut Hcut0).
Qed.

Lemma bse_symbol_result (text pre sep g rest : str) (m : match_obj) :
  bse_symbol_at text pre sep g rest -> cut_at_ten g rest ->
  (forall pre' sep' g' rest', bse_symbol_at text pre' sep' g' rest' ->
                              length pre <= length pre') ->
  search symbol_bse_re text = Some m -> m_group 1 m = g.
Proof.
  intros Hat Hcut Hleft Hm.
  apply search_bse_symbol_at in Hm
    as (pre0 & sep0 & g0 & rest0 & Hat0 & Hcut0 & -> & Hleft0).
  pose proof (Hleft _ _ _ _ Hat0) as H1. pose proof (Hleft0 _ _ _ _ Hat) as H2.
  destruct Hat as (Hs & _ & Hsep & Hg). destruct Hat0 as (Hs0 & _ & Hsep0 & Hg0).
  rewrite Hs in Hs0. apply same_place in Hs0; [|lia|lia].
  apply app_inv_head in Hs0.
  apply (blanks_then_capitals sep sep0 g g0 rest rest0 Hsep Hsep0 Hg Hg0) in Hs0
    as [_ Hs0].
  symmetry. apply (cut_at_ten_unique g rest g0 rest0 Hs0 Hg Hg0 Hcut Hcut0).
Qed.

Lemma url_symbol_absent (url : str) :
  ~ url_symbol_occurs url -> search symbol_url_re url = None.
Proof. intros H. apply not_found. rewrite <- url_symbol_search. exact H. Qed.

Lemma companies_symbol_absent (url : str) :
  ~ companies_symbol_occurs url -> search symbol_companies_re url = None.
Proof. intros H. apply not_found. rewrite <- companies_symbol_search. exact H. Qed.

Lemma bse_symbol_absent (text : str) :
  ~ bse_symbol_occurs text -> search symbol_bse_re text = None.
Proof. intros H. apply not_found. rewrite <- bse_symbol_search. exact H. Qed.

Lemma extract_symbol_url_case (url text : str) (m : match_obj) :
  search symbol_url_re url = Some m -> extract_symbol url text = m_group 1 m.
Proof. intros H. unfold extract_symbol. rewrite H. reflexivity. Qed.

Lemma extract_symbol_companies_case (url text : str) (m : match_obj) :
  search symbol_url_re url = None -> search symbol_companies_re url = Some m ->
  extract_symbol url text = m_group 1 m.
Proof. intros H1 H2. unfold extract_symbol. rewrite H1, H2. reflexivity. Qed.

Lemma extract_symbol_bse_case (url text : str) (m : match_obj) :
  search symbol_url_re url = None -> search symbol_companies_re url = None ->
  search symbol_bse_re text = Some m ->
  extract_symbol url text = m_group 1 m.
Proof. intros H1 H2 H3. unfold extract_symbol. rewrite H1, H2, H3. reflexivity. Qed.

Lemma extract_symbol_none_case (url text : str) :
  search symbol_url_re url = None -> search symbol_companies_re url = None ->
  search symbol_bse_re text = None ->
  extract_symbol url text = py "Unknown".
Proof. intros H1 H2 H3. unfold extract_symbol. rewrite H1, H2, H3. reflexivity. Qed.

(** C6. The symbol is read from three places in a fixed order.  First the
    URL: a slash, one to ten capitals and an underscore; the capitals of the
    leftmost such place are returned.  When the URL has no such place:
    [/companies/] and one to ten capitals; the capitals at the leftmost such
    place are returned, as many as stand there up to ten.  When the URL has
    neither: in the text, [BSE], one or more colons or whitespace characters
    and one to ten capitals, read the same way.  So a place in the URL wins
    over the text, whatever the text holds, and the result is "Unknown"
    exactly when none of the three places exists. *)
Theorem extract_symbol_precedence (url text : str) :
  (forall pre g rest,
      url_symbol_at url pre g rest ->
      (forall pre' g' rest', url_symbol_at url pre' g' rest' ->
                             length pre <= length pre') ->
      extract_symbol url text = g) /\
  (forall pre g rest,
      ~ url_symbol_occurs url ->
      companies_symbol_at url pre g rest -> cut_at_ten g rest ->
      (forall pre' g' rest', companies_symbol_at url pre' g' rest' ->
                             length pre <= length pre') ->
      extract_symbol url text = g) /\
  (forall pre sep g rest,
      ~ url_symbol_occurs url -> ~ companies_symbol_occurs url ->
      bse_symbol_at text pre sep g rest -> cut_at_ten g rest ->
      (forall pre' sep' g' rest', bse_symbol_at text pre' sep' g' rest' ->
                                  length pre <= length pre') ->
      extract_symbol url text = g) /\
  (url_symbol_occurs url ->
   exists pre g rest,
     url_symbol_at url pre g rest /\ extract_symbol url text = g) /\
  (~ url_symbol_occurs url -> companies_symbol_occurs url ->
   exists pre g rest,
     companies_symbol_at url pre g rest /\ cut_at_ten g rest /\
     extract_symbol url text = g) /\
  (~ url_symbol_occurs url -> ~ companies_symbol_occurs url -> bse_symbol_occurs text ->
   exists pre sep g rest,
     bse_symbol_at text pre sep g rest /\ cut_at_ten g rest /\
     extract_symbol url text = g) /\
  (url_symbol_occurs url \/ companies_symbol_occurs url ->
   forall text', extract_symbol url text' = extract_symbol url text) /\
  (extract_symbol url text = py "Unknown" <->
   ~ url_symbol_occurs url /\ ~ companies_symbol_occurs url /\ ~ bse_symbol_occurs text).
Proof.
  split.
  { intros pre g rest Hat Hleft.
    assert (Hocc : url_symbol_occurs url) by (exists pre, g, rest; exact Hat).
    apply url_symbol_search in Hocc as [m Hm].
    rewrite (extract_symbol_url_case url text m Hm).
    apply (url_symbol_result _ _ _ _ _ Hat Hleft Hm). }
  split.
  { intros pre g rest Hno Hat Hcut Hleft.
    assert (Hocc : companies_symbol_occurs url) by (exists pre, g, rest; exact Hat).
    apply companies_symbol_search in Hocc as [m Hm].
    rewrite (extract_symbol_companies_case url text m (url_symbol_absent url Hno) Hm).
    apply (companies_symbol_result _ _ _ _ _ Hat Hcut Hleft Hm). }
  split.
  { intros pre sep g rest Hno1 Hno2 Hat Hcut Hleft.
    assert (Hocc : bse_symbol_occurs text) by (exists pre, sep, g, rest; exact Hat).
    apply bse_symbol_search in Hocc as [m Hm].
    rewrite (extract_symbol_bse_case url text m (url_symbol_absent url Hno1)
               (companies_symbol_absent url Hno2) Hm).
    apply (bse_symbol_result _ _ _ _ _ _ Hat Hcut Hleft Hm). }
  split.
  { intros Hocc. apply url_symbol_search in Hocc as [m Hm].
    rewrite (extract_symbol_url_case url text m Hm).
    apply search_url_symbol_at in Hm as (pre & g & rest & Hat & Hg & _).
    exists pre, g, rest. auto. }
  split.
  { intros Hno Hocc. apply companies_symbol_search in Hocc as [m Hm].
    rewrite (extract_symbol_companies_case url text m (url_symbol_absent url Hno) Hm).
    apply search_companies_symbol_at in Hm as (pre & g & rest & Hat & Hcut & Hg & _).
    exists pre, g, rest. auto. }
  split.
  { intros Hno1 Hno2 Hocc. apply bse_symbol_search in Hocc as [m Hm].
    rewrite (extract_symbol_bse_case url text m (url_symbol_absent url Hno1)
               (companies_symbol_absent url Hno2) Hm).
    apply search_bse_symbol_at in Hm as (pre & sep & g & rest & Hat & Hcut & Hg & _).
    exists pre, sep, g, rest. auto. }
  split.
  { intros Hocc text'.
    destruct (search symbol_url_re url) as [m1|] eqn:E1.
    { rewrite !(extract_symbol_url_case url _ m1 E1). reflexivity. }
    destruct Hocc as [Hocc | Hocc].
    - apply url_symbol_search in Hocc as [m Hm]. congruence.
    - apply companies_symbol_search in Hocc as [m Hm].
      rewrite !(extract_symbol_companies_case url _ m E1 Hm). reflexivity. }
  split.
  - intros Hu. split; [|split].
    + intros Hocc. apply url_symbol_search in Hocc as [m Hm].
      rewrite (extract_symbol_url_case url text m Hm) in Hu.
      apply search_url_symbol_at in Hm as (pre & g & rest & [_ Hw] & Hg & _).
      rewrite Hg in Hu. apply (ticker_word_not_unknown g Hw Hu).
    + intros Hocc. apply companies_symbol_search in Hocc as [m Hm].
      destruct (search symbol_url_re url) as [m1|] eqn:E1.
      * rewrite (extract_symbol_url_case url text m1 E1) in Hu.
        apply search_url_symbol_at in E1 as (pre & g & rest & [_ Hw] & Hg & _).
        rewrite Hg in Hu. apply (ticker_word_not_unknown g Hw Hu).
      * rewrite (extract_symbol_companies_case url text m E1 Hm) in Hu.
        apply search_companies_symbol_at in Hm as (pre & g & rest & [_ Hw] & _ & Hg & _).
        rewrite Hg in Hu. apply (ticker_word_not_unknown g Hw Hu).
    + intros Hocc. apply bse_symbol_search in Hocc as [m Hm].
      destruct (search symbol_url_re url) as [m1|] eqn:E1.
      * rewrite (extract_symbol_url_case url text m1 E1) in Hu.
        apply search_url_symbol_at in E1 as (pre & g & rest & [_ Hw] & Hg & _).
        rewrite Hg in Hu. apply (ticker_word_not_unknown g Hw Hu).
      * destruct (search symbol_companies_re url) as [m2|] eqn:E2.
        -- rewrite (extract_symbol_companies_case url text m2 E1 E2) in Hu.
           apply search_companies_symbol_at in E2
             as (pre & g & rest & [_ Hw] & _ & Hg & _).
           rewrite Hg in Hu. apply (ticker_word_not_unknown g Hw Hu).
        -- rewrite (extract_symbol_bse_case url text m E1 E2 Hm) in Hu.
           apply search_bse_symbol_at in Hm
             as (pre & sep & g & rest & (_ & _ & _ & Hw) & _ & Hg & _).
           rewrite Hg in Hu. apply (ticker_word_not_unknown g Hw Hu).
  - intros (H1 & H2 & H3).
    apply extract_symbol_none_case;
      [apply url_symbol_absent | apply companies_symbol_absent | apply bse_symbol_absent];
      assumption.
Qed.

End SymbolPlaces.

Section SymbolInstance.

(** No place in the URL, so the symbol after "BSE:" in the text is
    returned. *)
Lemma extract_symbol_precedence_witness :
  extract_symbol (py "https://x/q1") (py "BSE:  TCS today") = py "TCS".
Proof.
  apply (proj1 (proj2 (proj2
           (extract_symbol_precedence (py "https://x/q1") (py "BSE:  TCS today"))))
           [] (py ":  ") (py "TCS") (py " today")).
  - intros H. apply url_symbol_search in H as [m Hm]. vm_compute in Hm. discriminate.
  - intros H. apply companies_symbol_search in H as [m Hm]. vm_compute in Hm. discriminate.
  - split; [reflexivity|]. split; [discriminate|]. split.
    + apply Forall_cons; split; [left; reflexivity|].
      apply Forall_cons; split; [right; reflexivity|].
      apply Forall_cons; split; [right; reflexivity|]. apply Forall_nil. exact I.
    + split; [simpl; lia | repeat constructor].
  - right. right. exists " "%char, (py "today"). split; reflexivity.
  - intros pre' sep' g' rest' _. simpl. lia.
Defined.

End SymbolInstance.
